(** * Apple-slicing arcade game: entity lifecycle, spawn scheduler,
      gesture matching and session state machine of [src/code_v2.py].

    Python [float]s are IEEE-754 binary64 values; they are embedded as
    Rocq's primitive [float]s, which are the same format with the same
    rounding, so every definition below evaluates to the bits the
    program computes.  Python [int]s are [Z]; an [int] met by a [float]
    in an arithmetic expression is converted with [Z2F].  The hardware
    that the program polls (monotonic clock, debounced button,
    accelerometer, encoder, random generator) is passed to each function
    as an explicit argument, one argument per read. *)

From Stdlib Require Import String.
From Stdlib Require Import ZArith List Bool Lia Permutation.
From Stdlib Require Import Floats.
Import ListNotations.

Local Open Scope Z_scope.

(** ** Numbers *)

Module Num.

(** [float(z)]: the conversion Python applies to an [int] operand of a
    mixed expression (round to nearest even). *)
Definition Z2F (z : Z) : float := SF2Prim (binary_normalize prec emax z 0 false).

(** [int(f)]: truncation toward zero; [None] stands for the
    [ValueError] / [OverflowError] raised on NaN and the infinities. *)
Definition int (f : float) : option Z :=
  match Prim2SF f with
  | S754_zero _ => Some 0
  | S754_finite s m e => Some (cond_Zopp s (Z.shiftl (Zpos m) e))
  | S754_infinity _ => None
  | S754_nan => None
  end.

(** Python comparison operators on floats. *)
Definition flt (a b : float) : bool := PrimFloat.ltb a b.
Definition fle (a b : float) : bool := PrimFloat.leb a b.
Definition fgt (a b : float) : bool := PrimFloat.ltb b a.
Definition fge (a b : float) : bool := PrimFloat.leb b a.

End Num.
Import Num.

(** ** Game constants *)

Definition OLED_WIDTH : Z := 128.
Definition OLED_HEIGHT : Z := 64.

Definition APPLE_SIZE : Z * Z := (8, 8).
Definition SCREEN_CENTER : Z * Z := (63, 35).

Record Region := mkRegion { x_min : Z; x_max : Z; y_min : Z; y_max : Z }.
Definition INVALID_REGION : Region := mkRegion 45 81 27 45.

Definition CUT_TIME_LIMIT : float := 4.0%float.
Definition RESPONSE_DELAY : float := 0x1.999999999999ap-3%float. (* 0.2 *)

Inductive SpawnDirection := Top | Bottom | Left | Right.

Definition SPAWN_POSITIONS (d : SpawnDirection) : Z * Z :=
  match d with
  | Top => (63, 0)
  | Bottom => (63, 63)
  | Left => (0, 31)
  | Right => (127, 31)
  end.

Inductive SpeedClass := slow | medium | fast | very_fast | ultra.

Definition SPEEDS (s : SpeedClass) : Z :=
  match s with
  | slow => 20
  | medium => 35
  | fast => 50
  | very_fast => 70
  | ultra => 90
  end.

(** The difficulty tags; [DIFFICULTY_NAMES] holds them in upper case and
    [DIFFICULTY_LEVELS] is keyed by the lower-case tag, so the lookup
    [DIFFICULTY_LEVELS[DIFFICULTY_NAMES[i].lower()]] is a map on the tag
    ([medium_d] is the tag "medium", [medium] being the speed class). *)
Inductive Difficulty := easy | medium_d | hard.

Record Level := mkLevel {
  name : string;
  speed : SpeedClass;
  apples : Z;
  time : Z;
  difficulty : Difficulty
}.

Definition LEVELS : list Level :=
  [ mkLevel "E1:EZ 10A 60S"%string slow 10 60 easy;
    mkLevel "E2:EZ 15A 55S"%string slow 15 55 easy;
    mkLevel "E3:EZ 20A 50S"%string medium 20 50 easy;
    mkLevel "E4:EZ 25A 45S"%string fast 25 45 easy;
    mkLevel "M1:MD 20A 45S"%string medium 20 45 medium_d;
    mkLevel "M2:MD 25A 40S"%string fast 25 40 medium_d;
    mkLevel "M3:MD 30A 35S"%string very_fast 30 35 medium_d;
    mkLevel "H1:HD 25A 30S"%string fast 25 30 hard;
    mkLevel "H2:HD 30A 25S"%string very_fast 30 25 hard;
    mkLevel "H3:HD 35A 20S"%string ultra 35 20 hard ].

Definition DIFFICULTY_LEVELS (d : Difficulty) : Z :=
  match d with
  | easy => 0
  | medium_d => 4
  | hard => 7
  end.

Definition DIFFICULTY_NAMES : list Difficulty := [easy; medium_d; hard].

(** ** Apple *)

Inductive Action := forward | backward | rotate_left | rotate_right.

Definition Action_eqb (a b : Action) : bool :=
  match a, b with
  | forward, forward | backward, backward
  | rotate_left, rotate_left | rotate_right, rotate_right => true
  | _, _ => false
  end.

Record Apple := mkApple {
  spawn_direction : SpawnDirection;
  a_speed : Z;
  start_time : float;
  sliced : bool;
  entered_valid_zone : bool;
  valid_zone_entry_time : option float;
  expired : bool;
  start_pos : Z * Z;
  target_pos : Z * Z;
  direction : float * float;
  x : float;
  y : float;
  expected_action : option Action
}.

(** [Apple._get_expected_action] *)
Definition _get_expected_action (d : SpawnDirection) : option Action :=
  match d with
  | Top => Some forward
  | Bottom => Some backward
  | Left => Some rotate_left
  | Right => Some rotate_right
  end.

(** [Apple.__init__] *)
Definition Apple_init (spawn_direction : SpawnDirection) (speed : Z)
    (start_time : float) : Apple :=
  let start_pos := SPAWN_POSITIONS spawn_direction in
  let target_pos := SCREEN_CENTER in
  let dx := fst target_pos - fst start_pos in
  let dy := snd target_pos - snd start_pos in
  let distance := PrimFloat.sqrt (Z2F (dx * dx + dy * dy)) in
  let direction :=
    if fgt distance 0
    then (Z2F dx / distance, Z2F dy / distance)%float
    else (0, 0)%float in
  mkApple spawn_direction speed start_time false false None false
          start_pos target_pos direction
          (Z2F (fst start_pos)) (Z2F (snd start_pos))
          (_get_expected_action spawn_direction).

(** [Apple._is_in_invalid_region], on a position. *)
Definition in_invalid_region_at (px py : float) : bool :=
  (fle (Z2F (x_min INVALID_REGION)) px && fle px (Z2F (x_max INVALID_REGION)))
  && (fle (Z2F (y_min INVALID_REGION)) py && fle py (Z2F (y_max INVALID_REGION))).

Definition _is_in_invalid_region (a : Apple) : bool :=
  in_invalid_region_at (x a) (y a).

(** [Apple.is_in_valid_zone] *)
Definition is_in_valid_zone (a : Apple) : bool :=
  negb (_is_in_invalid_region a).

(** The screen-bounds test that ends [Apple.update]. *)
Definition off_screen_at (px py : float) : bool :=
  flt px (Z2F (- fst APPLE_SIZE))
  || fgt px (Z2F (OLED_WIDTH + fst APPLE_SIZE))
  || flt py (Z2F (- snd APPLE_SIZE))
  || fgt py (Z2F (OLED_HEIGHT + snd APPLE_SIZE)).

(** The position [Apple.update] computes for the instant [current_time]. *)
Definition position_at (a : Apple) (current_time : float) : float * float :=
  let elapsed := (current_time - start_time a)%float in
  let distance := (Z2F (a_speed a) * elapsed)%float in
  ((Z2F (fst (start_pos a)) + fst (direction a) * distance)%float,
   (Z2F (snd (start_pos a)) + snd (direction a) * distance)%float).

Definition set_position (a : Apple) (p : float * float) : Apple :=
  mkApple (spawn_direction a) (a_speed a) (start_time a) (sliced a)
          (entered_valid_zone a) (valid_zone_entry_time a) (expired a)
          (start_pos a) (target_pos a) (direction a)
          (fst p) (snd p) (expected_action a).

Definition set_entered (a : Apple) (t : float) : Apple :=
  mkApple (spawn_direction a) (a_speed a) (start_time a) (sliced a)
          true (Some t) (expired a)
          (start_pos a) (target_pos a) (direction a)
          (x a) (y a) (expected_action a).

Definition set_expired (a : Apple) : Apple :=
  mkApple (spawn_direction a) (a_speed a) (start_time a) (sliced a)
          (entered_valid_zone a) (valid_zone_entry_time a) true
          (start_pos a) (target_pos a) (direction a)
          (x a) (y a) (expected_action a).

Definition set_sliced (a : Apple) : Apple :=
  mkApple (spawn_direction a) (a_speed a) (start_time a) true
          (entered_valid_zone a) (valid_zone_entry_time a) (expired a)
          (start_pos a) (target_pos a) (direction a)
          (x a) (y a) (expected_action a).

(** A call either returns or lets an exception escape; Python objects
    are mutated in place, so the state reached when the exception left
    is kept. *)
Inductive outcome (A : Type) : Type :=
| Done (a : A)
| Raised (a : A).
Arguments Done {A} a.
Arguments Raised {A} a.

Definition state_of {A} (o : outcome A) : A :=
  match o with Done a => a | Raised a => a end.

Definition and_then {A} (o : outcome A) (k : A -> outcome A) : outcome A :=
  match o with Done a => k a | Raised a => Raised a end.

(** [Apple.update].  [Raised] is the [TypeError] of
    [current_time - self.valid_zone_entry_time] when the flag is set
    while the entry time is still [None]. *)
Definition Apple_update (a : Apple) (current_time : float) : outcome Apple :=
  if sliced a || expired a then Done a
  else
    let a1 := set_position a (position_at a current_time) in
    let a2 :=
      if negb (entered_valid_zone a1)
      then if negb (_is_in_invalid_region a1)
           then set_entered a1 current_time
           else a1
      else a1 in
    and_then
      (if entered_valid_zone a2
       then match valid_zone_entry_time a2 with
            | Some t =>
                if fgt (current_time - t)%float CUT_TIME_LIMIT
                then Done (set_expired a2)
                else Done a2
            | None => Raised a2
            end
       else Done a2)
      (fun a3 =>
         if off_screen_at (x a3) (y a3) then Done (set_expired a3) else Done a3).

(** ** Game *)

Inductive GameState := MENU | PLAYING | GAME_OVER | PAUSED.

Definition GameState_eqb (a b : GameState) : bool :=
  match a, b with
  | MENU, MENU | PLAYING, PLAYING | GAME_OVER, GAME_OVER | PAUSED, PAUSED => true
  | _, _ => false
  end.

Inductive LedState := idle | playing | success | error | warning | game_over.

(** The tags handed to [_play_sound]. *)
Inductive Sound :=
| snd_start | snd_success | snd_error | snd_game_over | snd_menu_move | snd_menu_select.

(** The attributes of [Game] that the session logic reads or writes.
    [_game_over_button_last_state] and [_game_over_button_press_time] are
    created on first use by [_update_game_over] ([None] until then).
    The last two fields are not attributes but a record of calls, latest
    first: [sound_requests] of the calls to [_play_sound] (the buzzer is
    a module global), [cut_calls] of the calls to [_check_cut_action]. *)
Record Game := mkGame {
  state : GameState;
  current_difficulty_index : Z;
  current_level_index : Z;
  current_level : option Level;
  g_apples : list Apple;
  sliced_count : Z;
  game_start_time : float;
  last_apple_spawn_time : float;
  apple_spawn_interval : float;
  pause_start_time : float;
  total_pause_time : float;
  last_encoder_position : Z;
  last_accel_y : float;
  last_accel_action_time : float;
  encoder_action_pending : option (Action * float);
  accel_action_pending : option (Action * float);
  led_state : LedState;
  last_led_update : float;
  _button_last_state : bool;
  _button_press_start_time : float;
  _button_action_done : bool;
  _game_over_button_last_state : option bool;
  _game_over_button_press_time : option float;
  sound_requests : list Sound;
  cut_calls : list Action
}.

(** Attribute assignment [self.f = v], one definition per attribute. *)
Definition set_state v g :=
  mkGame v (current_difficulty_index g) (current_level_index g)
    (current_level g) (g_apples g) (sliced_count g) (game_start_time g)
    (last_apple_spawn_time g) (apple_spawn_interval g) (pause_start_time g)
    (total_pause_time g) (last_encoder_position g) (last_accel_y g)
    (last_accel_action_time g) (encoder_action_pending g)
    (accel_action_pending g) (led_state g) (last_led_update g)
    (_button_last_state g) (_button_press_start_time g)
    (_button_action_done g) (_game_over_button_last_state g)
    (_game_over_button_press_time g) (sound_requests g) (cut_calls g).
Definition set_current_difficulty_index v g :=
  mkGame (state g) v (current_level_index g) (current_level g) (g_apples g)
    (sliced_count g) (game_start_time g) (last_apple_spawn_time g)
    (apple_spawn_interval g) (pause_start_time g) (total_pause_time g)
    (last_encoder_position g) (last_accel_y g) (last_accel_action_time g)
    (encoder_action_pending g) (accel_action_pending g) (led_state g)
    (last_led_update g) (_button_last_state g) (_button_press_start_time g)
    (_button_action_done g) (_game_over_button_last_state g)
    (_game_over_button_press_time g) (sound_requests g) (cut_calls g).
Definition set_current_level_index v g :=
  mkGame (state g) (current_difficulty_index g) v (current_level g)
    (g_apples g) (sliced_count g) (game_start_time g)
    (last_apple_spawn_time g) (apple_spawn_interval g) (pause_start_time g)
    (total_pause_time g) (last_encoder_position g) (last_accel_y g)
    (last_accel_action_time g) (encoder_action_pending g)
    (accel_action_pending g) (led_state g) (last_led_update g)
    (_button_last_state g) (_button_press_start_time g)
    (_button_action_done g) (_game_over_button_last_state g)
    (_game_over_button_press_time g) (sound_requests g) (cut_calls g).
Definition set_current_level v g :=
  mkGame (state g) (current_difficulty_index g) (current_level_index g) v
    (g_apples g) (sliced_count g) (game_start_time g)
    (last_apple_spawn_time g) (apple_spawn_interval g) (pause_start_time g)
    (total_pause_time g) (last_encoder_position g) (last_accel_y g)
    (last_accel_action_time g) (encoder_action_pending g)
    (accel_action_pending g) (led_state g) (last_led_update g)
    (_button_last_state g) (_button_press_start_time g)
    (_button_action_done g) (_game_over_button_last_state g)
    (_game_over_button_press_time g) (sound_requests g) (cut_calls g).
Definition set_apples v g :=
  mkGame (state g) (current_difficulty_index g) (current_level_index g)
    (current_level g) v (sliced_count g) (game_start_time g)
    (last_apple_spawn_time g) (apple_spawn_interval g) (pause_start_time g)
    (total_pause_time g) (last_encoder_position g) (last_accel_y g)
    (last_accel_action_time g) (encoder_action_pending g)
    (accel_action_pending g) (led_state g) (last_led_update g)
    (_button_last_state g) (_button_press_start_time g)
    (_button_action_done g) (_game_over_button_last_state g)
    (_game_over_button_press_time g) (sound_requests g) (cut_calls g).
Definition set_sliced_count v g :=
  mkGame (state g) (current_difficulty_index g) (current_level_index g)
    (current_level g) (g_apples g) v (game_start_time g)
    (last_apple_spawn_time g) (apple_spawn_interval g) (pause_start_time g)
    (total_pause_time g) (last_encoder_position g) (last_accel_y g)
    (last_accel_action_time g) (encoder_action_pending g)
    (accel_action_pending g) (led_state g) (last_led_update g)
    (_button_last_state g) (_button_press_start_time g)
    (_button_action_done g) (_game_over_button_last_state g)
    (_game_over_button_press_time g) (sound_requests g) (cut_calls g).
Definition set_game_start_time v g :=
  mkGame (state g) (current_difficulty_index g) (current_level_index g)
    (current_level g) (g_apples g) (sliced_count g) v
    (last_apple_spawn_time g) (apple_spawn_interval g) (pause_start_time g)
    (total_pause_time g) (last_encoder_position g) (last_accel_y g)
    (last_accel_action_time g) (encoder_action_pending g)
    (accel_action_pending g) (led_state g) (last_led_update g)
    (_button_last_state g) (_button_press_start_time g)
    (_button_action_done g) (_game_over_button_last_state g)
    (_game_over_button_press_time g) (sound_requests g) (cut_calls g).
Definition set_last_apple_spawn_time v g :=
  mkGame (state g) (current_difficulty_index g) (current_level_index g)
    (current_level g) (g_apples g) (sliced_count g) (game_start_time g) v
    (apple_spawn_interval g) (pause_start_time g) (total_pause_time g)
    (last_encoder_position g) (last_accel_y g) (last_accel_action_time g)
    (encoder_action_pending g) (accel_action_pending g) (led_state g)
    (last_led_update g) (_button_last_state g) (_button_press_start_time g)
    (_button_action_done g) (_game_over_button_last_state g)
    (_game_over_button_press_time g) (sound_requests g) (cut_calls g).
Definition set_apple_spawn_interval v g :=
  mkGame (state g) (current_difficulty_index g) (current_level_index g)
    (current_level g) (g_apples g) (sliced_count g) (game_start_time g)
    (last_apple_spawn_time g) v (pause_start_time g) (total_pause_time g)
    (last_encoder_position g) (last_accel_y g) (last_accel_action_time g)
    (encoder_action_pending g) (accel_action_pending g) (led_state g)
    (last_led_update g) (_button_last_state g) (_button_press_start_time g)
    (_button_action_done g) (_game_over_button_last_state g)
    (_game_over_button_press_time g) (sound_requests g) (cut_calls g).
Definition set_pause_start_time v g :=
  mkGame (state g) (current_difficulty_index g) (current_level_index g)
    (current_level g) (g_apples g) (sliced_count g) (game_start_time g)
    (last_apple_spawn_time g) (apple_spawn_interval g) v (total_pause_time g)
    (last_encoder_position g) (last_accel_y g) (last_accel_action_time g)
    (encoder_action_pending g) (accel_action_pending g) (led_state g)
    (last_led_update g) (_button_last_state g) (_button_press_start_time g)
    (_button_action_done g) (_game_over_button_last_state g)
    (_game_over_button_press_time g) (sound_requests g) (cut_calls g).
Definition set_total_pause_time v g :=
  mkGame (state g) (current_difficulty_index g) (current_level_index g)
    (current_level g) (g_apples g) (sliced_count g) (game_start_time g)
    (last_apple_spawn_time g) (apple_spawn_interval g) (pause_start_time g) v
    (last_encoder_position g) (last_accel_y g) (last_accel_action_time g)
    (encoder_action_pending g) (accel_action_pending g) (led_state g)
    (last_led_update g) (_button_last_state g) (_button_press_start_time g)
    (_button_action_done g) (_game_over_button_last_state g)
    (_game_over_button_press_time g) (sound_requests g) (cut_calls g).
Definition set_last_encoder_position v g :=
  mkGame (state g) (current_difficulty_index g) (current_level_index g)
    (current_level g) (g_apples g) (sliced_count g) (game_start_time g)
    (last_apple_spawn_time g) (apple_spawn_interval g) (pause_start_time g)
    (total_pause_time g) v (last_accel_y g) (last_accel_action_time g)
    (encoder_action_pending g) (accel_action_pending g) (led_state g)
    (last_led_update g) (_button_last_state g) (_button_press_start_time g)
    (_button_action_done g) (_game_over_button_last_state g)
    (_game_over_button_press_time g) (sound_requests g) (cut_calls g).
Definition set_last_accel_y v g :=
  mkGame (state g) (current_difficulty_index g) (current_level_index g)
    (current_level g) (g_apples g) (sliced_count g) (game_start_time g)
    (last_apple_spawn_time g) (apple_spawn_interval g) (pause_start_time g)
    (total_pause_time g) (last_encoder_position g) v
    (last_accel_action_time g) (encoder_action_pending g)
    (accel_action_pending g) (led_state g) (last_led_update g)
    (_button_last_state g) (_button_press_start_time g)
    (_button_action_done g) (_game_over_button_last_state g)
    (_game_over_button_press_time g) (sound_requests g) (cut_calls g).
Definition set_last_accel_action_time v g :=
  mkGame (state g) (current_difficulty_index g) (current_level_index g)
    (current_level g) (g_apples g) (sliced_count g) (game_start_time g)
    (last_apple_spawn_time g) (apple_spawn_interval g) (pause_start_time g)
    (total_pause_time g) (last_encoder_position g) (last_accel_y g) v
    (encoder_action_pending g) (accel_action_pending g) (led_state g)
    (last_led_update g) (_button_last_state g) (_button_press_start_time g)
    (_button_action_done g) (_game_over_button_last_state g)
    (_game_over_button_press_time g) (sound_requests g) (cut_calls g).
Definition set_encoder_action_pending v g :=
  mkGame (state g) (current_difficulty_index g) (current_level_index g)
    (current_level g) (g_apples g) (sliced_count g) (game_start_time g)
    (last_apple_spawn_time g) (apple_spawn_interval g) (pause_start_time g)
    (total_pause_time g) (last_encoder_position g) (last_accel_y g)
    (last_accel_action_time g) v (accel_action_pending g) (led_state g)
    (last_led_update g) (_button_last_state g) (_button_press_start_time g)
    (_button_action_done g) (_game_over_button_last_state g)
    (_game_over_button_press_time g) (sound_requests g) (cut_calls g).
Definition set_accel_action_pending v g :=
  mkGame (state g) (current_difficulty_index g) (current_level_index g)
    (current_level g) (g_apples g) (sliced_count g) (game_start_time g)
    (last_apple_spawn_time g) (apple_spawn_interval g) (pause_start_time g)
    (total_pause_time g) (last_encoder_position g) (last_accel_y g)
    (last_accel_action_time g) (encoder_action_pending g) v (led_state g)
    (last_led_update g) (_button_last_state g) (_button_press_start_time g)
    (_button_action_done g) (_game_over_button_last_state g)
    (_game_over_button_press_time g) (sound_requests g) (cut_calls g).
Definition set_led_state v g :=
  mkGame (state g) (current_difficulty_index g) (current_level_index g)
    (current_level g) (g_apples g) (sliced_count g) (game_start_time g)
    (last_apple_spawn_time g) (apple_spawn_interval g) (pause_start_time g)
    (total_pause_time g) (last_encoder_position g) (last_accel_y g)
    (last_accel_action_time g) (encoder_action_pending g)
    (accel_action_pending g) v (last_led_update g) (_button_last_state g)
    (_button_press_start_time g) (_button_action_done g)
    (_game_over_button_last_state g) (_game_over_button_press_time g)
    (sound_requests g) (cut_calls g).
Definition set_last_led_update v g :=
  mkGame (state g) (current_difficulty_index g) (current_level_index g)
    (current_level g) (g_apples g) (sliced_count g) (game_start_time g)
    (last_apple_spawn_time g) (apple_spawn_interval g) (pause_start_time g)
    (total_pause_time g) (last_encoder_position g) (last_accel_y g)
    (last_accel_action_time g) (encoder_action_pending g)
    (accel_action_pending g) (led_state g) v (_button_last_state g)
    (_button_press_start_time g) (_button_action_done g)
    (_game_over_button_last_state g) (_game_over_button_press_time g)
    (sound_requests g) (cut_calls g).
Definition set_button_last_state v g :=
  mkGame (state g) (current_difficulty_index g) (current_level_index g)
    (current_level g) (g_apples g) (sliced_count g) (game_start_time g)
    (last_apple_spawn_time g) (apple_spawn_interval g) (pause_start_time g)
    (total_pause_time g) (last_encoder_position g) (last_accel_y g)
    (last_accel_action_time g) (encoder_action_pending g)
    (accel_action_pending g) (led_state g) (last_led_update g) v
    (_button_press_start_time g) (_button_action_done g)
    (_game_over_button_last_state g) (_game_over_button_press_time g)
    (sound_requests g) (cut_calls g).
Definition set_button_press_start_time v g :=
  mkGame (state g) (current_difficulty_index g) (current_level_index g)
    (current_level g) (g_apples g) (sliced_count g) (game_start_time g)
    (last_apple_spawn_time g) (apple_spawn_interval g) (pause_start_time g)
    (total_pause_time g) (last_encoder_position g) (last_accel_y g)
    (last_accel_action_time g) (encoder_action_pending g)
    (accel_action_pending g) (led_state g) (last_led_update g)
    (_button_last_state g) v (_button_action_done g)
    (_game_over_button_last_state g) (_game_over_button_press_time g)
    (sound_requests g) (cut_calls g).
Definition set_button_action_done v g :=
  mkGame (state g) (current_difficulty_index g) (current_level_index g)
    (current_level g) (g_apples g) (sliced_count g) (game_start_time g)
    (last_apple_spawn_time g) (apple_spawn_interval g) (pause_start_time g)
    (total_pause_time g) (last_encoder_position g) (last_accel_y g)
    (last_accel_action_time g) (encoder_action_pending g)
    (accel_action_pending g) (led_state g) (last_led_update g)
    (_button_last_state g) (_button_press_start_time g) v
    (_game_over_button_last_state g) (_game_over_button_press_time g)
    (sound_requests g) (cut_calls g).
Definition set_game_over_button_last_state v g :=
  mkGame (state g) (current_difficulty_index g) (current_level_index g)
    (current_level g) (g_apples g) (sliced_count g) (game_start_time g)
    (last_apple_spawn_time g) (apple_spawn_interval g) (pause_start_time g)
    (total_pause_time g) (last_encoder_position g) (last_accel_y g)
    (last_accel_action_time g) (encoder_action_pending g)
    (accel_action_pending g) (led_state g) (last_led_update g)
    (_button_last_state g) (_button_press_start_time g)
    (_button_action_done g) v (_game_over_button_press_time g)
    (sound_requests g) (cut_calls g).
Definition set_game_over_button_press_time v g :=
  mkGame (state g) (current_difficulty_index g) (current_level_index g)
    (current_level g) (g_apples g) (sliced_count g) (game_start_time g)
    (last_apple_spawn_time g) (apple_spawn_interval g) (pause_start_time g)
    (total_pause_time g) (last_encoder_position g) (last_accel_y g)
    (last_accel_action_time g) (encoder_action_pending g)
    (accel_action_pending g) (led_state g) (last_led_update g)
    (_button_last_state g) (_button_press_start_time g)
    (_button_action_done g) (_game_over_button_last_state g) v
    (sound_requests g) (cut_calls g).
Definition set_sound_requests v g :=
  mkGame (state g) (current_difficulty_index g) (current_level_index g)
    (current_level g) (g_apples g) (sliced_count g) (game_start_time g)
    (last_apple_spawn_time g) (apple_spawn_interval g) (pause_start_time g)
    (total_pause_time g) (last_encoder_position g) (last_accel_y g)
    (last_accel_action_time g) (encoder_action_pending g)
    (accel_action_pending g) (led_state g) (last_led_update g)
    (_button_last_state g) (_button_press_start_time g)
    (_button_action_done g) (_game_over_button_last_state g)
    (_game_over_button_press_time g) v (cut_calls g).
Definition set_cut_calls v g :=
  mkGame (state g) (current_difficulty_index g) (current_level_index g)
    (current_level g) (g_apples g) (sliced_count g) (game_start_time g)
    (last_apple_spawn_time g) (apple_spawn_interval g) (pause_start_time g)
    (total_pause_time g) (last_encoder_position g) (last_accel_y g)
    (last_accel_action_time g) (encoder_action_pending g)
    (accel_action_pending g) (led_state g) (last_led_update g)
    (_button_last_state g) (_button_press_start_time g)
    (_button_action_done g) (_game_over_button_last_state g)
    (_game_over_button_press_time g) (sound_requests g) v.

(** Subscript [xs[i]] of a Python list: a negative index counts from the
    end; [None] is the [IndexError]. *)
Definition py_index {A} (xs : list A) (i : Z) : option A :=
  let n := Z.of_nat (length xs) in
  if 0 <=? i then nth_error xs (Z.to_nat i)
  else if 0 <=? i + n then nth_error xs (Z.to_nat (i + n))
  else None.

(** [Game._play_sound]: drives the buzzer only. *)
Definition _play_sound (k : Sound) (g : Game) : Game :=
  set_sound_requests (k :: sound_requests g) g.

(** [Game.__init__] (with [encoder.position] reset to 0); [now] is the
    clock read stored in [last_led_update]. *)
Definition Game_init (now : float) : Game :=
  mkGame MENU 0 0 None [] 0 0 0 0 0 0 0 0 0 None None idle now
         false 0 false None None [] [].

(** [Game.start_level]; [now] is its read of [time.monotonic()].  The
    call returns [False] when the index is too large and [True] at the
    end ([start_level_returns]); [Raised] is the [IndexError] of
    [LEVELS[level_index]]. *)
Definition start_level (level_index : Z) (now : float) (g : Game) : outcome Game :=
  if level_index >=? Z.of_nat (length LEVELS) then Done g
  else
    let g := set_current_level_index level_index g in
    match py_index LEVELS level_index with
    | None => Raised g
    | Some lvl =>
        let g := set_current_level (Some lvl) g in
        let g := set_apples [] g in
        let g := set_sliced_count 0 g in
        let g := set_game_start_time now g in
        let g := set_last_apple_spawn_time (game_start_time g) g in
        let g := set_total_pause_time 0%float g in
        let total_apples := apples lvl in
        let total_time := time lvl in
        let g := set_apple_spawn_interval
                   (if total_apples >? 0
                    then (Z2F total_time / Z2F total_apples)%float
                    else Z2F 999) g in
        let g := set_state PLAYING g in
        let g := set_led_state playing g in
        Done (_play_sound snd_start g)
    end.

Definition start_level_returns (level_index : Z) : bool :=
  negb (level_index >=? Z.of_nat (length LEVELS)).

(** [Game.spawn_apple_at_time]; [direction] is the value drawn by
    [random.choice]. *)
Definition spawn_apple_at_time (spawn_time : float) (direction : SpawnDirection)
    (g : Game) : Game :=
  match current_level g with
  | None => g
  | Some lvl =>
      let speed := SPEEDS (speed lvl) in
      let apple := Apple_init direction speed spawn_time in
      set_apples (g_apples g ++ [apple]) g
  end.

(** [Game._update_level_index_from_difficulty] *)
Definition _update_level_index_from_difficulty (g : Game) : outcome Game :=
  if current_difficulty_index g <? Z.of_nat (length DIFFICULTY_NAMES) then
    match py_index DIFFICULTY_NAMES (current_difficulty_index g) with
    | Some difficulty_name =>
        Done (set_current_level_index (DIFFICULTY_LEVELS difficulty_name) g)
    | None => Raised g
    end
  else Done g.

(** *** Playing *)

(** The [while len(self.apples) < apples_to_spawn] loop of
    [_update_playing]; [rnd i] is the edge [random.choice] returns for the
    apple appended at list index [i].  [fuel] bounds the iterations
    ([spawn_loop_exit] shows the bound used by [_update_playing] is never
    what stops the loop). *)
Fixpoint spawn_loop (fuel : nat) (rnd : nat -> SpawnDirection)
    (apples_to_spawn : Z) (g : Game) : Game :=
  match fuel with
  | O => g
  | S fuel' =>
      if Z.of_nat (length (g_apples g)) <? apples_to_spawn then
        let spawn_time :=
          (game_start_time g
           + Z2F (Z.of_nat (length (g_apples g))) * apple_spawn_interval g)%float in
        spawn_loop fuel' rnd apples_to_spawn
          (spawn_apple_at_time spawn_time (rnd (length (g_apples g))) g)
      else g
  end.

(** [for apple in self.apples: apple.update(t)]: an exception leaves the
    apples after the failing one untouched. *)
Fixpoint update_all (l : list Apple) (t : float) : outcome (list Apple) :=
  match l with
  | [] => Done []
  | a :: rest =>
      match Apple_update a t with
      | Raised a' => Raised (a' :: rest)
      | Done a' =>
          match update_all rest t with
          | Done rest' => Done (a' :: rest')
          | Raised rest' => Raised (a' :: rest')
          end
      end
  end.

(** The spawn target of a tick:
    [min(int(elapsed / interval) + 1, level["apples"])]; [None] when the
    division raises [ZeroDivisionError] or [int] raises. *)
Definition apples_to_spawn_at (elapsed interval : float) (lvl : Level) : option Z :=
  if PrimFloat.eqb interval 0 then None
  else match int (elapsed / interval)%float with
       | Some n => Some (Z.min (n + 1) (apples lvl))
       | None => None
       end.

(** [Game._update_playing] *)
Definition _update_playing (current_time : float) (rnd : nat -> SpawnDirection)
    (g : Game) : outcome Game :=
  let adjusted_current_time := (current_time - total_pause_time g)%float in
  let elapsed := (adjusted_current_time - game_start_time g)%float in
  match current_level g with
  | None => Raised g
  | Some lvl =>
      let remaining_time := (Z2F (time lvl) - elapsed)%float in
      if fle remaining_time 0 then
        let g := set_state GAME_OVER g in
        let g := set_led_state game_over g in
        Done (_play_sound snd_game_over g)
      else
        match apples_to_spawn_at elapsed (apple_spawn_interval g) lvl with
        | None => Raised g
        | Some apples_to_spawn =>
            let g := spawn_loop
                       (Z.to_nat (apples_to_spawn - Z.of_nat (length (g_apples g))))
                       rnd apples_to_spawn g in
            match update_all (g_apples g) adjusted_current_time with
            | Raised l => Raised (set_apples l g)
            | Done l =>
                let g := set_apples l g in
                if fle remaining_time (Z2F 10)
                then Done (set_led_state warning g)
                else Done g
            end
        end
  end.



(** *** Game over and menu *)

(** [Game._update_game_over]; [current_time] is its clock read and
    [button_current] the debounced button. *)
Definition _update_game_over (current_time : float) (button_current : bool)
    (g : Game) : outcome Game :=
  let g := match _game_over_button_last_state g with
           | None => set_game_over_button_last_state (Some false) g
           | Some _ => g
           end in
  let g := match _game_over_button_press_time g with
           | None => set_game_over_button_press_time (Some 0%float) g
           | Some _ => g
           end in
  let last := match _game_over_button_last_state g with Some b => b | None => false end in
  let press g := match _game_over_button_press_time g with Some t => t | None => 0%float end in
  let g := if button_current && negb last
           then set_game_over_button_press_time (Some current_time) g
           else g in
  and_then
    (if button_current && fgt (press g) 0 then
       if fgt (current_time - press g)%float 0x1.999999999999ap-3 (* 0.2 *) then
         let g := set_state MENU g in
         let g := set_current_level None g in
         let g := set_current_difficulty_index 0 g in
         and_then (_update_level_index_from_difficulty g)
           (fun g =>
              let g := set_led_state idle g in
              let g := set_game_over_button_press_time (Some 0%float) g in
              Done (_play_sound snd_menu_select g))
       else Done g
     else Done g)
    (fun g =>
       let g := if negb button_current && last
                then set_game_over_button_press_time (Some 0%float) g
                else g in
       Done (set_game_over_button_last_state (Some button_current) g)).

(** What a read of the encoder gives: the switch [ENCODER_AVAILABLE],
    then [encoder.position] or the exception it raised. *)
Inductive EncoderRead :=
| enc_unavailable
| enc_raised
| enc_position (p : Z).

(** The encoder part of [Game._update_menu] (a [try] block that swallows
    every exception, keeping what was assigned before it). *)
Definition menu_encoder (enc : EncoderRead) (g : Game) : Game :=
  match enc with
  | enc_unavailable | enc_raised => g
  | enc_position encoder_pos =>
      if negb (encoder_pos =? last_encoder_position g) then
        let diff := encoder_pos - last_encoder_position g in
        let r :=
          if Z.abs diff <=? 100 then
            let n := Z.of_nat (length DIFFICULTY_NAMES) in
            let g :=
              if diff >? 0 then
                _play_sound snd_menu_move
                  (set_current_difficulty_index
                     ((current_difficulty_index g + 1) mod n) g)
              else if diff <? 0 then
                _play_sound snd_menu_move
                  (set_current_difficulty_index
                     ((current_difficulty_index g - 1) mod n) g)
              else g in
            _update_level_index_from_difficulty g
          else Done g in
        match r with
        | Done g => set_last_encoder_position encoder_pos g
        | Raised g => g
        end
      else g
  end.

(** [Game._update_menu]; [current_time] is its clock read, [start_now]
    the one [start_level] makes. *)
Definition _update_menu (current_time : float) (enc : EncoderRead)
    (button_current : bool) (start_now : float) (g : Game) : outcome Game :=
  let g := menu_encoder enc g in
  let g := if button_current && negb (_button_last_state g)
           then set_button_action_done false
                  (set_button_press_start_time current_time g)
           else g in
  and_then
    (if button_current && fgt (_button_press_start_time g) 0 then
       let hold_time := (current_time - _button_press_start_time g)%float in
       if negb (_button_action_done g) then
         if fge hold_time 1 then
           and_then
             (if GameState_eqb (state g) MENU
                 && match current_level g with None => true | Some _ => false end
              then start_level (current_level_index g) start_now g
              else Done g)
             (fun g => Done (set_button_action_done true g))
         else Done g
       else Done g
     else Done g)
    (fun g =>
       let g := if negb button_current && _button_last_state g
                then set_button_press_start_time 0%float
                       (set_button_action_done false g)
                else g in
       Done (set_button_last_state button_current g)).

(** *** Gesture matching *)

(** The tests an apple passes, in order, before [_check_cut_action]
    slices it: neither sliced nor expired, zone entered, currently in the
    valid zone, expected action equal to the submitted one, entry time
    present and [0 <= adjusted - entry <= CUT_TIME_LIMIT]. *)
Definition qualifies (adjusted_current_time : float) (action : Action)
    (apple : Apple) : bool :=
  if sliced apple || expired apple then false
  else if negb (entered_valid_zone apple) then false
  else if negb (is_in_valid_zone apple) then false
  else
    match expected_action apple with
    | Some e =>
        if Action_eqb e action then
          match valid_zone_entry_time apple with
          | Some t =>
              let time_since_entry := (adjusted_current_time - t)%float in
              fle 0 time_since_entry && fle time_since_entry CUT_TIME_LIMIT
          | None => false
          end
        else false
    | None => false
    end.

(** The [for apple in self.apples] loop of [_check_cut_action]: the
    apples after the loop and [sliced_any]. *)
Fixpoint cut_loop (adjusted_current_time : float) (action : Action)
    (l : list Apple) : list Apple * bool :=
  match l with
  | [] => ([], false)
  | apple :: rest =>
      if qualifies adjusted_current_time action apple
      then (set_sliced apple :: rest, true)
      else let (rest', sliced_any) := cut_loop adjusted_current_time action rest in
           (apple :: rest', sliced_any)
  end.

(** [Game._check_cut_action]; [current_time] is its own clock read. *)
Definition _check_cut_action (action : Action) (current_time : float)
    (g : Game) : Game :=
  let g := set_cut_calls (action :: cut_calls g) g in
  let adjusted_current_time := (current_time - total_pause_time g)%float in
  let (l, sliced_any) := cut_loop adjusted_current_time action (g_apples g) in
  let g := set_apples l g in
  let g :=
    if sliced_any then
      let g := set_sliced_count (sliced_count g + 1) g in
      let g := set_led_state success g in
      let g := set_last_led_update current_time g in
      _play_sound snd_success g
    else g in
  if negb sliced_any && GameState_eqb (state g) PLAYING then
    let g := set_led_state error g in
    let g := set_last_led_update current_time g in
    _play_sound snd_error g
  else g.

(** *** Input polling *)

(** What [power_switch] gives in [_update_inputs]: no switch object, a
    read that raised, or its value ([True] is "switch off"). *)
Inductive SwitchRead :=
| sw_absent
| sw_raised
| sw_value (v : bool).

(** One poll of the hardware by [_update_inputs]: the encoder, the power
    switch, [accelerometer.acceleration] ([None] when the read raised)
    and the clock reads of the two possible [_check_cut_action] calls. *)
Record Inputs := mkInputs {
  in_encoder : EncoderRead;
  in_power_switch : SwitchRead;
  in_acceleration : option (float * float * float);
  in_cut_clock_encoder : float;
  in_cut_clock_accel : float
}.

(** Encoder detection (only in the playing state). *)
Definition inputs_encoder_detect (current_time : float) (enc : EncoderRead)
    (g : Game) : Game :=
  let available := match enc with enc_unavailable => false | _ => true end in
  if GameState_eqb (state g) PLAYING && available then
    let encoder_pos :=
      match enc with
      | enc_position p => p
      | _ => last_encoder_position g
      end in
    if negb (encoder_pos =? last_encoder_position g) then
      let diff := encoder_pos - last_encoder_position g in
      if (Z.abs diff <=? 100) && negb (diff =? 0) then
        let g :=
          if diff >? 0
          then set_encoder_action_pending
                 (Some (rotate_right, (current_time + RESPONSE_DELAY)%float)) g
          else set_encoder_action_pending
                 (Some (rotate_left, (current_time + RESPONSE_DELAY)%float)) g in
        set_last_encoder_position encoder_pos g
      else g
    else g
  else g.

(** "Check pending encoder action". *)
Definition inputs_encoder_fire (current_time cut_clock : float) (g : Game) : Game :=
  match encoder_action_pending g with
  | Some (action, action_time) =>
      if fge current_time action_time then
        let g := if GameState_eqb (state g) PLAYING
                 then _check_cut_action action cut_clock g
                 else g in
        set_encoder_action_pending None g
      else g
  | None => g
  end.

(** Accelerometer sampling and edge detection. *)
Definition inputs_accel_detect (current_time : float)
    (acc : option (float * float * float)) (g : Game) : Game :=
  if fgt (current_time - last_accel_action_time g)%float 0x1.999999999999ap-4 (* 0.1 *)
  then
    match acc with
    | Some (_, y, _) =>
        let accel_threshold := 2.0%float in
        let g :=
          if fgt y accel_threshold && fle (last_accel_y g) accel_threshold then
            set_accel_action_pending
              (Some (forward, (current_time + RESPONSE_DELAY)%float)) g
          else if flt y (- accel_threshold) && fge (last_accel_y g) (- accel_threshold)
          then
            set_accel_action_pending
              (Some (backward, (current_time + RESPONSE_DELAY)%float)) g
          else g in
        let g := set_last_accel_y y g in
        set_last_accel_action_time current_time g
    | None => g
    end
  else g.

(** "Check pending accelerometer action". *)
Definition inputs_accel_fire (current_time cut_clock : float) (g : Game) : Game :=
  match accel_action_pending g with
  | Some (action, action_time) =>
      if fge current_time action_time then
        let g := if GameState_eqb (state g) PLAYING
                 then _check_cut_action action cut_clock g
                 else g in
        set_accel_action_pending None g
      else g
  | None => g
  end.

(** [Game._update_inputs] *)
Definition _update_inputs (current_time : float) (i : Inputs) (g : Game) : Game :=
  let g := inputs_encoder_detect current_time (in_encoder i) g in
  let g := inputs_encoder_fire current_time (in_cut_clock_encoder i) g in
  match in_power_switch i with
  | sw_value true => g
  | _ =>
      let g := inputs_accel_detect current_time (in_acceleration i) g in
      inputs_accel_fire current_time (in_cut_clock_accel i) g
  end.

(** A run of [update] calls on one apple, stopping at an exception. *)
Fixpoint updates (a : Apple) (ts : list float) : outcome Apple :=
  match ts with
  | [] => Done a
  | t :: rest => and_then (Apple_update a t) (fun a' => updates a' rest)
  end.

(** The region test applied to the position [update] computes at [t]. *)
Definition inside_at (a : Apple) (t : float) : bool :=
  in_invalid_region_at (fst (position_at a t)) (snd (position_at a t)).

(** The apples the scheduler appends at list indices [from], ...,
    [from + k - 1] of a level, [rnd i] being the edge drawn for index
    [i]. *)
Definition spawned (rnd : nat -> SpawnDirection) (g : Game) (lvl : Level)
    (from k : nat) : list Apple :=
  map (fun i =>
         Apple_init (rnd i) (SPEEDS (speed lvl))
           (game_start_time g + Z2F (Z.of_nat i) * apple_spawn_interval g)%float)
      (seq from k).

(** Successive ticks of [_update_playing] at the clock reads [ts]; an
    exception that leaves a tick is swallowed by [Game.update], and the
    next tick starts from the state it left. *)
Fixpoint play (rnd : nat -> SpawnDirection) (g : Game) (ts : list float) : Game :=
  match ts with
  | [] => g
  | t :: rest => play rnd (state_of (_update_playing t rnd g)) rest
  end.

(** The spawn target [_update_playing] computes at clock [t] when it
    finds time left. *)
Definition spawn_target (g : Game) (lvl : Level) (t : float) : option Z :=
  let elapsed := ((t - total_pause_time g) - game_start_time g)%float in
  if fle (Z2F (time lvl) - elapsed) 0 then None
  else apples_to_spawn_at elapsed (apple_spawn_interval g) lvl.

(** [ns] never decreases and starts at or above [from]. *)
Fixpoint rising (from : Z) (ns : list Z) : Prop :=
  match ns with
  | [] => True
  | n :: rest => from <= n /\ rising n rest
  end.

(** The first entry of [LEVELS]. *)
Definition level0 : Level := mkLevel "E1:EZ 10A 60S"%string slow 10 60 easy.



(** ** Debounce *)

(** The values [read_pin_stable] collects: [reads k] is what the [k]-th
    read of [pin.value] gives ([None] when it raised, which the loop
    swallows), for [k] from [from] on, [n] reads in all. *)
Fixpoint sample_values (n : nat) (reads : nat -> option bool) (from : nat) : list bool :=
  match n with
  | O => []
  | S n' =>
      match reads from with
      | Some v => v :: sample_values n' reads (S from)
      | None => sample_values n' reads (S from)
      end
  end.

(** [values.count(v)] *)
Definition count_value (v : bool) (values : list bool) : Z :=
  Z.of_nat (count_occ Bool.bool_dec values v).

(** [max(set(values), key=values.count)].  The set holds the distinct
    values; [first] is the one its iteration yields first when it holds
    both.  [max] keeps the earliest element whose key no later element
    exceeds; [None] is its [ValueError] on an empty set. *)
Definition max_by_count (first : bool) (values : list bool) : option bool :=
  let elements :=
    filter (fun b => existsb (Bool.eqb b) values) [first; negb first] in
  match elements with
  | [] => None
  | b0 :: rest =>
      Some (fold_left
              (fun best item =>
                 if count_value item values >? count_value best values
                 then item else best)
              rest b0)
  end.

(** [read_pin_stable(pin, samples, delay)]; [pin] tells whether the pin
    object is there, and the read after the sampling loop is number
    [samples].  [None] is an exception leaving the call. *)
Definition read_pin_stable (pin : bool) (samples : Z) (reads : nat -> option bool)
    (first : bool) : option bool :=
  if negb pin then Some false
  else
    let values := sample_values (Z.to_nat samples) reads 0 in
    match values with
    | [] => reads (Z.to_nat samples)
    | _ :: _ => max_by_count first values
    end.

(** ** OLED frame buffer *)

(** [RawOLEDDisplay]: the attributes the drawing methods use.  [buffer]
    is the [bytearray], one page-ordered byte per column and group of
    eight rows. *)
Record RawOLEDDisplay := mkDisplay {
  width : Z;
  height : Z;
  address : Z;
  buffer : list Z;
  _oled_should_be_off : bool
}.

Definition set_buffer (b : list Z) (d : RawOLEDDisplay) : RawOLEDDisplay :=
  mkDisplay (width d) (height d) (address d) b (_oled_should_be_off d).

(** The state [RawOLEDDisplay.__init__] builds before it talks to the
    bus: [bytearray(width * height // 8)] is all zero. *)
Definition Display_init (width height address : Z) : RawOLEDDisplay :=
  mkDisplay width height address
            (repeat 0 (Z.to_nat (width * height / 8))) false.

(** Item assignment [xs[i] = v] on a list position that exists. *)
Fixpoint list_set {A} (xs : list A) (i : nat) (v : A) : list A :=
  match xs, i with
  | [], _ => []
  | _ :: rest, O => v :: rest
  | a :: rest, S i' => a :: list_set rest i' v
  end.

(** Truth value of an [int] used as a condition. *)
Definition truthy (color : Z) : bool := negb (color =? 0).

(** [RawOLEDDisplay.fill] *)
Definition fill (color : Z) (d : RawOLEDDisplay) : RawOLEDDisplay :=
  let fill_byte := if truthy color then 255 else 0 in
  set_buffer (repeat fill_byte (length (buffer d))) d.

(** [RawOLEDDisplay.pixel].  [Raised] is the [IndexError] of
    [self.buffer[index]] when the buffer is shorter than the geometry
    says, or the [ValueError] of storing a value that is not a byte. *)
Definition pixel (x y color : Z) (d : RawOLEDDisplay) : outcome RawOLEDDisplay :=
  if (0 <=? x) && (x <? width d) && ((0 <=? y) && (y <? height d)) then
    let index := (y / 8) * width d + x in
    let bit := y mod 8 in
    match py_index (buffer d) index with
    | None => Raised d
    | Some b =>
        let v := if truthy color
                 then Z.lor b (Z.shiftl 1 bit)
                 else Z.land b (Z.lnot (Z.shiftl 1 bit)) in
        if (0 <=? v) && (v <? 256)
        then Done (set_buffer (list_set (buffer d) (Z.to_nat index) v) d)
        else Raised d
    end
  else Done d.

(** [range(a, b)] *)
Definition py_range (a b : Z) : list Z :=
  map (fun k => a + Z.of_nat k) (seq 0 (Z.to_nat (b - a))).

(** A [for] loop whose body may raise. *)
Fixpoint for_each {A S} (items : list A) (body : A -> S -> outcome S) (s : S)
    : outcome S :=
  match items with
  | [] => Done s
  | a :: rest => and_then (body a s) (for_each rest body)
  end.

(** [RawOLEDDisplay.fill_rect] *)
Definition fill_rect (x y w h color : Z) (d : RawOLEDDisplay) : outcome RawOLEDDisplay :=
  for_each (py_range y (Z.min (y + h) (height d)))
    (fun py =>
       for_each (py_range x (Z.min (x + w) (width d)))
         (fun px => pixel px py color))
    d.

(** [RawOLEDDisplay.rect] *)
Definition rect (x y w h color : Z) (d : RawOLEDDisplay) : outcome RawOLEDDisplay :=
  and_then (fill_rect x y w 1 color d) (fun d =>
  and_then (fill_rect x (y + h - 1) w 1 color d) (fun d =>
  and_then (fill_rect x y 1 h color d) (fun d =>
  fill_rect (x + w - 1) y 1 h color d))).

(** The slices [data[i:i+chunk_size]] for [i] in
    [range(0, len(data), chunk_size)], as the transfer loops of
    [_send_data] and [show] cut them ([fuel] bounds the number of
    slices). *)
Fixpoint chunks (fuel : nat) (chunk_size : nat) (data : list Z) : list (list Z) :=
  match fuel with
  | O => []
  | S fuel' =>
      match data with
      | [] => []
      | _ :: _ =>
          firstn chunk_size data :: chunks fuel' chunk_size (skipn chunk_size data)
      end
  end.

(** The payloads [_send_command] hands to [i2c.writeto] when the bus
    accepts the write: the control byte [0x00] and the command.  A
    command outside [0, 255] makes [bytearray] raise, which the method
    swallows without writing. *)
Definition _send_command (cmd : Z) : list (list Z) :=
  if (0 <=? cmd) && (cmd <=? 255) then [[0; cmd]] else [].

(** The payloads [show] hands to [i2c.writeto] when the bus accepts
    every write: the six addressing commands, then the buffer in slices
    of 16 after the control byte [0x40]. *)
Definition show_writes (d : RawOLEDDisplay) : list (list Z) :=
  concat (map _send_command [33; 0; width d - 1; 34; 0; height d / 8 - 1])
  ++ map (fun chunk => 64 :: chunk) (chunks (length (buffer d)) 16 (buffer d)).

(** Whether the frame buffer has the pixel at column [x] and row [y]
    lit: bit [y mod 8] of byte [(y / 8) * width + x]. *)
Definition pixel_lit (d : RawOLEDDisplay) (x y : Z) : bool :=
  Z.testbit (nth (Z.to_nat ((y / 8) * width d + x)) (buffer d) 0) (y mod 8).

(** A buffer that matches the geometry, as the constructor builds it
    for a height that is a multiple of 8, and holds bytes. *)
Definition buffer_ok (d : RawOLEDDisplay) : Prop :=
  0 < width d /\ 0 <= height d /\ height d mod 8 = 0
  /\ Z.of_nat (length (buffer d)) = width d * height d / 8
  /\ Forall (fun b => 0 <= b < 256) (buffer d).

Definition on_screen (d : RawOLEDDisplay) (x y : Z) : Prop :=
  0 <= x < width d /\ 0 <= y < height d.

(** Whether [(px, py)] lies in the rectangle with corner [(x, y)],
    width [w] and height [h]. *)
Definition in_rect (x y w h px py : Z) : bool :=
  (x <=? px) && (px <? x + w) && ((y <=? py) && (py <? y + h)).

(** ** Accelerometer calibration and filter *)

(** [CalibratedAccel]: the offsets learnt by [calibrate], the smoothing
    factor and the filter memory. *)
Record CalibratedAccel := mkAccel {
  x_offset : float;
  y_offset : float;
  z_offset : float;
  alpha : float;
  filtered_x : float;
  filtered_y : float;
  filtered_z : float
}.

(** Two-argument [min] and [max]: the second argument replaces the first
    only when it compares strictly below (above) it. *)
Definition py_min (a b : float) : float := if flt b a then b else a.
Definition py_max (a b : float) : float := if fgt b a then b else a.

(** [clamp = lambda v: max(min(v, 20.0), -20.0)] *)
Definition clamp (v : float) : float := py_max (py_min v 20) (-20).

(** The sums [calibrate] accumulates over [n] reads of the raw sensor,
    [reads k] being what read [k] gives ([None] when it raised: the
    sample is skipped). *)
Fixpoint calibrate_sums (n : nat) (reads : nat -> option (float * float * float))
    (from : nat) (sums : float * float * float) : float * float * float :=
  match n with
  | O => sums
  | S n' =>
      let sums' :=
        match reads from with
        | Some (x, y, z) =>
            let '(x_sum, y_sum, z_sum) := sums in
            ((x_sum + x)%float, (y_sum + y)%float, (z_sum + z)%float)
        | None => sums
        end in
      calibrate_sums n' reads (S from) sums'
  end.

(** [CalibratedAccel.calibrate]: the three offsets. *)
Definition calibrate (samples : Z) (reads : nat -> option (float * float * float))
    : float * float * float :=
  let '(x_sum, y_sum, z_sum) :=
    calibrate_sums (Z.to_nat samples) reads 0 (0, 0, 0)%float in
  if samples >? 0 then
    ((x_sum / Z2F samples)%float,
     (y_sum / Z2F samples)%float,
     (z_sum / Z2F samples - 0x1.39eb851eb851fp+3 (* 9.81 *))%float)
  else (0, 0, 0)%float.

(** [CalibratedAccel.__init__] *)
Definition CalibratedAccel_init (reads : nat -> option (float * float * float))
    : CalibratedAccel :=
  let '(xo, yo, zo) := calibrate 100 reads in
  mkAccel xo yo zo 0x1.999999999999ap-3 (* 0.2 *) 0 0 0.

(** The [acceleration] property: the reading handed out and the object
    after the call; [raw] is what [self.accel.acceleration] gives
    ([None] when it raised). *)
Definition acceleration (raw : option (float * float * float)) (c : CalibratedAccel)
    : (float * float * float) * CalibratedAccel :=
  match raw with
  | None => ((0, 0, 0)%float, c)
  | Some (raw_x, raw_y, raw_z) =>
      let cal_x := (raw_x - x_offset c)%float in
      let cal_y := (raw_y - y_offset c)%float in
      let cal_z := (raw_z - z_offset c)%float in
      let fx := (alpha c * cal_x + (1 - alpha c) * filtered_x c)%float in
      let fy := (alpha c * cal_y + (1 - alpha c) * filtered_y c)%float in
      let fz := (alpha c * cal_z + (1 - alpha c) * filtered_z c)%float in
      ((clamp fx, clamp fy, clamp fz),
       mkAccel (x_offset c) (y_offset c) (z_offset c) (alpha c) fx fy fz)
  end.

(** ** Rotary encoder *)

(** [ManualEncoder]: [clk] and [dt] tell whether the pin objects are
    there. *)
Record ManualEncoder := mkEncoder {
  clk : bool;
  dt : bool;
  _position : Z;
  _last_clk : option bool;
  _last_dt : option bool
}.

(** The [position] getter; [clk_val] and [dt_val] are what the two
    [read_pin_stable] calls give ([None] when one lets an exception
    through, which leaves the getter before it assigns anything).  The
    result is the value returned, if any, and the object afterwards. *)
Definition position_get (clk_val dt_val : option bool) (e : ManualEncoder)
    : option Z * ManualEncoder :=
  if negb (clk e) || negb (dt e) then (Some (_position e), e)
  else
    match clk_val, dt_val with
    | Some clk_val, Some dt_val =>
        let p :=
          match _last_clk e, _last_dt e with
          | Some last_clk, Some _ =>
              if last_clk && negb clk_val then
                if dt_val then _position e + 1 else _position e - 1
              else _position e
          | _, _ => _position e
          end in
        (Some p, mkEncoder (clk e) (dt e) p (Some clk_val) (Some dt_val))
    | _, _ => (None, e)
    end.

(** What the game sees when it evaluates [encoder.position] on a
    [ManualEncoder]. *)
Definition encoder_read_of (r : option Z) : EncoderRead :=
  match r with
  | Some p => enc_position p
  | None => enc_raised
  end.

(** ** Indicator LED *)

(** The attributes of [Game] that only [_update_leds] uses. *)
Record LedAttrs := mkLedAttrs {
  led_brightness : float;
  led_brightness_dir : Z;
  _last_led_brightness_update : option float
}.

(** What [Game.__init__] gives them. *)
Definition LedAttrs_init : LedAttrs :=
  mkLedAttrs 0x1.999999999999ap-4 (* 0.1 *) 1 None.

(** What the pixel is set to: [pixels.brightness] and [pixels[0]]. *)
Definition PixelShown : Type := float * (Z * Z * Z).

(** [Game._update_leds].  [pixels_ok] tells whether the two pixel
    assignments of the branch taken go through; when one raises, the
    rest of the branch is skipped by the method's [except: pass].  The
    result is the session, the LED attributes and what the pixel shows
    when both assignments went through. *)
Definition _update_leds (current_time : float) (pixels_ok : bool)
    (g : Game) (l : LedAttrs) : Game * LedAttrs * option PixelShown :=
  match led_state g with
  | idle | game_over =>
      let l := match _last_led_brightness_update l with
               | None => mkLedAttrs (led_brightness l) (led_brightness_dir l)
                                    (Some current_time)
               | Some _ => l
               end in
      let b := (led_brightness l + 0x1.47ae147ae147bp-8 (* 0.005 *)
                                   * Z2F (led_brightness_dir l))%float in
      let l :=
        if fge b 0x1p-1 (* 0.5 *)
        then mkLedAttrs 0x1p-1 (-1) (_last_led_brightness_update l)
        else if fle b 0x1.999999999999ap-4 (* 0.1 *)
        then mkLedAttrs 0x1.999999999999ap-4 1 (_last_led_brightness_update l)
        else mkLedAttrs b (led_brightness_dir l) (_last_led_brightness_update l) in
      if pixels_ok
      then (g,
            mkLedAttrs (led_brightness l) (led_brightness_dir l) (Some current_time),
            Some (led_brightness l, (0, 0, 255)))
      else (g, l, None)
  | playing =>
      (g, l, if pixels_ok then Some (0x1.3333333333333p-2%float (* 0.3 *), (0, 255, 0))
             else None)
  | success =>
      if flt (current_time - last_led_update g)%float 0x1.999999999999ap-3 (* 0.2 *)
      then (g, l, if pixels_ok then Some (0x1p-1%float, (0, 0, 255)) else None)
      else if pixels_ok then
        ((if fgt (current_time - last_led_update g)%float 0x1.3333333333333p-2
          then set_led_state playing g else g),
         l, Some (0x1.3333333333333p-2%float, (0, 255, 0)))
      else (g, l, None)
  | error =>
      if flt (current_time - last_led_update g)%float 0x1.999999999999ap-3 (* 0.2 *)
      then (g, l, if pixels_ok then Some (0x1p-1%float, (255, 0, 0)) else None)
      else if pixels_ok then
        ((if fgt (current_time - last_led_update g)%float 0x1.3333333333333p-2
          then set_led_state playing g else g),
         l, Some (0x1.3333333333333p-2%float, (0, 255, 0)))
      else (g, l, None)
  | warning =>
      match int (current_time * 3)%float with
      | None => (g, l, None)
      | Some n =>
          let blink := n mod 2 in
          (g, l,
           if pixels_ok
           then Some (0x1.999999999999ap-2%float (* 0.4 *),
                      if negb (blink =? 0) then (255, 165, 0) else (255, 255, 0))
           else None)
      end
  end.

(** ** Session invariant *)

(** The flag combinations an apple of the session can show: the entry
    time is there exactly when the zone flag is set, [sliced] and
    [expired] are not both set, and a sliced apple has entered the
    zone. *)
Definition apple_ok (a : Apple) : bool :=
  Bool.eqb (entered_valid_zone a)
           (match valid_zone_entry_time a with Some _ => true | None => false end)
  && negb (sliced a && expired a)
  && implb (sliced a) (entered_valid_zone a).

(** How many apples of a list are sliced. *)
Definition count_sliced (l : list Apple) : Z :=
  Z.of_nat (length (filter sliced l)).

(** The score matches the apples, every apple is well-formed, and an
    active level holds no more apples than its target. *)
Definition session_ok (g : Game) : Prop :=
  Forall (fun a => apple_ok a = true) (g_apples g)
  /\ sliced_count g = count_sliced (g_apples g)
  /\ (forall lvl, current_level g = Some lvl ->
        Z.of_nat (length (g_apples g)) <= apples lvl).

(** What [Game.draw] assigns to the session when it gets as far as
    drawing ([draws]; otherwise it returns before touching anything):
    without an active level the state is forced to [MENU]; a state
    that is none of [MENU], [PLAYING], [GAME_OVER] is reset to [MENU]
    with the level cleared.  The drawing calls between these
    assignments write to the display only. *)
Definition draw_session (draws : bool) (g : Game) : Game :=
  if negb draws then g
  else
    let g := match current_level g with
             | None => set_state MENU g
             | Some _ => g
             end in
    match state g with
    | MENU => g
    | PLAYING =>
        match current_level g with
        | Some _ => g
        | None => set_state MENU g
        end
    | GAME_OVER => g
    | PAUSED => set_current_level None (set_state MENU g)
    end.

(** One call of a session method, on any state and with any values read
    from the hardware.  [_monitor_power_switch] assigns its own switch
    memory and the display's flag only, and [_update_paused] is empty:
    on the attributes of [Game] they are the identity. *)
Inductive session_step : Game -> Game -> Prop :=
| step_start_level (level_index : Z) (now : float) (g : Game) :
    session_step g (state_of (start_level level_index now g))
| step_update_menu (now : float) (enc : EncoderRead) (button : bool)
    (start_now : float) (g : Game) :
    session_step g (state_of (_update_menu now enc button start_now g))
| step_update_playing (now : float) (rnd : nat -> SpawnDirection) (g : Game) :
    session_step g (state_of (_update_playing now rnd g))
| step_update_game_over (now : float) (button : bool) (g : Game) :
    session_step g (state_of (_update_game_over now button g))
| step_update_inputs (now : float) (i : Inputs) (g : Game) :
    session_step g (_update_inputs now i g)
| step_check_cut_action (action : Action) (now : float) (g : Game) :
    session_step g (_check_cut_action action now g)
| step_update_leds (current_time : float) (pixels_ok : bool) (l : LedAttrs)
    (g : Game) :
    session_step g (fst (fst (_update_leds current_time pixels_ok g l)))
| step_draw (draws : bool) (g : Game) :
    session_step g (draw_session draws g)
| step_monitor_power_switch (g : Game) : session_step g g
| step_update_paused (g : Game) : session_step g g.

(** The sessions a run of such calls can reach from a new [Game]. *)
Inductive reachable : Game -> Prop :=
| reach_init (now : float) : reachable (Game_init now)
| reach_step (g g' : Game) : reachable g -> session_step g g' -> reachable g'.

(** ** Checks of the embedding on concrete values *)

Example top_direction :
  direction (Apple_init Top 20 0) = (0, 1)%float.
Proof. vm_compute. reflexivity. Qed.

Example bottom_direction :
  direction (Apple_init Bottom 90 0) = (0, -1)%float.
Proof. vm_compute. reflexivity. Qed.

(** Spec scenario: spawned at [top], speed 20, after 1.0 s the apple is
    at (63, 20). *)
Example top_after_one_second :
  position_at (Apple_init Top 20 0) 1 = (63, 20)%float.
Proof. vm_compute. reflexivity. Qed.

Example int_truncates :
  (int 2.75, int (-2.75), int 0x1.fffffffffffffp-1) = (Some 2, Some (-2), Some 0).
Proof. vm_compute. reflexivity. Qed.

Example level0_interval :
  (Z2F 60 / Z2F 10)%float = 6%float.
Proof. vm_compute. reflexivity. Qed.

(** ** Facts on binary64 comparisons and subtraction *)

Section FloatFacts.


(** A value below a positive bound is not above a bound with a larger
    exponent. *)
Lemma SF_le_then_not_gt (v : spec_float) (m1 m2 : positive) (e1 e2 : Z) :
  e1 < e2 ->
  SFleb v (S754_finite false m1 e1) = true ->
  SFltb (S754_finite false m2 e2) v = false.
Proof.
  intros He. unfold SFleb, SFltb.
  destruct v as [s|s| |s m e]; try (destruct s); cbn [SFcompare];
    try reflexivity; try discriminate.
  destruct (Z.compare_spec e e1), (Z.compare_spec e2 e);
    intros; try reflexivity; try discriminate; exfalso; lia.
Qed.

(** A value above a positive bound is not below a negative one. *)
Lemma SF_ge_pos_then_not_lt_neg (v : spec_float) (m1 m2 : positive) (e1 e2 : Z) :
  SFleb (S754_finite false m1 e1) v = true ->
  SFltb v (S754_finite true m2 e2) = false.
Proof.
  unfold SFleb, SFltb.
  destruct v as [s|s| |s m e]; try (destruct s); cbn [SFcompare];
    try reflexivity; try discriminate.
Qed.

Lemma SF_45 : Prim2SF (Z2F 45) = S754_finite false 6333186975989760 (-47).
Proof. vm_compute. reflexivity. Qed.
Lemma SF_81 : Prim2SF (Z2F 81) = S754_finite false 5699868278390784 (-46).
Proof. vm_compute. reflexivity. Qed.
Lemma SF_m8 : Prim2SF (Z2F (-8)) = S754_finite true 4503599627370496 (-49).
Proof. vm_compute. reflexivity. Qed.
Lemma SF_136 : Prim2SF (Z2F 136) = S754_finite false 4785074604081152 (-45).
Proof. vm_compute. reflexivity. Qed.
Lemma SF_27 : Prim2SF (Z2F 27) = S754_finite false 7599824371187712 (-48).
Proof. vm_compute. reflexivity. Qed.
Lemma SF_72 : Prim2SF (Z2F 72) = S754_finite false 5066549580791808 (-46).
Proof. vm_compute. reflexivity. Qed.

(** The forbidden rectangle lies within the padded screen bounds: a
    position inside it never trips the off-screen test. *)
Lemma region_on_screen (px py : float) :
  in_invalid_region_at px py = true -> off_screen_at px py = false.
Proof.
  unfold in_invalid_region_at, off_screen_at, fle, flt, fgt.
  change (x_min INVALID_REGION) with 45. change (x_max INVALID_REGION) with 81.
  change (y_min INVALID_REGION) with 27. change (y_max INVALID_REGION) with 45.
  change (- fst APPLE_SIZE) with (-8). change (- snd APPLE_SIZE) with (-8).
  change (OLED_WIDTH + fst APPLE_SIZE) with 136.
  change (OLED_HEIGHT + snd APPLE_SIZE) with 72.
  rewrite !leb_spec, !ltb_spec, SF_45, SF_81, SF_m8, SF_136, SF_27, SF_72.
  intros H.
  apply andb_prop in H as [Hx Hy].
  apply andb_prop in Hx as [Hx1 Hx2]. apply andb_prop in Hy as [Hy1 Hy2].
  rewrite (SF_ge_pos_then_not_lt_neg _ _ _ _ _ Hx1).
  rewrite (SF_le_then_not_gt (Prim2SF px) _ 4785074604081152 (-46) (-45) eq_refl Hx2).
  rewrite (SF_ge_pos_then_not_lt_neg _ _ _ _ _ Hy1).
  rewrite (SF_le_then_not_gt (Prim2SF py) _ 5066549580791808 (-47) (-46) eq_refl Hy2).
  reflexivity.
Qed.






End FloatFacts.


(** ** Entity lifecycle *)

Section AppleLifecycle.

Implicit Types (a : Apple) (t : float).

Lemma Apple_update_frozen a t :
  sliced a || expired a = true -> Apple_update a t = Done a.
Proof. intros H. unfold Apple_update. rewrite H. reflexivity. Qed.

(** The apple a live call to [update] leaves when the zone is not
    entered and the new position is inside the forbidden rectangle. *)
Lemma Apple_update_inside a t :
  sliced a = false -> expired a = false -> entered_valid_zone a = false ->
  inside_at a t = true ->
  Apple_update a t = Done (set_position a (position_at a t)).
Proof.
  intros Hs He Hz Hin. unfold Apple_update. rewrite Hs, He. cbn [orb].
  change (_is_in_invalid_region (set_position a (position_at a t)))
    with (inside_at a t).
  change (entered_valid_zone (set_position a (position_at a t)))
    with (entered_valid_zone a).
  rewrite Hz, Hin. cbn [negb].
  change (entered_valid_zone (set_position a (position_at a t)))
    with (entered_valid_zone a).
  rewrite Hz. cbn [and_then set_position x y].
  rewrite (region_on_screen _ _ Hin). reflexivity.
Qed.

(** ... and when the new position is outside it: the flag is raised and
    the entry time is this call's [t], whatever the expiry tests add. *)
Lemma Apple_update_outside a t :
  sliced a = false -> expired a = false -> entered_valid_zone a = false ->
  inside_at a t = false ->
  exists a', Apple_update a t = Done a'
    /\ entered_valid_zone a' = true /\ valid_zone_entry_time a' = Some t
    /\ sliced a' = false
    /\ (start_pos a', direction a', a_speed a', start_time a')
       = (start_pos a, direction a, a_speed a, start_time a).
Proof.
  intros Hs He Hz Hin. unfold Apple_update. rewrite Hs, He. cbn [orb].
  change (_is_in_invalid_region (set_position a (position_at a t)))
    with (inside_at a t).
  change (entered_valid_zone (set_position a (position_at a t)))
    with (entered_valid_zone a).
  rewrite Hz, Hin.
  cbn [negb set_entered entered_valid_zone valid_zone_entry_time].
  destruct (fgt (t - t) CUT_TIME_LIMIT); cbn [and_then];
    match goal with |- context [off_screen_at ?u ?v] =>
      destruct (off_screen_at u v) end;
    eexists; (split; [reflexivity|]); cbn; rewrite ?Hs; auto.
Qed.

(** Once entered, the flag and the entry time survive every call. *)
Lemma Apple_update_entered a t t0 :
  entered_valid_zone a = true -> valid_zone_entry_time a = Some t0 ->
  exists a', Apple_update a t = Done a'
    /\ entered_valid_zone a' = true /\ valid_zone_entry_time a' = Some t0.
Proof.
  intros Hz Ht. unfold Apple_update.
  destruct (sliced a || expired a).
  - eauto.
  - change (entered_valid_zone (set_position a (position_at a t)))
      with (entered_valid_zone a).
    rewrite Hz. cbn [negb].
    change (entered_valid_zone (set_position a (position_at a t)))
      with (entered_valid_zone a).
    change (valid_zone_entry_time (set_position a (position_at a t)))
      with (valid_zone_entry_time a).
    rewrite Hz, Ht.
    destruct (fgt (t - t0) CUT_TIME_LIMIT); cbn [and_then];
      match goal with |- context [off_screen_at ?u ?v] =>
        destruct (off_screen_at u v) end;
      eexists; (split; [reflexivity|]); cbn; auto.
Qed.

Lemma updates_entered a ts t0 :
  entered_valid_zone a = true -> valid_zone_entry_time a = Some t0 ->
  exists a', updates a ts = Done a'
    /\ entered_valid_zone a' = true /\ valid_zone_entry_time a' = Some t0.
Proof.
  revert a. induction ts as [|t ts IH]; intros a Hz Ht; cbn [updates].
  - eauto.
  - destruct (Apple_update_entered a t t0 Hz Ht) as (a1 & -> & Hz1 & Ht1).
    cbn [and_then]. apply IH; assumption.
Qed.

Lemma inside_at_set_position a p t :
  inside_at (set_position a p) t = inside_at a t.
Proof. reflexivity. Qed.

(** While every call finds the apple inside the rectangle, it stays
    live and not entered, and its entry time is untouched. *)
Lemma updates_inside a ts :
  sliced a = false -> expired a = false -> entered_valid_zone a = false ->
  Forall (fun t => inside_at a t = true) ts ->
  exists a', updates a ts = Done a'
    /\ sliced a' = false /\ expired a' = false
    /\ entered_valid_zone a' = false
    /\ valid_zone_entry_time a' = valid_zone_entry_time a
    /\ (forall t, inside_at a' t = inside_at a t).
Proof.
  intros Hs He Hz Hall. revert a Hs He Hz Hall.
  induction ts as [|t ts IH]; intros a Hs He Hz Hall; cbn [updates].
  - exists a. auto 10.
  - inversion Hall as [|? ? Ht Hts]; subst.
    rewrite (Apple_update_inside a t Hs He Hz Ht). cbn [and_then].
    destruct (IH (set_position a (position_at a t))) as (a' & E & ? & ? & ? & ? & Hp);
      try assumption.
    exists a'. repeat split; try assumption.
Qed.

End AppleLifecycle.

Lemma updates_app (a : Apple) (l1 l2 : list float) :
  updates a (l1 ++ l2) = and_then (updates a l1) (fun a' => updates a' l2).
Proof.
  revert a. induction l1 as [|t l1 IH]; intros a; cbn [app updates and_then].
  - reflexivity.
  - destruct (Apple_update a t) as [a1|a1]; cbn [and_then]; auto.
Qed.

(** A freshly constructed apple is live, not entered, without entry
    time. *)
Lemma Apple_init_flags (d : SpawnDirection) (s : Z) (t0 : float) :
  let a := Apple_init d s t0 in
  sliced a = false /\ expired a = false /\ entered_valid_zone a = false
  /\ valid_zone_entry_time a = None.
Proof. cbn. auto. Qed.

(** An apple updated at an instant with zero elapsed time is at its
    spawn position, outside the rectangle. *)
Lemma inside_at_spawn_instant (d : SpawnDirection) (sc : SpeedClass) (t0 now : float) :
  (now - t0)%float = 0%float ->
  inside_at (Apple_init d (SPEEDS sc) t0) now = false.
Proof.
  intros H. unfold inside_at, position_at.
  cbn [Apple_init start_time a_speed start_pos direction].
  rewrite H. destruct d, sc; vm_compute; reflexivity.
Qed.

(** C4. Once [sliced] or [expired] holds, a call to [update] at any time
    returns the apple as it was (position, zone flag, entry time and both
    flags), and so does any run of further calls. *)
Theorem C4_update_frozen (a : Apple) :
  sliced a || expired a = true ->
  (forall now, Apple_update a now = Done a)
  /\ (forall ts, updates a ts = Done a).
Proof.
  intros H. split.
  - intros now. apply Apple_update_frozen, H.
  - induction ts as [|t ts IH]; cbn [updates].
    + reflexivity.
    + rewrite (Apple_update_frozen a t H). exact IH.
Qed.

Lemma C4_update_frozen_witness :
  let a := set_sliced (Apple_init Top 20 0) in
  (forall now, Apple_update a now = Done a)
  /\ (forall ts, updates a ts = Done a).
Proof. apply C4_update_frozen. reflexivity. Defined.

(** C3. For an apple that has entered the valid zone and is not sliced,
    a call [update(now)] with [now - valid_zone_entry_time > CUT_TIME_LIMIT]
    returns with [expired] set. *)
Theorem C3_expiry_after_cut_limit (a : Apple) (now t0 : float) :
  entered_valid_zone a = true ->
  valid_zone_entry_time a = Some t0 ->
  sliced a = false ->
  fgt (now - t0)%float CUT_TIME_LIMIT = true ->
  exists a', Apple_update a now = Done a' /\ expired a' = true.
Proof.
  intros Hz Ht Hs Hgt. unfold Apple_update. rewrite Hs. cbn [orb].
  destruct (expired a) eqn:He.
  - exists a. auto.
  - change (entered_valid_zone (set_position a (position_at a now)))
      with (entered_valid_zone a).
    rewrite Hz. cbn [negb].
    change (entered_valid_zone (set_position a (position_at a now)))
      with (entered_valid_zone a).
    change (valid_zone_entry_time (set_position a (position_at a now)))
      with (valid_zone_entry_time a).
    rewrite Hz, Ht, Hgt. cbn [and_then].
    match goal with |- context [off_screen_at ?u ?v] =>
      destruct (off_screen_at u v) end;
      eexists; (split; [reflexivity|]); reflexivity.
Qed.

Lemma C3_expiry_after_cut_limit_witness :
  exists a',
    Apple_update (set_entered (Apple_init Top 20 0) 0) 0x1.2p+2 = Done a'
    /\ expired a' = true.
Proof.
  apply (C3_expiry_after_cut_limit _ 0x1.2p+2%float 0%float);
    vm_compute; reflexivity.
Defined.

(** C2. For an apple that is live and has not entered the valid zone:
    as long as every [update] call computes a position inside the
    forbidden rectangle the flag stays false and the entry time is not
    written; the first call whose position is outside sets the flag and
    writes that call's [now]; and from an entered apple on, no run of
    calls clears the flag or rewrites the entry time. *)
Theorem C2_zone_entry_once (a : Apple) :
  sliced a = false -> expired a = false -> entered_valid_zone a = false ->
  (forall pre,
      Forall (fun t => inside_at a t = true) pre ->
      exists a', updates a pre = Done a'
        /\ entered_valid_zone a' = false
        /\ valid_zone_entry_time a' = valid_zone_entry_time a)
  /\ (forall pre now post,
      Forall (fun t => inside_at a t = true) pre ->
      inside_at a now = false ->
      exists a', updates a (pre ++ now :: post) = Done a'
        /\ entered_valid_zone a' = true
        /\ valid_zone_entry_time a' = Some now)
  /\ (forall b t0 ts,
      entered_valid_zone b = true -> valid_zone_entry_time b = Some t0 ->
      exists b', updates b ts = Done b'
        /\ entered_valid_zone b' = true
        /\ valid_zone_entry_time b' = Some t0).
Proof.
  intros Hs He Hz. split; [|split].
  - intros pre Hpre.
    destruct (updates_inside a pre Hs He Hz Hpre) as (a' & E & _ & _ & Hz' & Ht' & _).
    exists a'. auto.
  - intros pre now post Hpre Hout.
    destruct (updates_inside a pre Hs He Hz Hpre)
      as (a1 & E & Hs1 & He1 & Hz1 & _ & Hp).
    rewrite updates_app, E. cbn [and_then updates].
    rewrite <- Hp in Hout.
    destruct (Apple_update_outside a1 now Hs1 He1 Hz1 Hout)
      as (a2 & -> & Hz2 & Ht2 & _).
    cbn [and_then]. apply updates_entered; assumption.
  - intros b t0 ts. apply updates_entered.
Qed.

Lemma C2_zone_entry_once_witness :
  exists a',
    updates (Apple_init Bottom 90 0) ([0x1p-2; 0x1.8p-2] ++ 0x1p-1 :: [1; 5])%float
    = Done a'
    /\ entered_valid_zone a' = true
    /\ valid_zone_entry_time a' = Some 0x1p-1%float.
Proof.
  destruct (C2_zone_entry_once (Apple_init Bottom 90 0) eq_refl eq_refl eq_refl)
    as (_ & H & _).
  apply H.
  - repeat (constructor; [vm_compute; reflexivity|]). constructor.
  - vm_compute. reflexivity.
Defined.

(** [qualifies] spelled out. *)
Lemma qualifies_spec (adj : float) (action : Action) (a : Apple) :
  qualifies adj action a = true
  <-> sliced a = false /\ expired a = false
      /\ entered_valid_zone a = true
      /\ _is_in_invalid_region a = false
      /\ expected_action a = Some action
      /\ exists t, valid_zone_entry_time a = Some t
                   /\ fle 0 (adj - t)%float = true
                   /\ fle (adj - t)%float CUT_TIME_LIMIT = true.
Proof.
  unfold qualifies, is_in_valid_zone.
  destruct (sliced a), (expired a), (entered_valid_zone a),
    (_is_in_invalid_region a); cbn [orb negb];
    try (split; [discriminate | intros (? & ? & ? & ? & _); discriminate]).
  destruct (expected_action a) as [e|];
    [|split; [discriminate | intros (_ & _ & _ & _ & ? & _); discriminate]].
  destruct (Action_eqb e action) eqn:He.
  - assert (e = action) as -> by (destruct e, action; try discriminate; reflexivity).
    destruct (valid_zone_entry_time a) as [t|].
    + split.
      * intros H. apply andb_prop in H as [H1 H2].
        repeat (split; [reflexivity|]). exists t. auto.
      * intros (_ & _ & _ & _ & _ & t' & [= <-] & H1 & H2).
        rewrite H1, H2. reflexivity.
    + split; [discriminate|].
      intros (_ & _ & _ & _ & _ & t' & Ht & _). discriminate.
  - split; [discriminate|].
    intros (_ & _ & _ & _ & [= ->] & _).
    destruct action; discriminate.
Qed.

(** C10 (as the code has it). The four spawn positions lie outside the
    forbidden rectangle, and the first [update] of a spawned apple sets
    [entered_valid_zone] and records its [now] exactly when the position
    it computes is outside the rectangle, as it is when no time has
    elapsed since the spawn instant; a first [update] that already finds
    the apple inside the rectangle leaves it live with the flag unset
    and the entry time empty, and so does every further call that finds
    it inside; the first later call that finds it outside sets the flag
    and records its own [now], which no call after it changes: the
    cut-time window is measured from that call. *)
Theorem C10_first_update (d : SpawnDirection) (sc : SpeedClass) (t0 now : float) :
  let a := Apple_init d (SPEEDS sc) t0 in
  in_invalid_region_at (Z2F (fst (SPAWN_POSITIONS d)))
                       (Z2F (snd (SPAWN_POSITIONS d))) = false
  /\ (inside_at a now = false ->
      exists a', Apple_update a now = Done a'
        /\ entered_valid_zone a' = true /\ valid_zone_entry_time a' = Some now)
  /\ (inside_at a now = true ->
      exists a', Apple_update a now = Done a'
        /\ entered_valid_zone a' = false /\ valid_zone_entry_time a' = None
        /\ sliced a' = false /\ expired a' = false)
  /\ ((now - t0)%float = 0%float -> inside_at a now = false)
  /\ (inside_at a now = true ->
      forall pre,
        Forall (fun t => inside_at a t = true) pre ->
        (exists a', updates a (now :: pre) = Done a'
           /\ entered_valid_zone a' = false /\ valid_zone_entry_time a' = None
           /\ sliced a' = false /\ expired a' = false)
        /\ (forall later post,
              inside_at a later = false ->
              exists a', updates a (now :: pre ++ later :: post) = Done a'
                /\ entered_valid_zone a' = true
                /\ valid_zone_entry_time a' = Some later
                /\ forall action adj,
                     qualifies adj action a' = true ->
                     fle 0 (adj - later)%float = true
                     /\ fle (adj - later)%float CUT_TIME_LIMIT = true)).
Proof.
  intros a. split; [|split; [|split; [|split]]].
  - destruct d; vm_compute; reflexivity.
  - intros Hout.
    destruct (Apple_update_outside a now eq_refl eq_refl eq_refl Hout)
      as (a' & E & Hz & Ht & _).
    exists a'. auto.
  - intros Hin.
    rewrite (Apple_update_inside a now eq_refl eq_refl eq_refl Hin).
    eexists. split; [reflexivity|]. repeat split; reflexivity.
  - apply inside_at_spawn_instant.
  - intros Hin pre Hpre.
    assert (Hall : Forall (fun t => inside_at a t = true) (now :: pre))
      by (constructor; assumption).
    destruct (updates_inside a (now :: pre) eq_refl eq_refl eq_refl Hall)
      as (a1 & E1 & Hs1 & He1 & Hz1 & Ht1 & Hp1).
    split.
    + exists a1. rewrite Ht1. auto 10.
    + intros later post Hout.
      change (now :: pre ++ later :: post) with ((now :: pre) ++ later :: post).
      rewrite updates_app, E1. cbn [and_then updates].
      rewrite <- Hp1 in Hout.
      destruct (Apple_update_outside a1 later Hs1 He1 Hz1 Hout)
        as (a2 & -> & Hz2 & Ht2 & _).
      cbn [and_then].
      destruct (updates_entered a2 post later Hz2 Ht2) as (a3 & E3 & Hz3 & Ht3).
      exists a3. split; [exact E3|]. split; [exact Hz3|]. split; [exact Ht3|].
      intros action adj Hq.
      apply qualifies_spec in Hq as (_ & _ & _ & _ & _ & t & Ht & H1 & H2).
      rewrite Ht3 in Ht. injection Ht as <-. auto.
Qed.

Lemma C10_first_update_witness :
  (inside_at (Apple_init Left (SPEEDS slow) 0x1.8p+0) 0x1.8p+0 = false
   /\ exists a',
       Apple_update (Apple_init Left (SPEEDS slow) 0x1.8p+0) 0x1.8p+0 = Done a'
       /\ entered_valid_zone a' = true
       /\ valid_zone_entry_time a' = Some 0x1.8p+0%float)
  /\ exists a',
      updates (Apple_init Bottom (SPEEDS ultra) 0)
              (0x1p-2 :: [0x1.8p-2] ++ 0x1p-1 :: [1; 5])%float = Done a'
      /\ entered_valid_zone a' = true
      /\ valid_zone_entry_time a' = Some 0x1p-1%float.
Proof.
  split.
  - destruct (C10_first_update Left slow 0x1.8p+0 0x1.8p+0) as (_ & Hout & _ & H0 & _).
    split.
    + apply H0. vm_compute. reflexivity.
    + apply Hout, H0. vm_compute. reflexivity.
  - destruct (C10_first_update Bottom ultra 0 0x1p-2) as (_ & _ & _ & _ & Hlater).
    destruct (Hlater ltac:(vm_compute; reflexivity) [0x1.8p-2%float]) as (_ & H).
    + constructor; [vm_compute; reflexivity | constructor].
    + destruct (H 0x1p-1%float [1; 5]%float) as (a' & E & Hz & Ht & _).
      * vm_compute. reflexivity.
      * exists a'. auto.
Defined.

(** C10 as stated fails: an apple spawned at the bottom edge of the
    fastest level and first updated 0.25 s after its spawn instant is at
    (63, 40.5), inside the rectangle, and the call leaves it not
    entered.  This is the first tick of level "H3" when it comes 0.25 s
    after [start_level] and the edge drawn is the bottom one. *)
Lemma C10_counterexample :
  let a' := set_position (Apple_init Bottom (SPEEDS ultra) 0) (63, 0x1.44p+5)%float in
  Apple_update (Apple_init Bottom (SPEEDS ultra) 0) 0x1p-2 = Done a'
  /\ entered_valid_zone a' = false
  /\ valid_zone_entry_time a' = None
  /\ g_apples
       (state_of (_update_playing 0x1p-2 (fun _ => Bottom)
                    (state_of (start_level 9 0 (Game_init 0)))))
     = [a'].
Proof. vm_compute. auto. Qed.

(** ** Gesture matching *)

Section Matching.

Variables (adj : float) (action : Action).

Lemma cut_loop_miss (l : list Apple) :
  Forall (fun a => qualifies adj action a = false) l ->
  cut_loop adj action l = (l, false).
Proof.
  induction 1 as [|a l Ha _ IH]; cbn [cut_loop].
  - reflexivity.
  - rewrite Ha, IH. reflexivity.
Qed.

Lemma cut_loop_first (l1 l2 : list Apple) (a : Apple) :
  Forall (fun b => qualifies adj action b = false) l1 ->
  qualifies adj action a = true ->
  cut_loop adj action (l1 ++ a :: l2) = (l1 ++ set_sliced a :: l2, true).
Proof.
  induction 1 as [|b l1 Hb _ IH]; intros Ha; cbn [cut_loop app].
  - rewrite Ha. reflexivity.
  - rewrite Hb, (IH Ha). reflexivity.
Qed.

(** Every list either holds no qualifying apple or splits at its first
    one. *)
Lemma first_qualifying (l : list Apple) :
  Forall (fun a => qualifies adj action a = false) l
  \/ exists l1 a l2,
      l = l1 ++ a :: l2
      /\ Forall (fun b => qualifies adj action b = false) l1
      /\ qualifies adj action a = true.
Proof.
  induction l as [|b l IH].
  - left. constructor.
  - destruct (qualifies adj action b) eqn:Hb.
    + right. exists [], b, l. repeat split; [constructor | assumption].
    + destruct IH as [IH | (l1 & a & l2 & -> & H1 & Ha)].
      * left. constructor; assumption.
      * right. exists (b :: l1), a, l2.
        repeat split; [constructor; assumption | assumption].
Qed.

End Matching.

(** What [_check_cut_action] leaves of the fields it does not assign. *)
Lemma _check_cut_action_fields (action : Action) (now : float) (g : Game) :
  let g' := _check_cut_action action now g in
  let r := cut_loop (now - total_pause_time g)%float action (g_apples g) in
  g_apples g' = fst r
  /\ sliced_count g' = (if snd r then sliced_count g + 1 else sliced_count g)
  /\ state g' = state g
  /\ total_pause_time g' = total_pause_time g
  /\ cut_calls g' = action :: cut_calls g.
Proof.
  unfold _check_cut_action.
  change (total_pause_time (set_cut_calls (action :: cut_calls g) g))
    with (total_pause_time g).
  change (g_apples (set_cut_calls (action :: cut_calls g) g)) with (g_apples g).
  destruct (cut_loop (now - total_pause_time g) action (g_apples g)) as [l [|]];
    cbn [negb andb fst snd].
  - cbn. auto.
  - match goal with |- context [GameState_eqb ?s PLAYING] =>
      destruct (GameState_eqb s PLAYING) end; cbn; auto.
Qed.

(** C1. An apple qualifies for a submitted action when it is neither
    sliced nor expired, has entered the zone, is currently outside the
    forbidden rectangle, expects that action, and its entry time [t]
    satisfies [0 <= adjusted - t <= CUT_TIME_LIMIT] on the pause-adjusted
    clock.  One call of [_check_cut_action]: either no apple qualifies
    and the list and the slice count are unchanged, or the list splits at
    the first qualifying apple in list order, that apple alone is changed
    -- its [sliced] flag goes from false to true and every other
    attribute of it stays as it was -- and the count grows by one; an
    apple behind an earlier qualifying one is left as it was. *)
Theorem C1_first_match_in_list_order (action : Action) (now : float) (g : Game) :
  let adj := (now - total_pause_time g)%float in
  let g' := _check_cut_action action now g in
  (forall a,
      qualifies adj action a = true
      <-> sliced a = false /\ expired a = false
          /\ entered_valid_zone a = true
          /\ _is_in_invalid_region a = false
          /\ expected_action a = Some action
          /\ exists t, valid_zone_entry_time a = Some t
                       /\ fle 0 (adj - t)%float = true
                       /\ fle (adj - t)%float CUT_TIME_LIMIT = true)
  /\
  ((Forall (fun a => qualifies adj action a = false) (g_apples g)
   /\ g_apples g' = g_apples g
   /\ sliced_count g' = sliced_count g)
  \/ (exists l1 a l2,
        g_apples g = l1 ++ a :: l2
        /\ Forall (fun b => qualifies adj action b = false) l1
        /\ qualifies adj action a = true
        /\ g_apples g' = l1 ++ set_sliced a :: l2
        /\ sliced_count g' = sliced_count g + 1
        /\ (forall j b, (length l1 < j)%nat ->
              nth_error (g_apples g) j = Some b ->
              nth_error (g_apples g') j = Some b)
        /\ (exists a',
              nth_error (g_apples g') (length l1) = Some a'
              /\ sliced a = false /\ sliced a' = true
              /\ expired a' = expired a
              /\ entered_valid_zone a' = entered_valid_zone a
              /\ valid_zone_entry_time a' = valid_zone_entry_time a
              /\ (x a', y a') = (x a, y a)
              /\ expected_action a' = expected_action a
              /\ (spawn_direction a', a_speed a', start_time a',
                  start_pos a', target_pos a', direction a')
                 = (spawn_direction a, a_speed a, start_time a,
                    start_pos a, target_pos a, direction a))
        /\ length (g_apples g') = length (g_apples g))).
Proof.
  intros adj g'. split; [intros a; apply qualifies_spec|].
  destruct (_check_cut_action_fields action now g) as (Ha & Hc & _).
  fold g' in Ha, Hc. fold adj in Ha, Hc.
  destruct (first_qualifying adj action (g_apples g))
    as [Hmiss | (l1 & a & l2 & E & Hmiss & Hq)].
  - left. rewrite (cut_loop_miss _ _ _ Hmiss) in Ha, Hc. auto.
  - right. exists l1, a, l2.
    rewrite E, (cut_loop_first _ _ _ _ _ Hmiss Hq) in Ha, Hc.
    cbn [fst snd] in Ha, Hc.
    split; [exact E|]. split; [exact Hmiss|]. split; [exact Hq|].
    split; [exact Ha|]. split; [exact Hc|]. split; [|split].
    + intros j b Hj Hb. rewrite Ha. rewrite E in Hb.
      rewrite nth_error_app2 in Hb |- * by lia.
      destruct (j - length l1)%nat as [|k] eqn:Hk; [lia|].
      exact Hb.
    + exists (set_sliced a). rewrite Ha.
      rewrite nth_error_app2, Nat.sub_diag by lia.
      split; [reflexivity|].
      split; [apply (qualifies_spec adj action a), Hq|].
      cbn. auto 10.
    + rewrite Ha, E, !length_app. reflexivity.
Qed.

(** C8. While playing, a call of [_check_cut_action] in which no apple
    qualifies returns (it has no raising step) with the feedback state
    [error], the feedback timestamp set to the call's clock read and the
    error sound requested, and with the apples and the slice count as
    they were; the firing step that submitted the action goes on to
    clear its pending action. *)
Theorem C8_miss_signal (action : Action) (now : float) (g : Game) :
  state g = PLAYING ->
  Forall (fun a => qualifies (now - total_pause_time g)%float action a = false)
         (g_apples g) ->
  let g' := _check_cut_action action now g in
  led_state g' = error
  /\ last_led_update g' = now
  /\ sound_requests g' = snd_error :: sound_requests g
  /\ g_apples g' = g_apples g
  /\ sliced_count g' = sliced_count g
  /\ state g' = PLAYING
  /\ (forall tick t,
        accel_action_pending g = Some (action, t) -> fge tick t = true ->
        inputs_accel_fire tick now g = set_accel_action_pending None g')
  /\ (forall tick t,
        encoder_action_pending g = Some (action, t) -> fge tick t = true ->
        inputs_encoder_fire tick now g = set_encoder_action_pending None g').
Proof.
  intros Hst Hmiss g'.
  assert (Hfire :
    (forall tick t,
        accel_action_pending g = Some (action, t) -> fge tick t = true ->
        inputs_accel_fire tick now g = set_accel_action_pending None g')
    /\ (forall tick t,
        encoder_action_pending g = Some (action, t) -> fge tick t = true ->
        inputs_encoder_fire tick now g = set_encoder_action_pending None g')).
  { split; intros tick t Hp Hdue;
      [unfold inputs_accel_fire | unfold inputs_encoder_fire];
      rewrite Hp, Hdue, Hst; reflexivity. }
  revert Hfire. subst g'. unfold _check_cut_action.
  change (total_pause_time (set_cut_calls (action :: cut_calls g) g))
    with (total_pause_time g).
  change (g_apples (set_cut_calls (action :: cut_calls g) g)) with (g_apples g).
  rewrite (cut_loop_miss _ _ _ Hmiss). cbn [negb andb].
  change (state (set_apples (g_apples g) (set_cut_calls (action :: cut_calls g) g)))
    with (state g).
  rewrite Hst. cbn. rewrite Hst. intros [Hacc Henc]. auto 10.
Qed.

Lemma C8_miss_signal_witness :
  let g := state_of (start_level 0 0 (Game_init 0)) in
  let g' := _check_cut_action forward 1 g in
  led_state g' = error
  /\ last_led_update g' = 1%float
  /\ sound_requests g' = snd_error :: sound_requests g
  /\ g_apples g' = g_apples g
  /\ sliced_count g' = sliced_count g
  /\ state g' = PLAYING.
Proof.
  destruct (C8_miss_signal forward 1 (state_of (start_level 0 0 (Game_init 0))))
    as (H1 & H2 & H3 & H4 & H5 & H6 & _).
  - reflexivity.
  - constructor.
  - cbv zeta. auto 10.
Defined.

(** Two apples from the top edge, spawned at 0 s and 0.5 s and both
    updated at 1 s, qualify for [forward] at 1.5 s; the call slices the
    first and leaves the second. *)
Example two_qualifying_apples :
  let a1 := state_of (Apple_update (Apple_init Top 20 0) 1) in
  let a2 := state_of (Apple_update (Apple_init Top 20 0x1p-1) 1) in
  let g := set_apples [a1; a2] (state_of (start_level 0 0 (Game_init 0))) in
  qualifies 0x1.8p+0 forward a1 = true
  /\ qualifies 0x1.8p+0 forward a2 = true
  /\ g_apples (_check_cut_action forward 0x1.8p+0 g) = [set_sliced a1; a2]
  /\ sliced_count (_check_cut_action forward 0x1.8p+0 g) = 1.
Proof. vm_compute. auto. Qed.

(** ** Spawn scheduler *)

Section Spawn.

Variable rnd : nat -> SpawnDirection.

Lemma spawned_length g lvl from k : length (spawned rnd g lvl from k) = k.
Proof. unfold spawned. rewrite length_map, length_seq. reflexivity. Qed.

Lemma spawn_apple_at_time_level (t : float) (d : SpawnDirection) (g : Game)
    (lvl : Level) :
  current_level g = Some lvl ->
  spawn_apple_at_time t d g
  = set_apples (g_apples g ++ [Apple_init d (SPEEDS (speed lvl)) t]) g.
Proof. intros Hl. unfold spawn_apple_at_time. rewrite Hl. reflexivity. Qed.

Lemma spawn_loop_spec (fuel : nat) (n : Z) (g : Game) (lvl : Level) :
  current_level g = Some lvl ->
  spawn_loop fuel rnd n g
  = set_apples
      (g_apples g
       ++ spawned rnd g lvl (length (g_apples g))
            (Nat.min fuel (Z.to_nat (n - Z.of_nat (length (g_apples g))))))
      g.
Proof.
  revert g. induction fuel as [|fuel IH]; intros g Hl; cbn [spawn_loop].
  - cbn [Nat.min]. unfold spawned. cbn [seq map]. rewrite app_nil_r.
    destruct g; reflexivity.
  - destruct (Z.ltb_spec (Z.of_nat (length (g_apples g))) n) as [Hlt|Hge].
    + rewrite (spawn_apple_at_time_level _ _ g lvl Hl).
      rewrite IH by exact Hl.
      cbn [g_apples set_apples game_start_time apple_spawn_interval].
      rewrite length_app. cbn [length].
      replace (Z.to_nat (n - Z.of_nat (length (g_apples g))))
        with (S (Z.to_nat (n - Z.of_nat (length (g_apples g) + 1)))) by lia.
      cbn [Nat.min]. unfold spawned. cbn [seq map].
      rewrite <- app_assoc. cbn [app].
      replace (length (g_apples g) + 1)%nat with (S (length (g_apples g))) by lia.
      reflexivity.
    + replace (Z.to_nat (n - Z.of_nat (length (g_apples g)))) with O by lia.
      rewrite Nat.min_0_r. unfold spawned. cbn [seq map]. rewrite app_nil_r.
      destruct g; reflexivity.
Qed.

End Spawn.

(** [update] never touches what the constructor fixed. *)
Lemma Apple_update_start_time (a : Apple) (t : float) :
  start_time (state_of (Apple_update a t)) = start_time a.
Proof.
  unfold Apple_update.
  repeat match goal with
         | |- context [if ?c then _ else _] => destruct c; cbn
         | |- context [match ?c with Some _ => _ | None => _ end] => destruct c; cbn
         end; reflexivity.
Qed.

Lemma update_all_pointwise (l : list Apple) (t : float) :
  Forall2 (fun a a' => start_time a' = start_time a) l (state_of (update_all l t)).
Proof.
  induction l as [|a l IH]; cbn [update_all].
  - constructor.
  - pose proof (Apple_update_start_time a t) as Ha.
    destruct (Apple_update a t) as [a'|a']; cbn [state_of] in *.
    + destruct (update_all l t) as [l'|l']; cbn [state_of] in *;
        constructor; assumption.
    + constructor; [assumption|].
      clear. induction l; constructor; auto.
Qed.

Lemma update_all_length (l : list Apple) (t : float) :
  length (state_of (update_all l t)) = length l.
Proof. symmetry. eapply Forall2_length, update_all_pointwise. Qed.

Lemma update_all_start_time (l : list Apple) (t : float) (i : nat) (a' : Apple) :
  nth_error (state_of (update_all l t)) i = Some a' ->
  exists a, nth_error l i = Some a /\ start_time a' = start_time a.
Proof.
  revert i. induction (update_all_pointwise l t) as [|a b l l' Hab _ IH];
    intros [|i] H; cbn [nth_error] in *; try discriminate.
  - injection H as <-. eauto.
  - apply IH, H.
Qed.

(** The apples after a tick of [_update_playing] that finds time left
    and a spawn target [n]: the old ones and the newly scheduled ones,
    each updated at the adjusted clock. *)
Lemma _update_playing_apples (rnd : nat -> SpawnDirection) (now : float)
    (g : Game) (lvl : Level) (n : Z) :
  let adjusted := (now - total_pause_time g)%float in
  let elapsed := (adjusted - game_start_time g)%float in
  current_level g = Some lvl ->
  fle (Z2F (time lvl) - elapsed) 0 = false ->
  apples_to_spawn_at elapsed (apple_spawn_interval g) lvl = Some n ->
  g_apples (state_of (_update_playing now rnd g))
  = state_of
      (update_all
         (g_apples g
          ++ spawned rnd g lvl (length (g_apples g))
               (Z.to_nat (n - Z.of_nat (length (g_apples g)))))
         adjusted).
Proof.
  intros adjusted elapsed Hl Hrem Hn. unfold _update_playing.
  fold adjusted. fold elapsed. rewrite Hl, Hrem, Hn.
  rewrite (spawn_loop_spec rnd _ _ g lvl Hl), Nat.min_id.
  cbn [g_apples set_apples].
  destruct (update_all _ adjusted) as [l|l]; cbn [state_of].
  - destruct (fle _ (Z2F 10)); reflexivity.
  - reflexivity.
Qed.

(** A tick of [_update_playing] leaves the level, the cadence, the
    session start and the pause total as they were. *)
Lemma _update_playing_frame (rnd : nat -> SpawnDirection) (now : float) (g : Game) :
  let g' := state_of (_update_playing now rnd g) in
  current_level g' = current_level g
  /\ apple_spawn_interval g' = apple_spawn_interval g
  /\ game_start_time g' = game_start_time g
  /\ total_pause_time g' = total_pause_time g.
Proof.
  unfold _update_playing.
  destruct (current_level g) as [lvl|] eqn:Hl; [|cbn; auto].
  destruct (fle _ 0); [cbn; auto|].
  destruct (apples_to_spawn_at _ _ lvl) as [n|]; [|cbn; auto].
  rewrite (spawn_loop_spec rnd _ _ g lvl Hl).
  destruct (update_all _ _) as [l|l]; [destruct (fle _ (Z2F 10))|]; cbn; auto.
Qed.

(** The number of apples never decreases over a tick. *)
Lemma _update_playing_length_mono (rnd : nat -> SpawnDirection) (now : float)
    (g : Game) :
  (length (g_apples g) <= length (g_apples (state_of (_update_playing now rnd g))))%nat.
Proof.
  unfold _update_playing.
  destruct (current_level g) as [lvl|] eqn:Hl; [|cbn; lia].
  destruct (fle _ 0); [cbn; lia|].
  destruct (apples_to_spawn_at _ _ lvl) as [n|]; [|cbn; lia].
  rewrite (spawn_loop_spec rnd _ _ g lvl Hl).
  cbn [g_apples set_apples].
  match goal with |- context [update_all ?l ?t] =>
    pose proof (update_all_length l t) as Hlen;
    destruct (update_all l t) as [l'|l'] end;
    [destruct (fle _ (Z2F 10))|]; cbn [state_of g_apples set_apples set_led_state] in *;
    rewrite Hlen, length_app; lia.
Qed.

(** ** Level start *)

(** [start_level] on an index of the table: a fresh session on that
    level. *)
Lemma start_level_fresh (level_index : Z) (now : float) (g : Game) :
  0 <= level_index < Z.of_nat (length LEVELS) ->
  exists lvl g',
    nth_error LEVELS (Z.to_nat level_index) = Some lvl
    /\ start_level level_index now g = Done g'
    /\ current_level g' = Some lvl
    /\ current_level_index g' = level_index
    /\ g_apples g' = []
    /\ sliced_count g' = 0
    /\ game_start_time g' = now
    /\ total_pause_time g' = 0%float
    /\ apple_spawn_interval g' = (Z2F (time lvl) / Z2F (apples lvl))%float
    /\ state g' = PLAYING.
Proof.
  intros Hi. unfold start_level.
  destruct (Z.geb_spec level_index (Z.of_nat (length LEVELS))) as [Hge|_]; [lia|].
  unfold py_index. destruct (Z.leb_spec 0 level_index) as [_|Hneg]; [|lia].
  cbn [current_level_index set_current_level_index].
  assert (Hk : (Z.to_nat level_index < length LEVELS)%nat) by lia.
  replace level_index with (Z.of_nat (Z.to_nat level_index)) at 4 by lia.
  destruct (Z.to_nat level_index) as [|k]; [|revert Hk; cbn [LEVELS length]; intros Hk].
  1: { eexists _, _. split; [reflexivity|]. split; [reflexivity|]. cbn.
       repeat split; try reflexivity; lia. }
  do 9 (destruct k as [|k];
        [ eexists _, _; split; [reflexivity|]; split; [reflexivity|]; cbn;
          repeat split; try reflexivity; lia | ]).
  exfalso. lia.
Qed.

(** ** Spawn count over a tick *)

Lemma apples_to_spawn_at_cap (elapsed interval : float) (lvl : Level) (n : Z) :
  apples_to_spawn_at elapsed interval lvl = Some n ->
  exists q, int (elapsed / interval)%float = Some q
            /\ n = Z.min (q + 1) (apples lvl).
Proof.
  unfold apples_to_spawn_at. destruct (PrimFloat.eqb interval 0); [discriminate|].
  destruct (int (elapsed / interval)) as [q|]; [|discriminate].
  intros [= <-]. eauto.
Qed.

Lemma _update_playing_length (rnd : nat -> SpawnDirection) (now : float)
    (g : Game) (lvl : Level) (n : Z) :
  let elapsed := ((now - total_pause_time g) - game_start_time g)%float in
  current_level g = Some lvl ->
  fle (Z2F (time lvl) - elapsed) 0 = false ->
  apples_to_spawn_at elapsed (apple_spawn_interval g) lvl = Some n ->
  Z.of_nat (length (g_apples (state_of (_update_playing now rnd g))))
  = Z.max (Z.of_nat (length (g_apples g))) n.
Proof.
  intros elapsed Hl Hrem Hn.
  rewrite (_update_playing_apples rnd now g lvl n Hl Hrem Hn).
  rewrite update_all_length, length_app, spawned_length. lia.
Qed.

(** Without time left, without a level or when the spawn target cannot
    be computed, the tick leaves the list as it is. *)
Lemma _update_playing_length_cases (rnd : nat -> SpawnDirection) (now : float)
    (g : Game) (lvl : Level) :
  let elapsed := ((now - total_pause_time g) - game_start_time g)%float in
  let len' := Z.of_nat (length (g_apples (state_of (_update_playing now rnd g)))) in
  current_level g = Some lvl ->
  len' = Z.of_nat (length (g_apples g))
  \/ exists n, apples_to_spawn_at elapsed (apple_spawn_interval g) lvl = Some n
               /\ len' = Z.max (Z.of_nat (length (g_apples g))) n.
Proof.
  intros elapsed len' Hl.
  destruct (fle (Z2F (time lvl) - elapsed) 0) eqn:Hrem.
  - left. subst len'. unfold _update_playing. fold elapsed. rewrite Hl, Hrem.
    reflexivity.
  - destruct (apples_to_spawn_at elapsed (apple_spawn_interval g) lvl) as [n|] eqn:Hn.
    + right. exists n. split; [reflexivity|].
      apply (_update_playing_length rnd now g lvl n); assumption.
    + left. subst len'. unfold _update_playing. fold elapsed. rewrite Hl, Hrem, Hn.
      reflexivity.
Qed.

Lemma nth_error_seq_Some (a k m j : nat) :
  nth_error (seq a k) m = Some j -> j = (a + m)%nat.
Proof.
  revert a m. induction k as [|k IH]; intros a [|m]; cbn [seq nth_error];
    try discriminate.
  - intros [= <-]. lia.
  - intros H. apply IH in H. lia.
Qed.

(** The first level from a session started at clock 0: a tick at the
    last instant before 6 s holds one apple, the tick at 6 s holds two. *)
Lemma level0_run (rnd : nat -> SpawnDirection) :
  let g0 := state_of (start_level 0 0 (Game_init 0)) in
  let g1 := state_of (_update_playing 0x1.7ffffffffffffp+2 rnd g0) in
  let g2 := state_of (_update_playing 6 rnd g1) in
  current_level g0 = Some level0
  /\ apple_spawn_interval g0 = 6%float
  /\ length (g_apples g0) = 0%nat
  /\ length (g_apples g1) = 1%nat
  /\ length (g_apples g2) = 2%nat.
Proof.
  intros g0 g1 g2.
  assert (H0 : current_level g0 = Some level0) by reflexivity.
  assert (Hi0 : apple_spawn_interval g0 = 6%float) by (vm_compute; reflexivity).
  assert (Hs0 : game_start_time g0 = 0%float) by reflexivity.
  assert (Hp0 : total_pause_time g0 = 0%float) by reflexivity.
  assert (Hlen0 : length (g_apples g0) = 0%nat) by reflexivity.
  destruct (_update_playing_frame rnd 0x1.7ffffffffffffp+2 g0) as (H1 & Hi1 & Hs1 & Hp1).
  fold g1 in H1, Hi1, Hs1, Hp1.
  rewrite H0 in H1. rewrite Hi0 in Hi1. rewrite Hs0 in Hs1. rewrite Hp0 in Hp1.
  assert (Hlen1 : length (g_apples g1) = 1%nat).
  { apply Nat2Z.inj. subst g1.
    rewrite (_update_playing_length rnd _ g0 level0 1 H0).
    - rewrite Hlen0. reflexivity.
    - rewrite Hs0, Hp0. vm_compute. reflexivity.
    - rewrite Hs0, Hp0, Hi0. vm_compute. reflexivity. }
  repeat split; try assumption.
  apply Nat2Z.inj. subst g2.
  rewrite (_update_playing_length rnd _ g1 level0 2 H1).
  - rewrite Hlen1. reflexivity.
  - rewrite Hs1, Hp1. vm_compute. reflexivity.
  - rewrite Hs1, Hp1, Hi1. vm_compute. reflexivity.
Qed.

Lemma last_cons_default (n d : Z) (l : list Z) : last (n :: l) d = last l n.
Proof.
  revert n d. induction l as [|m l IH]; intros n d.
  - reflexivity.
  - change (last (n :: m :: l) d) with (last (m :: l) d).
    rewrite (IH m d), (IH m n). reflexivity.
Qed.

(** Over a run of ticks that each find time left, starting from a list
    no longer than the first target and with targets that never
    decrease (as when the clock never runs backwards), the list holds
    exactly the latest target after every tick. *)
Lemma play_count (rnd : nat -> SpawnDirection) (lvl : Level)
    (ts : list float) (ns : list Z) (g : Game) :
  current_level g = Some lvl ->
  Forall2 (fun t n => spawn_target g lvl t = Some n) ts ns ->
  rising (Z.of_nat (length (g_apples g))) ns ->
  Z.of_nat (length (g_apples (play rnd g ts)))
  = last ns (Z.of_nat (length (g_apples g))).
Proof.
  intros Hl Hts. revert g Hl Hts.
  revert ns. induction ts as [|t ts IH]; intros ns g Hl Hts Hup;
    inversion Hts as [|? n ? ns' Ht Hrest]; subst; cbn [play].
  - reflexivity.
  - destruct Hup as [Hle Hup]. rewrite last_cons_default.
    unfold spawn_target in Ht. cbv zeta in Ht.
    destruct (fle _ 0) eqn:Hrem in Ht; [discriminate|].
    pose proof (_update_playing_length rnd t g lvl n Hl Hrem Ht) as Hlen.
    rewrite Z.max_r in Hlen by exact Hle.
    destruct (_update_playing_frame rnd t g) as (Hl1 & Hi1 & Hs1 & Hp1).
    set (g1 := state_of (_update_playing t rnd g)) in *.
    rewrite <- Hlen. apply IH.
    + rewrite Hl1. exact Hl.
    + eapply Forall2_impl; [|exact Hrest].
      intros t' n' H'. unfold spawn_target. rewrite Hi1, Hs1, Hp1. exact H'.
    + rewrite Hlen. exact Hup.
Qed.

(** C5. A tick of [_update_playing] on an active level never shortens
    the apple list and never takes it past the level's apple target.
    When the tick finds time left, with [q = int(elapsed / interval)],
    the target count is [n = min(q + 1, level apples)], the list ends
    with [max(old length, n)] apples -- [n] whenever it held at most [n]
    -- and the apple at each new index [i] carries the spawn timestamp
    [game_start_time + i * interval], whatever the tick's clock.  Over a
    run of such ticks whose targets never decrease, the list holds the
    latest target after every tick.  On the first level (10 apples,
    60 s) the interval is 6.0 and, from a session started at clock 0,
    the count is 1 at the last instant before 6 s and 2 at 6 s. *)
Theorem C5_spawn_scheduler (rnd : nat -> SpawnDirection) (now : float)
    (g : Game) (lvl : Level) :
  let elapsed := ((now - total_pause_time g) - game_start_time g)%float in
  let g' := state_of (_update_playing now rnd g) in
  let len := Z.of_nat (length (g_apples g)) in
  let len' := Z.of_nat (length (g_apples g')) in
  current_level g = Some lvl ->
  len <= len'
  /\ (len <= apples lvl -> len' <= apples lvl)
  /\ (forall n,
        fle (Z2F (time lvl) - elapsed) 0 = false ->
        apples_to_spawn_at elapsed (apple_spawn_interval g) lvl = Some n ->
        (exists q, int (elapsed / apple_spawn_interval g)%float = Some q
                   /\ n = Z.min (q + 1) (apples lvl))
        /\ len' = Z.max len n
        /\ (len <= n -> len' = n)
        /\ (forall i a',
              (length (g_apples g) <= i)%nat ->
              nth_error (g_apples g') i = Some a' ->
              start_time a'
              = (game_start_time g
                 + Z2F (Z.of_nat i) * apple_spawn_interval g)%float))
  /\ (forall ts ns,
        Forall2 (fun t n => spawn_target g lvl t = Some n) ts ns ->
        rising len ns ->
        Z.of_nat (length (g_apples (play rnd g ts))) = last ns len)
  /\ (let g0 := state_of (start_level 0 0 (Game_init 0)) in
      let g1 := state_of (_update_playing 0x1.7ffffffffffffp+2 rnd g0) in
      let g2 := state_of (_update_playing 6 rnd g1) in
      current_level g0 = Some level0
      /\ apple_spawn_interval g0 = 6%float
      /\ length (g_apples g0) = 0%nat
      /\ length (g_apples g1) = 1%nat
      /\ length (g_apples g2) = 2%nat).
Proof.
  intros elapsed g' len len' Hl.
  split; [|split; [|split; [|split]]].
  - subst len len' g'. pose proof (_update_playing_length_mono rnd now g). lia.
  - intros Hcap.
    destruct (_update_playing_length_cases rnd now g lvl Hl) as [E | (n & Hn & E)];
      fold g' in E; fold len' in E; fold len in E.
    + lia.
    + apply apples_to_spawn_at_cap in Hn as (q & _ & ->). lia.
  - intros n Hrem Hn.
    pose proof (_update_playing_length rnd now g lvl n Hl Hrem Hn) as E.
    fold g' in E. fold len' in E. fold len in E.
    split; [exact (apples_to_spawn_at_cap _ _ _ _ Hn)|].
    split; [exact E|]. split; [lia|].
    intros i a' Hi Ha'. subst g'.
    rewrite (_update_playing_apples rnd now g lvl n Hl Hrem Hn) in Ha'.
    apply update_all_start_time in Ha' as (a & Ha & ->).
    rewrite nth_error_app2 in Ha by exact Hi.
    unfold spawned in Ha. rewrite nth_error_map in Ha.
    destruct (nth_error (seq _ _) _) as [j|] eqn:Hj; [|discriminate].
    injection Ha as <-. cbn [start_time Apple_init].
    apply nth_error_seq_Some in Hj.
    replace j with i by lia. reflexivity.
  - intros ts ns Hts Hup. apply (play_count rnd lvl ts ns g Hl Hts Hup).
  - apply level0_run.
Qed.

Lemma C5_spawn_scheduler_witness :
  let g := state_of (start_level 0 0 (Game_init 0)) in
  length (g_apples (state_of (_update_playing 6 (fun _ => Top) g))) = 2%nat
  /\ forall a', nth_error (g_apples (state_of (_update_playing 6 (fun _ => Top) g))) 1
                 = Some a' ->
                start_time a' = 6%float.
Proof.
  intros g.
  destruct (C5_spawn_scheduler (fun _ => Top) 6 g level0 eq_refl)
    as (_ & _ & H & _ & _).
  destruct (H 2) as (_ & _ & E & Hts); try (vm_compute; reflexivity).
  split.
  - apply Nat2Z.inj. apply E. vm_compute. discriminate.
  - intros a' Ha'. rewrite (Hts 1%nat a'); [vm_compute; reflexivity | cbn; lia | exact Ha'].
Defined.

(** ** Pause accounting *)



(** The encoder steps of [_update_inputs] leave the accelerometer's
    sample memory and pending action alone. *)
Lemma encoder_steps_frame (now cut_clock : float) (enc : EncoderRead) (g : Game) :
  let ge := inputs_encoder_fire now cut_clock (inputs_encoder_detect now enc g) in
  accel_action_pending ge = accel_action_pending g
  /\ last_accel_y ge = last_accel_y g
  /\ last_accel_action_time ge = last_accel_action_time g.
Proof.
  assert (Hd : let gd := inputs_encoder_detect now enc g in
               accel_action_pending gd = accel_action_pending g
               /\ last_accel_y gd = last_accel_y g
               /\ last_accel_action_time gd = last_accel_action_time g).
  { unfold inputs_encoder_detect.
    destruct (_ && _); [|cbn; auto].
    destruct (negb _); [|cbn; auto].
    destruct (_ && _); [|cbn; auto].
    destruct (_ >? 0); cbn; auto. }
  cbv zeta in Hd |- *. destruct Hd as (<- & <- & <-).
  set (gd := inputs_encoder_detect now enc g).
  unfold inputs_encoder_fire.
  destruct (encoder_action_pending gd) as [[a t]|]; [|auto].
  destruct (fge now t); [|auto].
  destruct (GameState_eqb (state gd) PLAYING); [|cbn; auto].
  unfold _check_cut_action.
  destruct (cut_loop _ a _) as [l [|]]; cbn [negb andb].
  - cbn. auto.
  - match goal with |- context [GameState_eqb ?s PLAYING] =>
      destruct (GameState_eqb s PLAYING) end; cbn; auto.
Qed.











(** ** The response delay in binary64 *)

(** Rounding in [SpecFloat]: the digit count brackets the value, a
    right shift divides by a power of two, and rounding to nearest
    never goes below the truncated mantissa. *)
Section ResponseDelay.



















End ResponseDelay.

(** ** Accelerometer gesture source *)

Section Accelerometer.

Variables (now : float) (g : Game).







End Accelerometer.







(** Spec scenario: Y rises from 1.0 to 2.5.  The tick at 10 s records
    [forward] for 10.2 s and submits nothing; the tick at 10.1 s (tilt
    still held) neither fires nor re-arms; the tick at 10.25 s submits
    [forward] once. *)
Example accel_scenario :
  let g := set_last_accel_y 1 (state_of (start_level 0 0 (Game_init 0))) in
  let tick t := mkInputs enc_unavailable sw_absent (Some (0, 0x1.4p+1, 0)%float) t t in
  let g1 := _update_inputs 10 (tick 10%float) g in
  let g2 := _update_inputs 0x1.4333333333333p+3 (tick 0x1.4333333333333p+3%float) g1 in
  let g3 := _update_inputs 0x1.48p+3 (tick 0x1.48p+3%float) g2 in
  (accel_action_pending g1, cut_calls g1)
    = (Some (forward, 0x1.4666666666666p+3%float), [])
  /\ (accel_action_pending g2, cut_calls g2)
     = (Some (forward, 0x1.4666666666666p+3%float), [])
  /\ (accel_action_pending g3, cut_calls g3) = (None, [forward]).
Proof. vm_compute. auto. Qed.

(** ** Session reset and restart *)

(** C9. In [_update_game_over], a button that was already down, pressed
    at [p > 0] and held for more than the 0.2 s confirm interval returns
    the session to the menu with the active level cleared and the
    difficulty selection back at index 0 (level index 0).  [start_level]
    called next on that state, for the selected level or any other level
    of the table, gives a playing session with no apples, a slice count
    of 0, the session start at the call's clock read, a pause total of 0
    and the spawn interval [level time / level apples]. *)
Theorem C9_reset_then_start (now start_now p : float) (g : Game) :
  _game_over_button_last_state g = Some true ->
  _game_over_button_press_time g = Some p ->
  fgt p 0 = true ->
  fgt (now - p)%float 0x1.999999999999ap-3 = true ->
  exists g1,
    _update_game_over now true g = Done g1
    /\ state g1 = MENU
    /\ current_level g1 = None
    /\ current_difficulty_index g1 = 0
    /\ current_level_index g1 = 0
    /\ (forall level_index,
          0 <= level_index < Z.of_nat (length LEVELS) ->
          exists lvl g2,
            nth_error LEVELS (Z.to_nat level_index) = Some lvl
            /\ start_level level_index start_now g1 = Done g2
            /\ state g2 = PLAYING
            /\ current_level g2 = Some lvl
            /\ sliced_count g2 = 0
            /\ g_apples g2 = []
            /\ game_start_time g2 = start_now
            /\ total_pause_time g2 = 0%float
            /\ apple_spawn_interval g2 = (Z2F (time lvl) / Z2F (apples lvl))%float).
Proof.
  intros Hlast Hpress Hp Hheld.
  unfold _update_game_over.
  rewrite Hlast. cbv beta iota zeta. rewrite Hpress. cbv beta iota zeta.
  rewrite Hlast. cbn [andb negb]. rewrite Hpress, Hp, Hheld.
  match goal with |- context [_update_level_index_from_difficulty ?X] =>
    change (_update_level_index_from_difficulty X)
      with (Done (set_current_level_index 0 X)) end.
  cbn [and_then].
  eexists. split; [reflexivity|].
  repeat (split; [reflexivity|]).
  intros level_index Hidx.
  match goal with |- context [start_level level_index start_now ?g1] =>
    destruct (start_level_fresh level_index start_now g1 Hidx)
      as (lvl & g2 & Hnth & E & Hl & _ & Ha & Hc & Hs & Hpz & Hi & Hst) end.
  exists lvl, g2. auto 12.
Qed.

Lemma C9_reset_then_start_witness :
  exists g1,
    _update_game_over 0x1.ep+4 true
      (set_game_over_button_press_time (Some 0x1.dp+4%float)
         (set_game_over_button_last_state (Some true)
            (set_state GAME_OVER
               (set_sliced_count 7 (state_of (start_level 9 0 (Game_init 0)))))))
    = Done g1
    /\ state g1 = MENU
    /\ current_level g1 = None
    /\ current_difficulty_index g1 = 0
    /\ current_level_index g1 = 0
    /\ exists g2,
         start_level (current_level_index g1) 0x1.fp+4 g1 = Done g2
         /\ sliced_count g2 = 0 /\ g_apples g2 = []
         /\ apple_spawn_interval g2 = 6%float.
Proof.
  destruct (C9_reset_then_start 0x1.ep+4 0x1.fp+4 0x1.dp+4
              (set_game_over_button_press_time (Some 0x1.dp+4%float)
                 (set_game_over_button_last_state (Some true)
                    (set_state GAME_OVER
                       (set_sliced_count 7
                          (state_of (start_level 9 0 (Game_init 0))))))))
    as (g1 & E & Hs & Hl & Hd & Hi & Hstart);
    try (vm_compute; reflexivity).
  exists g1. repeat (split; [assumption|]).
  rewrite Hi.
  destruct (Hstart 0) as (lvl & g2 & Hn & E2 & _ & _ & Hc & Ha & _ & _ & Hint);
    [cbn; lia|].
  exists g2. repeat (split; [assumption|]).
  rewrite Hint. injection Hn as <-. vm_compute. reflexivity.
Defined.

(** ** Debounce filter *)

Section Debounce.

Lemma count_value_nonneg (v : bool) (values : list bool) : 0 <= count_value v values.
Proof. unfold count_value. lia. Qed.

Lemma count_value_absent (v : bool) (values : list bool) :
  existsb (Bool.eqb v) values = false -> count_value v values = 0.
Proof.
  intros H. unfold count_value.
  assert (~ In v values) as Hn.
  { intros Hin. assert (existsb (Bool.eqb v) values = true); [|congruence].
    apply existsb_exists. exists v. split; [exact Hin | apply Bool.eqb_reflx]. }
  apply (count_occ_not_In Bool.bool_dec) in Hn. rewrite Hn. reflexivity.
Qed.

Lemma count_value_present (v : bool) (values : list bool) :
  0 < count_value v values -> existsb (Bool.eqb v) values = true.
Proof.
  intros H. destruct (existsb (Bool.eqb v) values) eqn:E; [reflexivity|].
  rewrite (count_value_absent v values E) in H. lia.
Qed.

(** A strict majority wins whatever the iteration order of the set. *)
Lemma max_by_count_majority (first b : bool) (values : list bool) :
  count_value (negb b) values < count_value b values ->
  max_by_count first values = Some b.
Proof.
  intros Hmaj.
  pose proof (count_value_nonneg true values) as Hnt.
  pose proof (count_value_nonneg false values) as Hnf.
  pose proof (count_value_absent true values) as Hat.
  pose proof (count_value_absent false values) as Haf.
  unfold max_by_count. cbn [filter].
  destruct first, b; cbn [negb] in *;
    destruct (existsb (Bool.eqb true) values);
    destruct (existsb (Bool.eqb false) values);
    cbn [fold_left];
    repeat match goal with
           | H : false = false -> _ |- _ => specialize (H eq_refl)
           | |- context [?u >? ?v] => destruct (Z.gtb_spec u v)
           end;
    try reflexivity; exfalso; lia.
Qed.

Lemma count_value_perm (v : bool) (l l' : list bool) :
  Permutation l l' -> count_value v l = count_value v l'.
Proof.
  intros H. unfold count_value. f_equal.
  induction H as [| a l l' _ IH | a a' l | l l' l'' _ IH1 _ IH2]; cbn [count_occ].
  - reflexivity.
  - destruct (Bool.bool_dec a v); rewrite IH; reflexivity.
  - destruct (Bool.bool_dec a v), (Bool.bool_dec a' v); reflexivity.
  - rewrite IH1. exact IH2.
Qed.

Lemma sample_values_all_raise (n : nat) (reads : nat -> option bool) (from : nat) :
  (forall k, (from <= k < from + n)%nat -> reads k = None) ->
  sample_values n reads from = [].
Proof.
  revert from. induction n as [|n IH]; intros from H; cbn [sample_values].
  - reflexivity.
  - rewrite (H from) by lia. apply IH. intros k Hk. apply H. lia.
Qed.

Lemma read_pin_stable_values (samples : Z) (reads : nat -> option bool)
    (first : bool) :
  sample_values (Z.to_nat samples) reads 0 <> [] ->
  read_pin_stable true samples reads first
  = max_by_count first (sample_values (Z.to_nat samples) reads 0).
Proof.
  intros H. unfold read_pin_stable. cbn [negb].
  destruct (sample_values (Z.to_nat samples) reads 0); [contradiction | reflexivity].
Qed.

Lemma majority_nonempty (b : bool) (values : list bool) :
  count_value (negb b) values < count_value b values -> values <> [].
Proof. intros H ->. cbn in H. lia. Qed.

(** X1. When strictly more of the collected samples read [b] than not,
    [read_pin_stable] returns [b]: whatever order the set is iterated
    in, and whatever order the same samples arrive in. *)
Theorem X1_debounce_majority (samples : Z) (reads : nat -> option bool) (b : bool) :
  let values := sample_values (Z.to_nat samples) reads 0 in
  count_value (negb b) values < count_value b values ->
  (forall first, read_pin_stable true samples reads first = Some b)
  /\ (forall samples' reads' first,
        Permutation values (sample_values (Z.to_nat samples') reads' 0) ->
        read_pin_stable true samples' reads' first = Some b).
Proof.
  intros values Hmaj. split.
  - intros first. rewrite read_pin_stable_values by exact (majority_nonempty b _ Hmaj).
    apply max_by_count_majority, Hmaj.
  - intros samples' reads' first Hperm.
    assert (Hmaj' : count_value (negb b) (sample_values (Z.to_nat samples') reads' 0)
                    < count_value b (sample_values (Z.to_nat samples') reads' 0)).
    { rewrite <- (count_value_perm (negb b) _ _ Hperm),
              <- (count_value_perm b _ _ Hperm). exact Hmaj. }
    rewrite read_pin_stable_values by exact (majority_nonempty b _ Hmaj').
    apply max_by_count_majority, Hmaj'.
Qed.

(** Five samples reading high, low, high, high, low. *)
Lemma X1_debounce_majority_witness :
  read_pin_stable true 5
    (fun k => nth k [Some true; Some false; Some true; Some true; Some false] None)
    true = Some true
  /\ read_pin_stable true 5
       (fun k => nth k [Some true; Some false; Some true; Some true; Some false] None)
       false = Some true.
Proof.
  assert (H : forall first,
             read_pin_stable true 5
               (fun k => nth k [Some true; Some false; Some true; Some true; Some false]
                             None)
               first = Some true).
  { apply (X1_debounce_majority 5
             (fun k => nth k [Some true; Some false; Some true; Some true; Some false] None)
             true).
    vm_compute. reflexivity. }
  split; apply H.
Defined.

(** X2. Without a pin object [read_pin_stable] returns [False] and
    reads nothing; when every sampling read raises (or no sample is
    asked for) it falls back on one direct read, whose value it returns
    and whose exception it lets through. *)
Theorem X2_debounce_fallback (samples : Z) (reads : nat -> option bool) (first : bool) :
  read_pin_stable false samples reads first = Some false
  /\ ((forall k, (k < Z.to_nat samples)%nat -> reads k = None) ->
      read_pin_stable true samples reads first = reads (Z.to_nat samples)).
Proof.
  split; [reflexivity|].
  intros H. unfold read_pin_stable. cbn [negb].
  rewrite sample_values_all_raise; [reflexivity|].
  intros k Hk. apply H. lia.
Qed.

Lemma X2_debounce_fallback_witness :
  read_pin_stable true 5 (fun k => if (k <? 5)%nat then None else Some true) false
  = Some true.
Proof.
  apply (proj2 (X2_debounce_fallback 5
                  (fun k => if (k <? 5)%nat then None else Some true) false)).
  intros k Hk. destruct (Nat.ltb_spec k 5); [reflexivity|].
  exfalso. cbn in Hk. lia.
Defined.

(** X3. On a tie between the collected highs and lows the result is
    the value the set happens to yield first: the function has no tie
    rule of its own (ties need an even number of successful reads, that
    is, a sampling read that raised). *)
Theorem X3_debounce_tie (samples : Z) (reads : nat -> option bool) (first : bool) :
  let values := sample_values (Z.to_nat samples) reads 0 in
  0 < count_value true values ->
  count_value true values = count_value false values ->
  read_pin_stable true samples reads first = Some first.
Proof.
  intros values Hpos Htie.
  rewrite read_pin_stable_values.
  2: { fold values. intros E. rewrite E in Hpos. cbn in Hpos. lia. }
  fold values.
  pose proof (count_value_present true values ltac:(lia)) as Pt.
  pose proof (count_value_present false values ltac:(lia)) as Pf.
  unfold max_by_count. cbn [filter].
  destruct first; cbn [negb]; rewrite Pt, Pf; cbn [fold_left];
    match goal with |- context [?u >? ?v] => destruct (Z.gtb_spec u v) end;
    try reflexivity; exfalso; lia.
Qed.

Lemma X3_debounce_tie_witness :
  read_pin_stable true 5
    (fun k => nth k [Some true; Some false; None; Some true; Some false] None)
    true = Some true
  /\ read_pin_stable true 5
       (fun k => nth k [Some true; Some false; None; Some true; Some false] None)
       false = Some false.
Proof.
  split;
    apply (X3_debounce_tie 5
             (fun k => nth k [Some true; Some false; None; Some true; Some false] None));
    vm_compute; reflexivity.
Defined.

End Debounce.

(** ** OLED frame buffer *)

Section FrameBuffer.

Lemma length_list_set {A} (xs : list A) (i : nat) (v : A) :
  length (list_set xs i v) = length xs.
Proof.
  revert i. induction xs as [|a xs IH]; intros [|i]; cbn [list_set length];
    try reflexivity. rewrite IH. reflexivity.
Qed.

Lemma nth_list_set {A} (xs : list A) (i j : nat) (v d : A) :
  (i < length xs)%nat ->
  nth j (list_set xs i v) d = if Nat.eqb j i then v else nth j xs d.
Proof.
  revert i j. induction xs as [|a xs IH]; intros [|i] [|j] Hi;
    cbn [list_set nth length Nat.eqb] in *; try reflexivity; try lia.
  apply IH. lia.
Qed.

Lemma Forall_list_set {A} (P : A -> Prop) (xs : list A) (i : nat) (v : A) :
  Forall P xs -> P v -> Forall P (list_set xs i v).
Proof.
  intros H Hv. revert i. induction H as [|a xs Ha Hxs IH]; intros [|i];
    cbn [list_set]; constructor; auto.
Qed.

Lemma byte_set_bit (b bit : Z) :
  0 <= b < 256 -> 0 <= bit < 8 -> 0 <= Z.lor b (Z.shiftl 1 bit) < 256.
Proof.
  intros Hb Hbit. rewrite Z.shiftl_1_l.
  assert (Hp : 0 < 2 ^ bit) by (apply Z.pow_pos_nonneg; lia).
  assert (Hnn : 0 <= Z.lor b (2 ^ bit)) by (apply Z.lor_nonneg; lia).
  split; [exact Hnn|].
  destruct (Z.eq_dec (Z.lor b (2 ^ bit)) 0) as [->|Hne]; [lia|].
  change 256 with (2 ^ 8). apply Z.log2_lt_pow2; [lia|].
  rewrite Z.log2_lor by lia. rewrite Z.log2_pow2 by lia.
  destruct (Z.eq_dec b 0) as [->|Hb0]; [cbn; lia|].
  assert (Z.log2 b < 8) by (apply Z.log2_lt_pow2; [lia | change (2 ^ 8) with 256; lia]).
  lia.
Qed.

Lemma byte_clear_bit (b bit : Z) :
  0 <= b < 256 -> 0 <= Z.land b (Z.lnot (Z.shiftl 1 bit)) < 256.
Proof.
  intros Hb. rewrite <- Z.sub_land_same_l.
  assert (0 <= Z.land b (Z.shiftl 1 bit)) by (apply Z.land_nonneg; lia).
  assert (0 <= Z.land b (Z.lnot (Z.shiftl 1 bit))).
  { rewrite <- Z.ldiff_land. apply Z.ldiff_nonneg. lia. }
  rewrite <- Z.sub_land_same_l in *. lia.
Qed.

Lemma testbit_set_bit (b bit k : Z) :
  0 <= bit ->
  Z.testbit (Z.lor b (Z.shiftl 1 bit)) k = Z.testbit b k || (bit =? k).
Proof.
  intros Hbit. rewrite Z.lor_spec, Z.shiftl_1_l, Z.pow2_bits_eqb by lia.
  reflexivity.
Qed.

Lemma testbit_clear_bit (b bit k : Z) :
  0 <= bit -> 0 <= k ->
  Z.testbit (Z.land b (Z.lnot (Z.shiftl 1 bit))) k = Z.testbit b k && negb (bit =? k).
Proof.
  intros Hbit Hk.
  rewrite Z.land_spec, Z.lnot_spec, Z.shiftl_1_l, Z.pow2_bits_eqb by lia.
  reflexivity.
Qed.

(** The byte index of an on-screen pixel lies in the buffer. *)
Lemma index_in_buffer (w h x y : Z) :
  0 < w -> h mod 8 = 0 -> 0 <= x < w -> 0 <= y < h ->
  0 <= (y / 8) * w + x < w * h / 8.
Proof.
  intros Hw Hh Hx Hy.
  assert (Hk : h = 8 * (h / 8)) by (apply Z.div_exact; lia).
  assert (0 <= y / 8) by (apply Z.div_pos; lia).
  assert (y / 8 < h / 8) by (apply Z.div_lt_upper_bound; lia).
  replace (w * h / 8) with (w * (h / 8)).
  - nia.
  - rewrite Hk at 2. rewrite (Z.mul_comm 8), Z.mul_assoc, Z.div_mul by lia.
    reflexivity.
Qed.

(** Two on-screen pixels share byte and bit only when they coincide. *)
Lemma same_bit_same_pixel (w x y px py : Z) :
  0 <= x < w -> 0 <= px < w -> 0 <= y -> 0 <= py ->
  (py / 8) * w + px = (y / 8) * w + x -> y mod 8 = py mod 8 ->
  px = x /\ py = y.
Proof.
  intros Hx Hpx Hy Hpy Hidx Hbit.
  assert (0 <= y / 8) by (apply Z.div_pos; lia).
  assert (0 <= py / 8) by (apply Z.div_pos; lia).
  assert (Hq : py / 8 = y / 8) by nia.
  split; [nia|].
  rewrite (Z.div_mod y 8), (Z.div_mod py 8) by lia. lia.
Qed.

(** [pixel] on a well-formed buffer: it returns, keeps the buffer
    well-formed, and changes the one pixel it names if that pixel is on
    the screen, no other. *)
Lemma pixel_spec (x y c : Z) (d : RawOLEDDisplay) :
  buffer_ok d ->
  exists d',
    pixel x y c d = Done d'
    /\ buffer_ok d' /\ width d' = width d /\ height d' = height d
    /\ (forall px py,
          on_screen d px py ->
          pixel_lit d' px py
          = if (px =? x) && (py =? y) then truthy c else pixel_lit d px py).
Proof.
  intros (Hw & Hh & Hh8 & Hlen & Hbytes). unfold pixel.
  destruct ((0 <=? x) && (x <? width d) && ((0 <=? y) && (y <? height d))) eqn:Hon.
  - assert (Hxy : (0 <= x < width d) /\ (0 <= y < height d)).
    { apply andb_prop in Hon as [H1 H2].
      apply andb_prop in H1 as [H1 H1']. apply andb_prop in H2 as [H2 H2'].
      lia. }
    destruct Hxy as [Hx Hy].
    pose proof (index_in_buffer (width d) (height d) x y Hw Hh8 Hx Hy) as Hidx.
    set (index := y / 8 * width d + x) in *.
    assert (Hnat : (Z.to_nat index < length (buffer d))%nat) by lia.
    unfold py_index. destruct (Z.leb_spec 0 index) as [_|Hneg]; [|lia].
    rewrite (nth_error_nth' (buffer d) 0 Hnat).
    set (b := nth (Z.to_nat index) (buffer d) 0).
    assert (Hb : 0 <= b < 256).
    { pose proof (proj1 (Forall_forall _ _) Hbytes b) as Hall.
      apply Hall. apply nth_In. exact Hnat. }
    assert (Hbit : 0 <= y mod 8 < 8) by (apply Z.mod_pos_bound; lia).
    set (v := if truthy c then Z.lor b (Z.shiftl 1 (y mod 8))
              else Z.land b (Z.lnot (Z.shiftl 1 (y mod 8)))).
    assert (Hv : 0 <= v < 256).
    { subst v. destruct (truthy c);
        [apply byte_set_bit | apply byte_clear_bit]; assumption. }
    replace ((0 <=? v) && (v <? 256)) with true
      by (symmetry; apply andb_true_intro; split; [apply Z.leb_le | apply Z.ltb_lt]; lia).
    eexists. split; [reflexivity|].
    split; [|split; [reflexivity|split; [reflexivity|]]].
    + unfold buffer_ok. cbn [width height buffer set_buffer].
      rewrite length_list_set.
      repeat split; try assumption; try lia.
      apply Forall_list_set; [assumption | lia].
    + intros px py [Hpx Hpy]. unfold pixel_lit. cbn [width buffer set_buffer].
      pose proof (index_in_buffer (width d) (height d) px py Hw Hh8 Hpx Hpy) as Hidx'.
      rewrite (nth_list_set (buffer d) _ _ v 0 Hnat).
      assert (Hbit' : 0 <= py mod 8 < 8) by (apply Z.mod_pos_bound; lia).
      destruct (Nat.eqb_spec (Z.to_nat (py / 8 * width d + px)) (Z.to_nat index))
        as [Heq|Hneq].
      * assert (Hidxeq : py / 8 * width d + px = y / 8 * width d + x)
          by (subst index; lia).
        rewrite Heq. fold b.
        destruct (Z.eqb_spec (y mod 8) (py mod 8)) as [Hm|Hm].
        -- destruct (same_bit_same_pixel (width d) x y px py Hx Hpx
                       (proj1 Hy) (proj1 Hpy) Hidxeq Hm) as [-> ->].
           rewrite !Z.eqb_refl. cbn [andb]. subst v.
           destruct (truthy c).
           ++ rewrite testbit_set_bit, Z.eqb_refl by lia. apply orb_true_r.
           ++ rewrite testbit_clear_bit, Z.eqb_refl by lia. apply andb_false_r.
        -- assert (Hne : (px =? x) && (py =? y) = false).
           { destruct (Z.eqb_spec px x), (Z.eqb_spec py y); try reflexivity.
             subst. contradiction. }
           rewrite Hne. subst v.
           destruct (truthy c).
           ++ rewrite testbit_set_bit by lia.
              destruct (Z.eqb_spec (y mod 8) (py mod 8)); [contradiction|].
              apply orb_false_r.
           ++ rewrite testbit_clear_bit by lia.
              destruct (Z.eqb_spec (y mod 8) (py mod 8)); [contradiction|].
              apply andb_true_r.
      * assert (Hne : (px =? x) && (py =? y) = false).
        { destruct (Z.eqb_spec px x), (Z.eqb_spec py y); try reflexivity.
          subst. contradiction. }
        rewrite Hne. reflexivity.
  - exists d. split; [reflexivity|].
    split; [repeat split; assumption|]. split; [reflexivity|]. split; [reflexivity|].
    intros px py [Hpx Hpy].
    destruct (Z.eqb_spec px x), (Z.eqb_spec py y); cbn [andb]; try reflexivity.
    subst. exfalso.
    assert ((0 <=? x) && (x <? width d) && ((0 <=? y) && (y <? height d)) = true);
      [|congruence].
    repeat (apply andb_true_intro; split);
      first [apply Z.leb_le | apply Z.ltb_lt]; lia.
Qed.

Lemma existsb_py_range (p a b : Z) :
  existsb (Z.eqb p) (py_range a b) = (a <=? p) && (p <? b).
Proof.
  unfold py_range.
  destruct (existsb (Z.eqb p) _) eqn:E.
  - apply existsb_exists in E as (q & Hin & Hq).
    apply in_map_iff in Hin as (k & <- & Hk). apply in_seq in Hk.
    apply Z.eqb_eq in Hq. symmetry. apply andb_true_intro.
    split; [apply Z.leb_le | apply Z.ltb_lt]; lia.
  - destruct (Z.leb_spec a p), (Z.ltb_spec p b); cbn [andb]; try reflexivity.
    assert (existsb (Z.eqb p)
              (map (fun k => a + Z.of_nat k) (seq 0 (Z.to_nat (b - a)))) = true);
      [|congruence].
    apply existsb_exists. exists p. split; [|apply Z.eqb_refl].
    apply in_map_iff. exists (Z.to_nat (p - a)). split; [lia|].
    apply in_seq. lia.
Qed.

(** One row of [fill_rect]. *)
Lemma fill_row_spec (cols : list Z) (row c : Z) (d : RawOLEDDisplay) :
  buffer_ok d ->
  exists d',
    for_each cols (fun px => pixel px row c) d = Done d'
    /\ buffer_ok d' /\ width d' = width d /\ height d' = height d
    /\ (forall px py,
          on_screen d px py ->
          pixel_lit d' px py
          = if (py =? row) && existsb (Z.eqb px) cols
            then truthy c else pixel_lit d px py).
Proof.
  revert d. induction cols as [|a cols IH]; intros d Hok; cbn [for_each existsb].
  - exists d. repeat split; try apply Hok.
    intros px py _. rewrite andb_false_r. reflexivity.
  - destruct (pixel_spec a row c d Hok) as (d1 & -> & Hok1 & Hw1 & Hh1 & Hlit1).
    cbn [and_then].
    destruct (IH d1 Hok1) as (d' & E & Hok' & Hw' & Hh' & Hlit').
    exists d'. split; [exact E|]. split; [exact Hok'|].
    split; [congruence|]. split; [congruence|].
    intros px py Hon.
    rewrite Hlit' by (unfold on_screen in *; rewrite Hw1, Hh1; exact Hon).
    rewrite (Hlit1 px py Hon).
    destruct (py =? row), (px =? a), (existsb (Z.eqb px) cols); reflexivity.
Qed.

Lemma fill_rows_spec (rows cols : list Z) (c : Z) (d : RawOLEDDisplay) :
  buffer_ok d ->
  exists d',
    for_each rows (fun py => for_each cols (fun px => pixel px py c)) d = Done d'
    /\ buffer_ok d' /\ width d' = width d /\ height d' = height d
    /\ (forall px py,
          on_screen d px py ->
          pixel_lit d' px py
          = if existsb (Z.eqb py) rows && existsb (Z.eqb px) cols
            then truthy c else pixel_lit d px py).
Proof.
  revert d. induction rows as [|r rows IH]; intros d Hok; cbn [for_each existsb].
  - exists d. repeat split; try apply Hok.
  - destruct (fill_row_spec cols r c d Hok) as (d1 & -> & Hok1 & Hw1 & Hh1 & Hlit1).
    cbn [and_then].
    destruct (IH d1 Hok1) as (d' & E & Hok' & Hw' & Hh' & Hlit').
    exists d'. split; [exact E|]. split; [exact Hok'|].
    split; [congruence|]. split; [congruence|].
    intros px py Hon.
    rewrite Hlit' by (unfold on_screen in *; rewrite Hw1, Hh1; exact Hon).
    rewrite (Hlit1 px py Hon).
    destruct (py =? r), (existsb (Z.eqb py) rows), (existsb (Z.eqb px) cols);
      reflexivity.
Qed.

(** Membership in the rectangle with corner [(x, y)], width [w] and
    height [h]. *)
Lemma fill_rect_spec (x y w h c : Z) (d : RawOLEDDisplay) :
  buffer_ok d ->
  exists d',
    fill_rect x y w h c d = Done d'
    /\ buffer_ok d' /\ width d' = width d /\ height d' = height d
    /\ (forall px py,
          on_screen d px py ->
          pixel_lit d' px py
          = if in_rect x y w h px py then truthy c else pixel_lit d px py).
Proof.
  intros Hok. unfold fill_rect.
  destruct (fill_rows_spec (py_range y (Z.min (y + h) (height d)))
              (py_range x (Z.min (x + w) (width d))) c d Hok)
    as (d' & E & Hok' & Hw' & Hh' & Hlit).
  exists d'. split; [exact E|]. split; [exact Hok'|].
  split; [exact Hw'|]. split; [exact Hh'|].
  intros px py Hon. rewrite (Hlit px py Hon), !existsb_py_range.
  destruct Hon as [Hpx Hpy]. unfold in_rect.
  replace (py <? Z.min (y + h) (height d)) with (py <? y + h)
    by (destruct (Z.ltb_spec py (y + h)), (Z.ltb_spec py (Z.min (y + h) (height d)));
        try reflexivity; lia).
  replace (px <? Z.min (x + w) (width d)) with (px <? x + w)
    by (destruct (Z.ltb_spec px (x + w)), (Z.ltb_spec px (Z.min (x + w) (width d)));
        try reflexivity; lia).
  destruct (y <=? py), (py <? y + h), (x <=? px), (px <? x + w); reflexivity.
Qed.

End FrameBuffer.

Lemma nth_repeat_in {A} (v d : A) (n i : nat) :
  (i < n)%nat -> nth i (repeat v n) d = v.
Proof.
  revert i. induction n as [|n IH]; intros [|i] H; cbn [repeat nth]; try lia.
  - reflexivity.
  - apply IH. lia.
Qed.

Lemma chunks_concat (n fuel : nat) (data : list Z) :
  (0 < n)%nat -> (length data <= fuel)%nat ->
  concat (chunks fuel n data) = data
  /\ Forall (fun c => (1 <= length c <= n)%nat) (chunks fuel n data)
  /\ length (chunks fuel n data) = ((length data + n - 1) / n)%nat.
Proof.
  intros Hn. revert data. induction fuel as [|fuel IH]; intros data Hlen.
  - destruct data; [|cbn in Hlen; lia]. cbn [chunks concat length].
    repeat split; [constructor|].
    symmetry. apply Nat.div_small. lia.
  - cbn [chunks]. destruct data as [|a data'] eqn:Hd.
    + cbn [concat length]. repeat split; [constructor|].
      symmetry. apply Nat.div_small. lia.
    + rewrite <- Hd in *. assert (Hpos : (0 < length data)%nat) by (rewrite Hd; cbn; lia).
      assert (Hskip : length (skipn n data) = (length data - n)%nat)
        by apply length_skipn.
      destruct (IH (skipn n data)) as (Hc & Hf & Hl); [lia|].
      cbn [concat length]. rewrite Hc, firstn_skipn, Hl, Hskip.
      split; [reflexivity|]. split.
      * constructor; [|exact Hf]. rewrite length_firstn. lia.
      * destruct (Nat.le_gt_cases (length data) n) as [Hle|Hgt].
        -- replace (length data - n)%nat with O by lia.
           replace ((0 + n - 1) / n)%nat with O by (symmetry; apply Nat.div_small; lia).
           apply (Nat.div_unique _ n 1 (length data - 1)); lia.
        -- replace (length data + n - 1)%nat
             with ((length data - n + n - 1) + 1 * n)%nat by lia.
           rewrite Nat.div_add by lia. lia.
Qed.

(** X4. [pixel] on a buffer that matches the geometry always returns
    and keeps the buffer well-formed; it gives the pixel it names the
    colour's truth value and leaves every other on-screen pixel as it
    was; outside the screen it changes nothing at all. *)
Theorem X4_pixel_sets_one_pixel (x y c : Z) (d : RawOLEDDisplay) :
  buffer_ok d ->
  (exists d',
      pixel x y c d = Done d'
      /\ buffer_ok d' /\ width d' = width d /\ height d' = height d
      /\ (forall px py,
            on_screen d px py ->
            pixel_lit d' px py
            = if (px =? x) && (py =? y) then truthy c else pixel_lit d px py))
  /\ (~ on_screen d x y -> pixel x y c d = Done d).
Proof.
  intros Hok. split; [apply pixel_spec, Hok|].
  intros Hoff. unfold pixel.
  destruct ((0 <=? x) && (x <? width d) && ((0 <=? y) && (y <? height d))) eqn:Hon;
    [|reflexivity].
  exfalso. apply Hoff.
  apply andb_prop in Hon as [H1 H2].
  apply andb_prop in H1 as [H1 H1']. apply andb_prop in H2 as [H2 H2'].
  unfold on_screen. lia.
Qed.

Lemma Display_init_ok : buffer_ok (Display_init 128 64 60).
Proof.
  unfold buffer_ok. cbn [width height buffer Display_init].
  repeat split; try lia; try reflexivity.
  apply Forall_forall. intros b Hb. apply repeat_spec in Hb. lia.
Qed.

Lemma X4_pixel_sets_one_pixel_witness :
  exists d',
    pixel 5 9 1 (Display_init 128 64 60) = Done d'
    /\ pixel_lit d' 5 9 = true /\ pixel_lit d' 5 8 = false.
Proof.
  destruct (proj1 (X4_pixel_sets_one_pixel 5 9 1 _ Display_init_ok))
    as (d' & E & _ & _ & _ & H).
  exists d'. split; [exact E|]. split.
  - rewrite H by (unfold on_screen; cbn; lia). reflexivity.
  - rewrite H by (unfold on_screen; cbn; lia). vm_compute. reflexivity.
Defined.

(** X5. [fill] keeps the buffer's length and makes every on-screen
    pixel of a well-formed buffer the colour's truth value. *)
Theorem X5_fill_sets_every_pixel (c : Z) (d : RawOLEDDisplay) :
  buffer_ok d ->
  buffer_ok (fill c d)
  /\ forall px py, on_screen d px py -> pixel_lit (fill c d) px py = truthy c.
Proof.
  intros (Hw & Hh & Hh8 & Hlen & Hbytes). split.
  - unfold buffer_ok, fill. cbn [width height buffer set_buffer].
    rewrite repeat_length. repeat split; try assumption.
    apply Forall_forall. intros b Hb. apply repeat_spec in Hb. subst b.
    destruct (truthy c); lia.
  - intros px py [Hpx Hpy]. unfold pixel_lit, fill. cbn [width buffer set_buffer].
    pose proof (index_in_buffer (width d) (height d) px py Hw Hh8 Hpx Hpy) as Hidx.
    rewrite nth_repeat_in by lia.
    assert (Hbit : 0 <= py mod 8 < 8) by (apply Z.mod_pos_bound; lia).
    destruct (truthy c).
    + change 255 with (Z.ones 8). apply Z.ones_spec_low. lia.
    + apply Z.bits_0.
Qed.

Lemma X5_fill_sets_every_pixel_witness :
  pixel_lit (fill 1 (Display_init 128 64 60)) 127 63 = true.
Proof.
  apply (proj2 (X5_fill_sets_every_pixel 1 _ Display_init_ok)).
  unfold on_screen. cbn. lia.
Defined.

(** X6. [fill_rect] on a well-formed buffer returns and paints exactly
    the part of the rectangle that is on the screen: every on-screen
    pixel inside [x <= px < x + w], [y <= py < y + h] gets the colour,
    every other on-screen pixel keeps its value (a rectangle that
    starts off-screen or has no area paints what overlaps, possibly
    nothing). *)
Theorem X6_fill_rect_paints_clipped_rectangle (x y w h c : Z) (d : RawOLEDDisplay) :
  buffer_ok d ->
  exists d',
    fill_rect x y w h c d = Done d'
    /\ buffer_ok d' /\ width d' = width d /\ height d' = height d
    /\ (forall px py,
          on_screen d px py ->
          pixel_lit d' px py
          = if in_rect x y w h px py then truthy c else pixel_lit d px py).
Proof. apply fill_rect_spec. Qed.

Lemma X6_fill_rect_paints_clipped_rectangle_witness :
  exists d',
    fill_rect 120 60 20 20 1 (Display_init 128 64 60) = Done d'
    /\ pixel_lit d' 127 63 = true /\ pixel_lit d' 119 63 = false.
Proof.
  destruct (X6_fill_rect_paints_clipped_rectangle 120 60 20 20 1 _ Display_init_ok)
    as (d' & E & _ & _ & _ & H).
  exists d'. split; [exact E|]. split.
  - rewrite H by (unfold on_screen; cbn; lia). reflexivity.
  - rewrite H by (unfold on_screen; cbn; lia). vm_compute. reflexivity.
Defined.

(** X7. [rect] with positive width and height paints exactly the
    on-screen pixels on the border of the rectangle and leaves its
    interior and the rest of the screen as they were. *)
Theorem X7_rect_paints_border (x y w h c : Z) (d : RawOLEDDisplay) :
  buffer_ok d -> 0 < w -> 0 < h ->
  exists d',
    rect x y w h c d = Done d'
    /\ buffer_ok d'
    /\ (forall px py,
          on_screen d px py ->
          pixel_lit d' px py
          = if in_rect x y w h px py
               && ((px =? x) || (px =? x + w - 1) || (py =? y) || (py =? y + h - 1))
            then truthy c else pixel_lit d px py).
Proof.
  intros Hok Hw Hh. unfold rect.
  destruct (fill_rect_spec x y w 1 c d Hok) as (d1 & -> & Hok1 & Hw1 & Hh1 & L1).
  cbn [and_then].
  destruct (fill_rect_spec x (y + h - 1) w 1 c d1 Hok1)
    as (d2 & -> & Hok2 & Hw2 & Hh2 & L2).
  cbn [and_then].
  destruct (fill_rect_spec x y 1 h c d2 Hok2) as (d3 & -> & Hok3 & Hw3 & Hh3 & L3).
  cbn [and_then].
  destruct (fill_rect_spec (x + w - 1) y 1 h c d3 Hok3)
    as (d4 & -> & Hok4 & Hw4 & Hh4 & L4).
  exists d4. split; [reflexivity|]. split; [exact Hok4|].
  intros px py Hon.
  assert (Hon1 : on_screen d1 px py) by (unfold on_screen in *; rewrite Hw1, Hh1; exact Hon).
  assert (Hon2 : on_screen d2 px py) by (unfold on_screen in *; rewrite Hw2, Hh2; exact Hon1).
  assert (Hon3 : on_screen d3 px py) by (unfold on_screen in *; rewrite Hw3, Hh3; exact Hon2).
  rewrite (L4 px py Hon3), (L3 px py Hon2), (L2 px py Hon1), (L1 px py Hon).
  unfold in_rect.
  destruct (Z.leb_spec x px), (Z.ltb_spec px (x + w)), (Z.leb_spec y py),
    (Z.ltb_spec py (y + h)), (Z.eqb_spec px x), (Z.eqb_spec px (x + w - 1)),
    (Z.eqb_spec py y), (Z.eqb_spec py (y + h - 1));
    cbn [andb orb];
    repeat match goal with
           | |- context [?u <=? ?v] => destruct (Z.leb_spec u v)
           | |- context [?u <? ?v] => destruct (Z.ltb_spec u v)
           end; cbn [andb orb]; try reflexivity; exfalso; lia.
Qed.

Lemma X7_rect_paints_border_witness :
  exists d',
    rect 20 25 25 8 1 (Display_init 128 64 60) = Done d'
    /\ pixel_lit d' 20 30 = true /\ pixel_lit d' 21 30 = false.
Proof.
  destruct (X7_rect_paints_border 20 25 25 8 1 _ Display_init_ok)
    as (d' & E & _ & H); try lia.
  exists d'. split; [exact E|]. split.
  - rewrite H by (unfold on_screen; cbn; lia). reflexivity.
  - rewrite H by (unfold on_screen; cbn; lia). vm_compute. reflexivity.
Defined.

(** X8. The transfer loop of [show] cuts the buffer into consecutive
    slices of at most 16 bytes, none of them empty, ceil(len / 16) in
    number, and sends each after the control byte [0x40]; put end to
    end the slices are the buffer, so the panel receives the frame
    buffer byte for byte.  For a panel of at most 256 columns and 256
    pages the six writes before them address columns [0 .. width - 1]
    and pages [0 .. height / 8 - 1]. *)
Theorem X8_show_sends_whole_buffer (d : RawOLEDDisplay) :
  let data := chunks (length (buffer d)) 16 (buffer d) in
  (exists commands,
      show_writes d = commands ++ map (fun chunk => 64 :: chunk) data
      /\ (1 <= width d <= 256 -> 8 <= height d < 2056 ->
          commands = [[0; 33]; [0; 0]; [0; width d - 1];
                      [0; 34]; [0; 0]; [0; height d / 8 - 1]]))
  /\ concat data = buffer d
  /\ Forall (fun chunk => (1 <= length chunk <= 16)%nat) data
  /\ length data = ((length (buffer d) + 15) / 16)%nat.
Proof.
  intros data.
  destruct (chunks_concat 16 (length (buffer d)) (buffer d)) as (Hc & Hf & Hl);
    try lia.
  split.
  - eexists. split; [reflexivity|]. intros Hw Hh.
    assert (0 <= height d / 8 - 1 <= 255).
    { assert (1 <= height d / 8) by (apply Z.div_le_lower_bound; lia).
      assert (height d / 8 < 257) by (apply Z.div_lt_upper_bound; lia).
      lia. }
    cbn [map concat app]. unfold _send_command.
    replace ((0 <=? width d - 1) && (width d - 1 <=? 255)) with true
      by (symmetry; apply andb_true_iff; split; apply Z.leb_le; lia).
    replace ((0 <=? height d / 8 - 1) && (height d / 8 - 1 <=? 255)) with true
      by (symmetry; apply andb_true_iff; split; apply Z.leb_le; lia).
    reflexivity.
  - split; [exact Hc|]. split; [exact Hf|].
    subst data. rewrite Hl. f_equal. lia.
Qed.

Lemma X8_show_sends_whole_buffer_witness :
  exists commands,
    show_writes (Display_init 128 64 60)
    = commands ++ map (fun chunk => 64 :: chunk)
                      (chunks 1024 16 (buffer (Display_init 128 64 60)))
    /\ commands = [[0; 33]; [0; 0]; [0; 127]; [0; 34]; [0; 0]; [0; 7]].
Proof.
  destruct (X8_show_sends_whole_buffer (Display_init 128 64 60))
    as ((commands & Hs & Hc) & _).
  exists commands. split; [exact Hs|].
  apply Hc; cbn; lia.
Defined.

(** ** Accelerometer adapter *)

Section Clamp.

Lemma SF_not_lt_then_ge (u v : spec_float) :
  u <> S754_nan -> v <> S754_nan ->
  SFltb u v = false -> SFleb v u = true.
Proof.
  unfold SFltb, SFleb.
  destruct u as [s|s| |s m e], v as [s'|s'| |s' m' e'];
    try (destruct s); try (destruct s'); cbn [SFcompare];
    intros Hu Hv; try reflexivity; try discriminate; try contradiction.
  - pose proof (Pos.compare_cont_antisym m m' Eq) as Hp. cbn [CompOpp] in Hp.
    rewrite (Z.compare_antisym e e'), <- Hp.
    destruct (e ?= e'), (Pos.compare_cont Eq m m'); cbn [CompOpp];
      try reflexivity; try discriminate.
  - pose proof (Pos.compare_cont_antisym m m' Eq) as Hp. cbn [CompOpp] in Hp.
    rewrite (Z.compare_antisym e e'), <- Hp.
    destruct (e ?= e'), (Pos.compare_cont Eq m m'); cbn [CompOpp];
      try reflexivity; try discriminate.
Qed.

Lemma Prim2SF_nan_inv (v : float) : Prim2SF v = S754_nan -> v = nan.
Proof. intros H. apply Prim2SF_inj. rewrite H. reflexivity. Qed.

(** A float that is not NaN and not below [c] is at least [c]. *)
Lemma not_flt_then_fle (v c : float) :
  v <> nan -> c <> nan -> flt v c = false -> fle c v = true.
Proof.
  intros Hv Hc. unfold flt, fle. rewrite ltb_spec, leb_spec.
  apply SF_not_lt_then_ge; intros E; [apply Hv | apply Hc];
    apply Prim2SF_nan_inv; exact E.
Qed.

(** [clamp] hands out NaN for NaN and a value within [-20, 20]
    otherwise. *)
Lemma clamp_range (v : float) :
  (v = nan /\ clamp v = nan)
  \/ (fle (-20) (clamp v) = true /\ fle (clamp v) 20 = true).
Proof.
  destruct (Leibniz.eqb v nan) eqn:En.
  - apply Leibniz.eqb_spec in En. subst v. left. split; reflexivity.
  - assert (Hv : v <> nan).
    { intros E. apply Leibniz.eqb_spec in E. congruence. }
    right. unfold clamp, py_min, py_max.
    destruct (flt 20 v) eqn:Hhi.
    + vm_compute. split; reflexivity.
    + destruct (fgt (-20) v) eqn:Hlo.
      * vm_compute. split; reflexivity.
      * split.
        -- apply not_flt_then_fle; [exact Hv | discriminate | exact Hlo].
        -- apply (not_flt_then_fle 20 v); [discriminate | exact Hv | exact Hhi].
Qed.

End Clamp.

Lemma fmul_nan_r (a : float) : (a * nan)%float = nan.
Proof.
  apply Prim2SF_nan_inv. rewrite mul_spec.
  change (Prim2SF nan) with S754_nan. unfold SF64mul, SFmul.
  destruct (Prim2SF a); reflexivity.
Qed.

Lemma fadd_nan_r (a : float) : (a + nan)%float = nan.
Proof.
  apply Prim2SF_nan_inv. rewrite add_spec.
  change (Prim2SF nan) with S754_nan. unfold SF64add, SFadd.
  destruct (Prim2SF a); reflexivity.
Qed.

(** X9. Every component [acceleration] hands out is within [-20, 20]
    or is NaN (the clamp passes NaN through); when the sensor read
    raises, the reading is (0, 0, 0) and the filter memory is not
    touched. *)
Theorem X9_acceleration_bounded (raw : option (float * float * float))
    (c : CalibratedAccel) :
  let in_range v := v = nan \/ (fle (-20) v = true /\ fle v 20 = true) in
  let '((ax, ay, az), c') := acceleration raw c in
  in_range ax /\ in_range ay /\ in_range az
  /\ (raw = None -> (ax, ay, az) = (0, 0, 0)%float /\ c' = c).
Proof.
  assert (R : forall v, clamp v = nan
                        \/ (fle (-20) (clamp v) = true /\ fle (clamp v) 20 = true)).
  { intros v. destruct (clamp_range v) as [[_ H]|H]; auto. }
  destruct raw as [[[rx ry] rz]|]; cbn [acceleration]; cbv zeta.
  - split; [apply R|]. split; [apply R|]. split; [apply R|]. discriminate.
  - split; [right; vm_compute; split; reflexivity|].
    split; [right; vm_compute; split; reflexivity|].
    split; [right; vm_compute; split; reflexivity|].
    intros _. split; reflexivity.
Qed.

(** X10. Once the filter memory of an axis holds NaN, every later
    successful read hands out NaN for that axis and leaves NaN in the
    memory, whatever the sensor reports; and a NaN on the Y axis never
    creates a pending gesture in [_update_inputs]. *)
Theorem X10_filter_nan_sticks (c : CalibratedAccel) (raw_x raw_y raw_z : float) :
  filtered_y c = nan ->
  let '((_, ay, _), c') := acceleration (Some (raw_x, raw_y, raw_z)) c in
  ay = nan /\ filtered_y c' = nan
  /\ forall now ax az g,
       accel_action_pending (inputs_accel_detect now (Some (ax, ay, az)) g)
       = accel_action_pending g.
Proof.
  intros Hnan. cbn [acceleration filtered_y]. rewrite Hnan, fmul_nan_r, fadd_nan_r.
  split; [reflexivity|]. split; [reflexivity|].
  intros now ax az g. unfold inputs_accel_detect.
  destruct (fgt _ _); [|reflexivity].
  change (clamp nan) with nan. cbv zeta.
  change (fgt nan 2) with false. change (flt nan (PrimFloat.opp 2)) with false.
  reflexivity.
Qed.

Lemma X10_filter_nan_sticks_witness :
  let c := mkAccel 0 0 0 0x1.999999999999ap-3 0 nan 0 in
  let '((_, ay, _), c') := acceleration (Some (0, 5, 0)%float) c in
  ay = nan /\ filtered_y c' = nan.
Proof.
  pose proof (X10_filter_nan_sticks (mkAccel 0 0 0 0x1.999999999999ap-3 0 nan 0)
                0 5 0 eq_refl) as H.
  cbv zeta. destruct (acceleration _ _) as [[[ax ay] az] c'].
  destruct H as (H1 & H2 & _). auto.
Defined.

(** ** Rotary encoder *)


Lemma position_get_cases (clk_val dt_val : option bool) (e : ManualEncoder) :
  clk e = true -> dt e = true ->
  position_get clk_val dt_val e = (None, e)
  \/ exists e',
      position_get clk_val dt_val e = (Some (_position e'), e')
      /\ (_position e' = _position e
          \/ _position e' = _position e + 1
          \/ _position e' = _position e - 1).
Proof.
  intros Hc Hd. unfold position_get. rewrite Hc, Hd. cbn [negb orb].
  destruct clk_val as [cv|], dt_val as [dv|]; auto.
  right.
  match goal with |- exists e', (Some _, ?X) = _ /\ _ => exists X end.
  split; [reflexivity|]. cbn [_position].
  destruct (_last_clk e) as [[|]|], (_last_dt e) as [ld|], cv, dv;
    cbn [andb negb]; auto.
Qed.

Lemma _update_level_index_in_range (g : Game) :
  0 <= current_difficulty_index g < 3 ->
  exists tag,
    nth_error DIFFICULTY_NAMES (Z.to_nat (current_difficulty_index g)) = Some tag
    /\ _update_level_index_from_difficulty g
       = Done (set_current_level_index (DIFFICULTY_LEVELS tag) g).
Proof.
  intros Hi. unfold _update_level_index_from_difficulty, py_index.
  change (Z.of_nat (length DIFFICULTY_NAMES)) with 3.
  destruct (Z.ltb_spec (current_difficulty_index g) 3); [|lia].
  destruct (Z.leb_spec 0 (current_difficulty_index g)); [|lia].
  assert (Hc : (Z.to_nat (current_difficulty_index g) = 0
                \/ Z.to_nat (current_difficulty_index g) = 1
                \/ Z.to_nat (current_difficulty_index g) = 2)%nat) by lia.
  destruct Hc as [-> | [-> | ->]]; eexists; split; reflexivity.
Qed.

(** The encoder part of the menu tick for a delta of one step. *)
Lemma menu_encoder_one_step (p : Z) (up : bool) (g : Game) :
  0 <= current_difficulty_index g < 3 ->
  let p' := if up then last_encoder_position g + 1 else last_encoder_position g - 1 in
  let i' := (current_difficulty_index g + (if up then 1 else -1)) mod 3 in
  exists tag,
    nth_error DIFFICULTY_NAMES (Z.to_nat i') = Some tag
    /\ menu_encoder (enc_position p') g
       = set_last_encoder_position p'
           (set_current_level_index (DIFFICULTY_LEVELS tag)
              (_play_sound snd_menu_move (set_current_difficulty_index i' g))).
Proof.
  intros Hi p' i'.
  assert (Hi' : 0 <= i' < 3) by (apply Z.mod_pos_bound; lia).
  destruct (_update_level_index_in_range
              (_play_sound snd_menu_move (set_current_difficulty_index i' g)) Hi')
    as (tag & Hn & Hupd).
  exists tag. split; [exact Hn|].
  unfold menu_encoder. subst p'.
  change (Z.of_nat (length DIFFICULTY_NAMES)) with 3.
  destruct up.
  - replace (last_encoder_position g + 1 =? last_encoder_position g) with false
      by (symmetry; apply Z.eqb_neq; lia).
    replace (last_encoder_position g + 1 - last_encoder_position g) with 1 by lia.
    cbn [negb]. change (Z.abs 1 <=? 100) with true. change (1 >? 0) with true.
    cbv iota. fold i'. rewrite Hupd. reflexivity.
  - replace (last_encoder_position g - 1 =? last_encoder_position g) with false
      by (symmetry; apply Z.eqb_neq; lia).
    replace (last_encoder_position g - 1 - last_encoder_position g) with (-1) by lia.
    cbn [negb]. change (Z.abs (-1) <=? 100) with true.
    change (-1 >? 0) with false. change (-1 <? 0) with true.
    cbv iota. replace (current_difficulty_index g - 1)
      with (current_difficulty_index g + -1) by lia.
    fold i'. rewrite Hupd. reflexivity.
Qed.

(** X12. On the menu, with the manual encoder read once per tick and
    the game's last-seen position equal to the encoder's count, every
    delta the game sees is -1, 0 or +1: the sanity bound never
    discards, the difficulty index moves by exactly that delta modulo 3
    and stays within the table, the selected level follows it, and the
    last-seen position stays equal to the count. *)
Theorem X12_menu_follows_encoder (clk_val dt_val : option bool)
    (e : ManualEncoder) (g : Game) :
  clk e = true -> dt e = true ->
  last_encoder_position g = _position e ->
  0 <= current_difficulty_index g < 3 ->
  let '(r, e') := position_get clk_val dt_val e in
  let g' := menu_encoder (encoder_read_of r) g in
  last_encoder_position g' = _position e'
  /\ current_difficulty_index g'
     = (current_difficulty_index g + (_position e' - _position e)) mod 3
  /\ 0 <= current_difficulty_index g' < 3
  /\ (_position e' <> _position e ->
      exists tag,
        nth_error DIFFICULTY_NAMES (Z.to_nat (current_difficulty_index g')) = Some tag
        /\ current_level_index g' = DIFFICULTY_LEVELS tag).
Proof.
  intros Hc Hd Hsync Hidx.
  destruct (position_get_cases clk_val dt_val e Hc Hd)
    as [-> | (e' & -> & Hstep)].
  - cbn [encoder_read_of menu_encoder]. rewrite Z.sub_diag, Z.add_0_r.
    rewrite Z.mod_small by lia. repeat split; try lia; try assumption;
      intros H; contradiction.
  - cbn [encoder_read_of].
    set (p := _position e) in *. set (p' := _position e') in *.
    destruct Hstep as [E | [E | E]]; rewrite E.
    + unfold menu_encoder. rewrite Hsync, Z.eqb_refl. cbn [negb].
      rewrite Z.sub_diag, Z.add_0_r.
      rewrite Z.mod_small by lia. repeat split; try lia; try assumption;
        intros H; contradiction.
    + destruct (menu_encoder_one_step p true g Hidx) as (tag & Hn & Hm).
      cbv zeta in Hn, Hm. rewrite Hsync in Hm. rewrite Hm.
      cbn [last_encoder_position set_last_encoder_position current_difficulty_index
           set_current_level_index _play_sound set_sound_requests
           set_current_difficulty_index current_level_index].
      replace (p + 1 - p) with 1 by lia.
      split; [reflexivity|]. split; [reflexivity|].
      split; [apply Z.mod_pos_bound; lia|].
      intros _. exists tag. split; [exact Hn | reflexivity].
    + destruct (menu_encoder_one_step p false g Hidx) as (tag & Hn & Hm).
      cbv zeta in Hn, Hm. rewrite Hsync in Hm. rewrite Hm.
      cbn [last_encoder_position set_last_encoder_position current_difficulty_index
           set_current_level_index _play_sound set_sound_requests
           set_current_difficulty_index current_level_index].
      replace (p - 1 - p) with (-1) by lia.
      split; [reflexivity|]. split; [reflexivity|].
      split; [apply Z.mod_pos_bound; lia|].
      intros _. exists tag. split; [exact Hn | reflexivity].
Qed.

Lemma X12_menu_follows_encoder_witness :
  let e := mkEncoder true true 0 (Some true) (Some true) in
  let g := Game_init 0 in
  let '(r, e') := position_get (Some false) (Some true) e in
  let g' := menu_encoder (encoder_read_of r) g in
  last_encoder_position g' = _position e'
  /\ current_difficulty_index g' = 1
  /\ current_level_index g' = 4.
Proof.
  pose proof (X12_menu_follows_encoder (Some false) (Some true)
                (mkEncoder true true 0 (Some true) (Some true)) (Game_init 0)
                eq_refl eq_refl eq_refl) as H.
  cbv zeta in *. destruct (position_get _ _ _) as [r e'] eqn:E.
  destruct H as (H1 & _); [cbn; lia|].
  split; [exact H1|].
  injection E as <- <-. vm_compute. split; reflexivity.
Defined.

(** X13. While playing, with the manual encoder read once per tick and
    the last-seen position equal to the count, one falling CLK edge
    gives exactly one pending action: [rotate_right] when the count
    went up, [rotate_left] when it went down, due [RESPONSE_DELAY] after
    the tick, replacing whatever was pending; a tick without an edge
    leaves the pending action alone; and the last-seen position stays
    equal to the count. *)
Theorem X13_playing_follows_encoder (now : float) (clk_val dt_val : option bool)
    (e : ManualEncoder) (g : Game) :
  clk e = true -> dt e = true ->
  last_encoder_position g = _position e ->
  state g = PLAYING ->
  let '(r, e') := position_get clk_val dt_val e in
  let g' := inputs_encoder_detect now (encoder_read_of r) g in
  last_encoder_position g' = _position e'
  /\ encoder_action_pending g'
     = if _position e' =? _position e + 1
       then Some (rotate_right, (now + RESPONSE_DELAY)%float)
       else if _position e' =? _position e - 1
       then Some (rotate_left, (now + RESPONSE_DELAY)%float)
       else encoder_action_pending g.
Proof.
  intros Hc Hd Hsync Hst.
  destruct (position_get_cases clk_val dt_val e Hc Hd)
    as [-> | (e' & -> & Hstep)].
  - cbn [encoder_read_of]. unfold inputs_encoder_detect. rewrite Hst.
    cbn [GameState_eqb andb]. rewrite Z.eqb_refl. cbn [negb].
    split; [exact Hsync|].
    replace (_position e =? _position e + 1) with false
      by (symmetry; apply Z.eqb_neq; lia).
    replace (_position e =? _position e - 1) with false
      by (symmetry; apply Z.eqb_neq; lia).
    reflexivity.
  - cbn [encoder_read_of]. unfold inputs_encoder_detect. rewrite Hst.
    cbn [GameState_eqb andb].
    set (p := _position e) in *. set (p' := _position e') in *.
    destruct Hstep as [E | [E | E]]; rewrite E, Hsync.
    + rewrite Z.eqb_refl. cbn [negb].
      replace (p =? p + 1) with false by (symmetry; apply Z.eqb_neq; lia).
      replace (p =? p - 1) with false by (symmetry; apply Z.eqb_neq; lia).
      split; [exact Hsync | reflexivity].
    + replace (p + 1 =? p) with false by (symmetry; apply Z.eqb_neq; lia).
      replace (p + 1 - p) with 1 by lia. rewrite Z.eqb_refl. cbn. auto.
    + replace (p - 1 =? p) with false by (symmetry; apply Z.eqb_neq; lia).
      replace (p - 1 - p) with (-1) by lia.
      replace (p - 1 =? p + 1) with false by (symmetry; apply Z.eqb_neq; lia).
      rewrite Z.eqb_refl. cbn. auto.
Qed.

Lemma X13_playing_follows_encoder_witness :
  let e := mkEncoder true true 0 (Some true) (Some true) in
  let g := state_of (start_level 0 0 (Game_init 0)) in
  let '(r, e') := position_get (Some false) (Some false) e in
  let g' := inputs_encoder_detect 10 (encoder_read_of r) g in
  last_encoder_position g' = -1
  /\ encoder_action_pending g' = Some (rotate_left, (10 + RESPONSE_DELAY)%float).
Proof.
  pose proof (X13_playing_follows_encoder 10 (Some false) (Some false)
                (mkEncoder true true 0 (Some true) (Some true))
                (state_of (start_level 0 0 (Game_init 0)))
                eq_refl eq_refl eq_refl eq_refl) as H.
  cbv zeta in *. destruct (position_get _ _ _) as [r e'] eqn:E.
  destruct H as (H1 & H2). injection E as <- <-.
  split; [exact H1 | exact H2].
Defined.

(** ** Session invariant *)

Section SessionInvariant.

(** [update] returns on a well-formed apple, keeps it well-formed and
    never touches [sliced]. *)
Lemma Apple_update_ok (a : Apple) (t : float) :
  apple_ok a = true ->
  exists a', Apple_update a t = Done a' /\ apple_ok a' = true /\ sliced a' = sliced a.
Proof.
  unfold apple_ok, Apple_update, set_position, set_entered, set_expired,
    _is_in_invalid_region.
  destruct a as [sd sp st sl en et ex p0 tp dir ax ay ea].
  cbn [sliced expired entered_valid_zone valid_zone_entry_time x y].
  destruct sl, ex, en, et as [t0|]; cbn [orb andb negb implb Bool.eqb];
    intros H; try discriminate H;
    repeat (cbn [and_then negb spawn_direction a_speed start_time sliced
                 entered_valid_zone valid_zone_entry_time expired start_pos
                 target_pos direction x y expected_action];
            match goal with
            | |- context [in_invalid_region_at ?u ?v] =>
                destruct (in_invalid_region_at u v)
            | |- context [fgt ?u ?v] => destruct (fgt u v)
            | |- context [off_screen_at ?u ?v] => destruct (off_screen_at u v)
            end);
    cbn [and_then negb spawn_direction a_speed start_time sliced
         entered_valid_zone valid_zone_entry_time expired start_pos
         target_pos direction x y expected_action];
    eexists; (split; [reflexivity|]); split; reflexivity.
Qed.

Lemma update_all_ok (l : list Apple) (t : float) :
  Forall (fun a => apple_ok a = true) l ->
  exists l', update_all l t = Done l'
    /\ Forall (fun a => apple_ok a = true) l'
    /\ count_sliced l' = count_sliced l
    /\ length l' = length l.
Proof.
  induction 1 as [|a l Ha _ IH]; cbn [update_all].
  - exists []. repeat split. constructor.
  - destruct (Apple_update_ok a t Ha) as (a' & -> & Hok & Hs).
    destruct IH as (l' & -> & Hall & Hc & Hlen).
    exists (a' :: l'). split; [reflexivity|].
    split; [constructor; assumption|].
    unfold count_sliced in *. cbn [filter length]. rewrite Hs.
    destruct (sliced a); cbn [length]; lia.
Qed.

Lemma spawned_ok (rnd : nat -> SpawnDirection) (g : Game) (lvl : Level) (from k : nat) :
  Forall (fun a => apple_ok a = true) (spawned rnd g lvl from k)
  /\ count_sliced (spawned rnd g lvl from k) = 0.
Proof.
  unfold spawned, count_sliced. generalize (seq from k) as idx.
  induction idx as [|i idx [IH1 IH2]]; cbn [map filter length].
  - split; [constructor | reflexivity].
  - split; [constructor; [reflexivity | exact IH1] | exact IH2].
Qed.

Lemma count_sliced_app (l1 l2 : list Apple) :
  count_sliced (l1 ++ l2) = count_sliced l1 + count_sliced l2.
Proof. unfold count_sliced. rewrite filter_app, length_app. lia. Qed.

Lemma cut_loop_ok (adj : float) (action : Action) (l : list Apple) :
  Forall (fun a => apple_ok a = true) l ->
  let '(l', sliced_any) := cut_loop adj action l in
  Forall (fun a => apple_ok a = true) l'
  /\ length l' = length l
  /\ count_sliced l' = (if sliced_any then count_sliced l + 1 else count_sliced l).
Proof.
  induction 1 as [|a l Ha Hl IH]; cbn [cut_loop].
  - repeat split. constructor.
  - destruct (qualifies adj action a) eqn:Hq.
    + apply qualifies_spec in Hq as (Hs & He & Hz & _ & _ & t0 & Ht & _).
      split; [|split; [reflexivity|]].
      * constructor; [|exact Hl].
        unfold apple_ok in *. cbn [set_sliced sliced expired entered_valid_zone
                                    valid_zone_entry_time].
        rewrite He, Hz, Ht. reflexivity.
      * unfold count_sliced. cbn [filter set_sliced sliced length].
        rewrite Hs. lia.
    + destruct (cut_loop adj action l) as [l' any].
      destruct IH as (H1 & H2 & H3).
      split; [constructor; assumption|]. split; [cbn [length]; lia|].
      unfold count_sliced in *. cbn [filter].
      destruct (sliced a); cbn [length]; destruct any; lia.
Qed.

Lemma _check_cut_action_ok (action : Action) (now : float) (g : Game) :
  session_ok g -> session_ok (_check_cut_action action now g).
Proof.
  intros (Hall & Hcount & Hcap).
  pose proof (cut_loop_ok (now - total_pause_time g)%float action (g_apples g) Hall) as H.
  unfold _check_cut_action.
  change (total_pause_time (set_cut_calls (action :: cut_calls g) g))
    with (total_pause_time g).
  change (g_apples (set_cut_calls (action :: cut_calls g) g)) with (g_apples g).
  destruct (cut_loop _ action (g_apples g)) as [l [|]];
    destruct H as (H1 & H2 & H3); cbn [negb andb].
  - unfold session_ok. cbn. rewrite H2. repeat split; try assumption; lia.
  - match goal with |- context [GameState_eqb ?s PLAYING] =>
      destruct (GameState_eqb s PLAYING) end;
      unfold session_ok; cbn; rewrite H2; repeat split; try assumption; lia.
Qed.

(** A state with the same apples and score, and the same level or
    none, is as well-formed. *)
Lemma session_ok_same (g g' : Game) :
  g_apples g' = g_apples g -> sliced_count g' = sliced_count g ->
  current_level g' = current_level g \/ current_level g' = None ->
  session_ok g -> session_ok g'.
Proof.
  intros Ha Hc Hl (H1 & H2 & H3). unfold session_ok. rewrite Ha, Hc.
  repeat split; try assumption.
  intros lvl Hlvl. destruct Hl as [Hl|Hl]; rewrite Hl in Hlvl;
    [apply H3; exact Hlvl | discriminate].
Qed.

Lemma _update_playing_ok (now : float) (rnd : nat -> SpawnDirection) (g : Game) :
  session_ok g -> session_ok (state_of (_update_playing now rnd g)).
Proof.
  intros Hok. unfold _update_playing.
  destruct (current_level g) as [lvl|] eqn:Hl; [|exact Hok].
  destruct (fle _ 0).
  { cbn [state_of]. revert Hok. apply session_ok_same; auto. }
  destruct (apples_to_spawn_at _ _ lvl) as [n|] eqn:Hn; [|exact Hok].
  apply apples_to_spawn_at_cap in Hn as (q & _ & Hn).
  rewrite (spawn_loop_spec rnd _ _ g lvl Hl), Nat.min_id.
  cbn [g_apples set_apples].
  destruct Hok as (Hall & Hcount & Hcap). specialize (Hcap lvl Hl).
  set (k := Z.to_nat (n - Z.of_nat (length (g_apples g)))).
  destruct (spawned_ok rnd g lvl (length (g_apples g)) k) as (Hsp & Hsp0).
  destruct (update_all_ok (g_apples g ++ spawned rnd g lvl (length (g_apples g)) k)
              (now - total_pause_time g)%float) as (l' & -> & Hall' & Hc' & Hlen').
  { apply Forall_app. split; assumption. }
  rewrite count_sliced_app, Hsp0, Z.add_0_r in Hc'.
  rewrite length_app, spawned_length in Hlen'.
  assert (Hres : session_ok (set_apples l' (set_apples
                   (g_apples g ++ spawned rnd g lvl (length (g_apples g)) k) g))).
  { unfold session_ok. cbn [g_apples sliced_count current_level set_apples].
    split; [exact Hall'|]. split; [congruence|].
    intros lvl' Hl'. rewrite Hl in Hl'. injection Hl' as <-.
    rewrite Hlen'. subst k. lia. }
  destruct (fle _ (Z2F 10)); cbn [state_of]; [|exact Hres].
  revert Hres. apply session_ok_same; auto.
Qed.

Lemma levels_nonneg (lvl : Level) : In lvl LEVELS -> 0 <= apples lvl.
Proof.
  intros H. cbn [LEVELS In] in H.
  repeat (destruct H as [<-|H]; [cbn; lia|]). contradiction.
Qed.

Lemma py_index_In {A} (xs : list A) (i : Z) (a : A) :
  py_index xs i = Some a -> In a xs.
Proof.
  unfold py_index. destruct (0 <=? i); [|destruct (0 <=? i + _)];
    try discriminate; apply nth_error_In.
Qed.

Lemma start_level_ok (level_index : Z) (now : float) (g : Game) :
  session_ok g -> session_ok (state_of (start_level level_index now g)).
Proof.
  intros Hok. unfold start_level.
  destruct (level_index >=? _); [exact Hok|].
  destruct (py_index LEVELS level_index) as [lvl|] eqn:Hlvl.
  - cbn [state_of]. unfold session_ok. cbn.
    split; [constructor|]. split; [reflexivity|].
    intros lvl' [= <-]. apply levels_nonneg, (py_index_In _ _ _ Hlvl).
  - cbn [state_of]. revert Hok. apply session_ok_same; auto.
Qed.

Lemma menu_encoder_same (enc : EncoderRead) (g : Game) :
  g_apples (menu_encoder enc g) = g_apples g
  /\ sliced_count (menu_encoder enc g) = sliced_count g
  /\ current_level (menu_encoder enc g) = current_level g.
Proof.
  unfold menu_encoder. destruct enc as [| |p]; auto.
  destruct (negb _); auto.
  destruct (Z.abs _ <=? 100); [|cbn; auto].
  unfold _update_level_index_from_difficulty.
  destruct (_ >? 0); [|destruct (_ <? 0)];
    match goal with |- context [current_difficulty_index ?u <? ?v] =>
      destruct (current_difficulty_index u <? v) end;
    try match goal with |- context [py_index ?u ?v] => destruct (py_index u v) end;
    cbn; auto.
Qed.

Lemma _update_menu_ok (now : float) (enc : EncoderRead) (button : bool)
    (start_now : float) (g : Game) :
  session_ok g -> session_ok (state_of (_update_menu now enc button start_now g)).
Proof.
  intros Hok. unfold _update_menu.
  destruct (menu_encoder_same enc g) as (Ha & Hc & Hl).
  assert (Hok1 : session_ok (menu_encoder enc g))
    by (revert Hok; apply session_ok_same; auto).
  clear Ha Hc Hl Hok. set (g1 := menu_encoder enc g) in *.
  set (g2 := if button && negb (_button_last_state g1)
             then set_button_action_done false (set_button_press_start_time now g1)
             else g1).
  assert (Hok2 : session_ok g2).
  { subst g2. destruct (_ && _); [|exact Hok1].
    revert Hok1. apply session_ok_same; auto. }
  clearbody g2. clear Hok1 g1.
  assert (Hfin : forall g3, session_ok g3 ->
            session_ok (state_of
              (Done (set_button_last_state button
                 (if negb button && _button_last_state g3
                  then set_button_press_start_time 0%float
                         (set_button_action_done false g3)
                  else g3))))).
  { intros g3 H3. cbn [state_of]. destruct (_ && _);
      revert H3; apply session_ok_same; auto. }
  destruct (button && fgt (_button_press_start_time g2) 0);
    [|cbn [and_then]; apply Hfin, Hok2].
  destruct (negb (_button_action_done g2)); [|cbn [and_then]; apply Hfin, Hok2].
  destruct (fge _ 1); [|cbn [and_then]; apply Hfin, Hok2].
  destruct (GameState_eqb (state g2) MENU && _).
  - pose proof (start_level_ok (current_level_index g2) start_now g2 Hok2) as Hs.
    destruct (start_level (current_level_index g2) start_now g2) as [g3|g3];
      cbn [and_then state_of] in *.
    + apply (Hfin (set_button_action_done true g3)).
      revert Hs. apply session_ok_same; auto.
    + exact Hs.
  - cbn [and_then]. apply (Hfin (set_button_action_done true g2)).
    revert Hok2. apply session_ok_same; auto.
Qed.

Lemma _update_game_over_same (now : float) (button : bool) (g : Game) :
  let g' := state_of (_update_game_over now button g) in
  g_apples g' = g_apples g /\ sliced_count g' = sliced_count g
  /\ (current_level g' = current_level g \/ current_level g' = None).
Proof.
  unfold _update_game_over.
  destruct (_game_over_button_last_state g) as [b|];
    destruct (_game_over_button_press_time g) as [p|];
    cbn [_game_over_button_last_state _game_over_button_press_time
         set_game_over_button_last_state set_game_over_button_press_time];
    repeat match goal with
           | |- context [if ?c then _ else _] =>
               lazymatch c with
               | context [if _ then _ else _] => fail
               | _ => destruct c
               end;
               cbn [_game_over_button_last_state _game_over_button_press_time
                    set_game_over_button_last_state set_game_over_button_press_time
                    and_then state_of]
           end;
    cbn; auto.
Qed.

Lemma _update_game_over_ok (now : float) (button : bool) (g : Game) :
  session_ok g -> session_ok (state_of (_update_game_over now button g)).
Proof.
  destruct (_update_game_over_same now button g) as (Ha & Hc & Hl).
  apply session_ok_same; assumption.
Qed.

Lemma _update_inputs_ok (now : float) (i : Inputs) (g : Game) :
  session_ok g -> session_ok (_update_inputs now i g).
Proof.
  intros Hok. unfold _update_inputs.
  assert (H1 : session_ok (inputs_encoder_detect now (in_encoder i) g)).
  { unfold inputs_encoder_detect.
    destruct (_ && _); [|exact Hok]. destruct (negb _); [|exact Hok].
    destruct (_ && _); [|exact Hok].
    destruct (_ >? 0); revert Hok; apply session_ok_same; auto. }
  set (g1 := inputs_encoder_detect now (in_encoder i) g) in *.
  assert (H2 : session_ok (inputs_encoder_fire now (in_cut_clock_encoder i) g1)).
  { unfold inputs_encoder_fire.
    destruct (encoder_action_pending g1) as [[a t]|]; [|exact H1].
    destruct (fge now t); [|exact H1].
    destruct (GameState_eqb (state g1) PLAYING).
    - pose proof (_check_cut_action_ok a (in_cut_clock_encoder i) g1 H1) as H.
      revert H. apply session_ok_same; auto.
    - revert H1. apply session_ok_same; auto. }
  set (g2 := inputs_encoder_fire now (in_cut_clock_encoder i) g1) in *.
  assert (H4 : session_ok
                 (inputs_accel_fire now (in_cut_clock_accel i)
                    (inputs_accel_detect now (in_acceleration i) g2))).
  { assert (H3 : session_ok (inputs_accel_detect now (in_acceleration i) g2)).
    { unfold inputs_accel_detect.
      destruct (fgt _ _); [|exact H2].
      destruct (in_acceleration i) as [[[ax ay] az]|]; [|exact H2].
      cbv zeta. destruct (_ && _); [|destruct (_ && _)];
        revert H2; apply session_ok_same; auto. }
    set (g3 := inputs_accel_detect now (in_acceleration i) g2) in *.
    unfold inputs_accel_fire.
    destruct (accel_action_pending g3) as [[a t]|]; [|exact H3].
    destruct (fge now t); [|exact H3].
    destruct (GameState_eqb (state g3) PLAYING).
    - pose proof (_check_cut_action_ok a (in_cut_clock_accel i) g3 H3) as H.
      revert H. apply session_ok_same; auto.
    - revert H3. apply session_ok_same; auto. }
  destruct (in_power_switch i) as [| |[|]]; assumption.
Qed.

Lemma draw_session_ok (draws : bool) (g : Game) :
  session_ok g -> session_ok (draw_session draws g).
Proof.
  unfold draw_session. destruct draws; cbn [negb]; [|auto].
  destruct (current_level g) eqn:Hl; cbn [state set_state current_level];
    destruct (state g); try rewrite Hl;
    apply session_ok_same; cbn; auto.
Qed.

(** [_update_leds] leaves the session alone or ends a flash. *)
Lemma _update_leds_session (current_time : float) (pixels_ok : bool)
    (g : Game) (l : LedAttrs) :
  fst (fst (_update_leds current_time pixels_ok g l)) = g
  \/ fst (fst (_update_leds current_time pixels_ok g l)) = set_led_state playing g.
Proof.
  unfold _update_leds.
  destruct (led_state g); try (destruct pixels_ok; cbn [fst]; auto; fail).
  - destruct (flt _ _); [auto|]. destruct pixels_ok; [|auto].
    destruct (fgt _ _); cbn [fst]; auto.
  - destruct (flt _ _); [auto|]. destruct pixels_ok; [|auto].
    destruct (fgt _ _); cbn [fst]; auto.
  - destruct (int _); cbn [fst]; auto.
Qed.

Lemma session_step_ok (g g' : Game) :
  session_ok g -> session_step g g' -> session_ok g'.
Proof.
  intros Hok Hstep. destruct Hstep.
  - apply start_level_ok, Hok.
  - apply _update_menu_ok, Hok.
  - apply _update_playing_ok, Hok.
  - apply _update_game_over_ok, Hok.
  - apply _update_inputs_ok, Hok.
  - apply _check_cut_action_ok, Hok.
  - destruct (_update_leds_session current_time pixels_ok g l) as [-> | ->];
      [exact Hok | revert Hok; apply session_ok_same; auto].
  - apply draw_session_ok, Hok.
  - exact Hok.
  - exact Hok.
Qed.

Lemma Game_init_ok (now : float) : session_ok (Game_init now).
Proof.
  unfold session_ok. cbn. repeat split; [constructor | discriminate].
Qed.

Lemma reachable_ok (g : Game) : reachable g -> session_ok g.
Proof.
  induction 1 as [now | g g' _ IH Hstep].
  - apply Game_init_ok.
  - exact (session_step_ok g g' IH Hstep).
Qed.

Lemma count_sliced_le_length (l : list Apple) :
  0 <= count_sliced l <= Z.of_nat (length l).
Proof.
  unfold count_sliced. pose proof (filter_length_le sliced l). lia.
Qed.

End SessionInvariant.

(** X14. The session invariant -- every apple has its entry time
    exactly when its zone flag is set, is never both sliced and expired
    and is sliced only after entering; the slice count is the number of
    sliced apples; an active level holds at most its target of apples --
    holds for a new [Game] and is kept by every session method, for any
    clock values, sensor values and random draws. *)
Theorem X14_session_invariant :
  (forall now, session_ok (Game_init now))
  /\ (forall g g', session_ok g -> session_step g g' -> session_ok g').
Proof.
  split; [exact Game_init_ok | exact session_step_ok].
Qed.

(** X15. In every session a run of calls can reach, the slice count
    lies between 0 and the number of apples spawned, and with an active
    level neither exceeds the level's apple target: the score shown as
    "sliced/total" never passes the total. *)
Theorem X15_score_bounded (g : Game) :
  reachable g ->
  0 <= sliced_count g <= Z.of_nat (length (g_apples g))
  /\ (forall lvl, current_level g = Some lvl ->
        Z.of_nat (length (g_apples g)) <= apples lvl
        /\ sliced_count g <= apples lvl).
Proof.
  intros Hr. destruct (reachable_ok g Hr) as (_ & Hc & Hcap).
  pose proof (count_sliced_le_length (g_apples g)) as Hb.
  rewrite Hc. split; [exact Hb|].
  intros lvl Hl. specialize (Hcap lvl Hl). lia.
Qed.

Lemma X15_score_bounded_witness :
  let g := _check_cut_action forward 2
             (state_of (_update_playing 1 (fun _ => Top)
                (state_of (start_level 0 0 (Game_init 0))))) in
  0 <= sliced_count g <= Z.of_nat (length (g_apples g)).
Proof.
  apply X15_score_bounded.
  eapply reach_step; [|apply step_check_cut_action].
  eapply reach_step; [|apply step_update_playing].
  eapply reach_step; [|apply (step_start_level 0 0)].
  apply reach_init.
Defined.

(** X16. On a well-formed session with an active level, a tick of
    [_update_playing] returns normally whenever the level's time is up
    or the spawn target can be computed: no apple of the session makes
    [Apple.update] raise. *)
Theorem X16_update_playing_returns (now : float) (rnd : nat -> SpawnDirection)
    (g : Game) (lvl : Level) :
  session_ok g ->
  current_level g = Some lvl ->
  let elapsed := ((now - total_pause_time g) - game_start_time g)%float in
  fle (Z2F (time lvl) - elapsed) 0 = true
  \/ apples_to_spawn_at elapsed (apple_spawn_interval g) lvl <> None ->
  exists g', _update_playing now rnd g = Done g'.
Proof.
  intros (Hall & _ & _) Hl elapsed Hcase. unfold _update_playing.
  fold elapsed. rewrite Hl.
  destruct (fle (Z2F (time lvl) - elapsed) 0) eqn:Hrem; [eauto|].
  destruct Hcase as [Hc|Hc]; [discriminate|].
  destruct (apples_to_spawn_at elapsed (apple_spawn_interval g) lvl) as [n|];
    [|contradiction].
  rewrite (spawn_loop_spec rnd _ _ g lvl Hl), Nat.min_id.
  cbn [g_apples set_apples].
  set (k := Z.to_nat (n - Z.of_nat (length (g_apples g)))).
  destruct (spawned_ok rnd g lvl (length (g_apples g)) k) as (Hsp & _).
  destruct (update_all_ok (g_apples g ++ spawned rnd g lvl (length (g_apples g)) k)
              (now - total_pause_time g)%float) as (l' & -> & _).
  { apply Forall_app. split; assumption. }
  destruct (fle _ (Z2F 10)); eauto.
Qed.

Lemma X16_update_playing_returns_witness :
  exists g',
    _update_playing 1 (fun _ => Top) (state_of (start_level 0 0 (Game_init 0)))
    = Done g'.
Proof.
  apply (X16_update_playing_returns 1 (fun _ => Top)
           (state_of (start_level 0 0 (Game_init 0))) level0).
  - apply start_level_ok, Game_init_ok.
  - reflexivity.
  - right. vm_compute. discriminate.
Defined.


(** ** Edge behaviour of the session methods *)

(** A float less itself is [+0] or NaN. *)
Lemma fsub_diag (v : float) : (v - v)%float = 0%float \/ (v - v)%float = nan.
Proof.
  assert (H : Prim2SF (v - v) = S754_zero false \/ Prim2SF (v - v) = S754_nan).
  { rewrite sub_spec. unfold SF64sub, SFsub.
    destruct (Prim2SF v) as [s|s| |s m e]; try (destruct s); auto.
    - rewrite Z.sub_diag. left. reflexivity.
    - rewrite Z.sub_diag. left. reflexivity. }
  destruct H as [H|H]; [left | right]; apply Prim2SF_inj; rewrite H; reflexivity.
Qed.

(** X17. When the level's time is up, the tick of [_update_playing]
    only ends the game: state [GAME_OVER], indicator [game_over], the
    game-over sound requested; it spawns nothing and moves nothing, so
    apples, slice count and level are those of the tick before, however
    many apples were still to come. *)
Theorem X17_time_up_ends_game (now : float) (rnd : nat -> SpawnDirection)
    (g : Game) (lvl : Level) :
  current_level g = Some lvl ->
  fle (Z2F (time lvl) - ((now - total_pause_time g) - game_start_time g))%float 0
    = true ->
  exists g',
    _update_playing now rnd g = Done g'
    /\ state g' = GAME_OVER /\ led_state g' = game_over
    /\ sound_requests g' = snd_game_over :: sound_requests g
    /\ g_apples g' = g_apples g /\ sliced_count g' = sliced_count g
    /\ current_level g' = Some lvl.
Proof.
  intros Hl Hup. unfold _update_playing. rewrite Hl, Hup.
  eexists. split; [reflexivity|]. cbn. auto 10.
Qed.

Lemma X17_time_up_ends_game_witness :
  exists g',
    _update_playing 60 (fun _ => Top) (state_of (start_level 0 0 (Game_init 0)))
    = Done g'
    /\ state g' = GAME_OVER /\ g_apples g' = [].
Proof.
  destruct (X17_time_up_ends_game 60 (fun _ => Top)
              (state_of (start_level 0 0 (Game_init 0))) level0 eq_refl)
    as (g' & E & Hs & _ & _ & Ha & _).
  - vm_compute. reflexivity.
  - exists g'. auto.
Defined.

Lemma inputs_encoder_detect_state (now : float) (enc : EncoderRead) (g : Game) :
  let g' := inputs_encoder_detect now enc g in
  state g' = state g /\ g_apples g' = g_apples g
  /\ sliced_count g' = sliced_count g /\ cut_calls g' = cut_calls g.
Proof.
  unfold inputs_encoder_detect.
  destruct (_ && _); [|auto]. destruct (negb _); [|auto].
  destruct (_ && _); [|auto]. destruct (_ >? 0); cbn; auto.
Qed.

Lemma inputs_accel_detect_state (now : float) (acc : option (float * float * float))
    (g : Game) :
  let g' := inputs_accel_detect now acc g in
  state g' = state g /\ g_apples g' = g_apples g
  /\ sliced_count g' = sliced_count g /\ cut_calls g' = cut_calls g.
Proof.
  unfold inputs_accel_detect.
  destruct (fgt _ _); [|auto]. destruct acc as [[[ax ay] az]|]; [|auto].
  cbv zeta. destruct (_ && _); [|destruct (_ && _)]; cbn; auto.
Qed.

(** X18. Outside the [PLAYING] state a tick of [_update_inputs]
    submits nothing to matching: apples, slice count and state are left
    as they were, whatever the sensors read; a pending encoder action
    that has come due is discarded unsubmitted. *)
Theorem X18_no_matching_unless_playing (now : float) (i : Inputs) (g : Game) :
  state g <> PLAYING ->
  let g' := _update_inputs now i g in
  g_apples g' = g_apples g /\ sliced_count g' = sliced_count g
  /\ cut_calls g' = cut_calls g /\ state g' = state g
  /\ (forall a t, encoder_action_pending g = Some (a, t) -> fge now t = true ->
        encoder_action_pending g' = None).
Proof.
  intros Hst.
  assert (Hnp : GameState_eqb (state g) PLAYING = false)
    by (destruct (state g); try reflexivity; contradiction).
  unfold _update_inputs.
  assert (Hd : inputs_encoder_detect now (in_encoder i) g = g).
  { unfold inputs_encoder_detect. rewrite Hnp. reflexivity. }
  rewrite Hd.
  set (g2 := inputs_encoder_fire now (in_cut_clock_encoder i) g).
  assert (H2 : state g2 = state g /\ g_apples g2 = g_apples g
               /\ sliced_count g2 = sliced_count g /\ cut_calls g2 = cut_calls g
               /\ (forall a t, encoder_action_pending g = Some (a, t) ->
                     fge now t = true -> encoder_action_pending g2 = None)).
  { subst g2. unfold inputs_encoder_fire.
    destruct (encoder_action_pending g) as [[a t]|]; [|repeat split; discriminate].
    destruct (fge now t) eqn:Hdue.
    - rewrite Hnp. cbn. repeat split.
    - repeat split. intros a' t' [= <- <-] H. congruence. }
  destruct H2 as (S2 & A2 & C2 & K2 & P2).
  set (g4 := inputs_accel_fire now (in_cut_clock_accel i)
               (inputs_accel_detect now (in_acceleration i) g2)).
  assert (H4 : state g4 = state g /\ g_apples g4 = g_apples g
               /\ sliced_count g4 = sliced_count g /\ cut_calls g4 = cut_calls g
               /\ encoder_action_pending g4 = encoder_action_pending g2).
  { subst g4.
    destruct (inputs_accel_detect_state now (in_acceleration i) g2)
      as (S3 & A3 & C3 & K3).
    assert (E3 : encoder_action_pending
                   (inputs_accel_detect now (in_acceleration i) g2)
                 = encoder_action_pending g2).
    { unfold inputs_accel_detect.
      destruct (fgt _ _); [|auto]. destruct (in_acceleration i) as [[[ax ay] az]|]; [|auto].
      cbv zeta. destruct (_ && _); [|destruct (_ && _)]; reflexivity. }
    set (g3 := inputs_accel_detect now (in_acceleration i) g2) in *.
    unfold inputs_accel_fire.
    destruct (accel_action_pending g3) as [[a t]|];
      [|repeat split; congruence].
    destruct (fge now t); [|repeat split; congruence].
    replace (GameState_eqb (state g3) PLAYING) with false by congruence.
    cbn. repeat split; congruence. }
  destruct H4 as (S4 & A4 & C4 & K4 & P4).
  destruct (in_power_switch i) as [| |[|]]; cbv zeta;
    repeat split; try assumption;
    intros a t Hp Hdue; rewrite ?P4; exact (P2 a t Hp Hdue).
Qed.

Lemma X18_no_matching_unless_playing_witness :
  let g := set_encoder_action_pending (Some (rotate_left, 1%float)) (Game_init 0) in
  let g' := _update_inputs 2 (mkInputs enc_unavailable sw_absent None 2 2) g in
  g_apples g' = g_apples g /\ sliced_count g' = sliced_count g
  /\ cut_calls g' = cut_calls g.
Proof.
  intros g g'.
  destruct (X18_no_matching_unless_playing 2
              (mkInputs enc_unavailable sw_absent None 2 2) g)
    as (H1 & H2 & H3 & _).
  - discriminate.
  - auto.
Defined.

(** X19. A tick of [_update_playing] that finds time left and returns
    leaves the indicator state [warning] whenever at most 10 s remain,
    also over a success or error flash still in progress, and leaves it
    as it was otherwise. *)
Theorem X19_warning_overrides_flash (now : float) (rnd : nat -> SpawnDirection)
    (g g' : Game) (lvl : Level) :
  current_level g = Some lvl ->
  let remaining :=
    (Z2F (time lvl) - ((now - total_pause_time g) - game_start_time g))%float in
  fle remaining 0 = false ->
  _update_playing now rnd g = Done g' ->
  led_state g' = if fle remaining (Z2F 10) then warning else led_state g.
Proof.
  intros Hl remaining Hrem. unfold _update_playing. rewrite Hl. fold remaining.
  rewrite Hrem.
  destruct (apples_to_spawn_at _ _ lvl) as [n|]; [|discriminate].
  rewrite (spawn_loop_spec rnd _ _ g lvl Hl).
  cbn [g_apples set_apples].
  destruct (update_all _ _) as [l|l]; [|discriminate].
  destruct (fle remaining (Z2F 10)); intros [= <-]; reflexivity.
Qed.

Lemma X19_warning_overrides_flash_witness :
  let g := set_led_state success (state_of (start_level 0 0 (Game_init 0))) in
  led_state (state_of (_update_playing 55 (fun _ => Top) g)) = warning.
Proof.
  intros g.
  destruct (_update_playing 55 (fun _ => Top) g) as [g'|g'] eqn:E.
  - cbn [state_of].
    rewrite (X19_warning_overrides_flash 55 (fun _ => Top) g g' level0 eq_refl);
      [vm_compute; reflexivity | vm_compute; reflexivity | exact E].
  - vm_compute in E. discriminate E.
Defined.

(** X20. While the power switch reads "off", a tick of [_update_inputs]
    serves the encoder only: the accelerometer is not sampled, its last
    sample and sample time stay as they were, and its pending action is
    neither replaced nor fired, even when due. *)
Theorem X20_switch_off_skips_accelerometer (now : float) (i : Inputs) (g : Game) :
  in_power_switch i = sw_value true ->
  let g' := _update_inputs now i g in
  g' = inputs_encoder_fire now (in_cut_clock_encoder i)
         (inputs_encoder_detect now (in_encoder i) g)
  /\ accel_action_pending g' = accel_action_pending g
  /\ last_accel_y g' = last_accel_y g
  /\ last_accel_action_time g' = last_accel_action_time g.
Proof.
  intros Hsw. unfold _update_inputs. rewrite Hsw. cbv zeta.
  split; [reflexivity|].
  apply encoder_steps_frame.
Qed.

Lemma X20_switch_off_skips_accelerometer_witness :
  let g := set_accel_action_pending (Some (forward, 1%float))
             (state_of (start_level 0 0 (Game_init 0))) in
  accel_action_pending
    (_update_inputs 5 (mkInputs enc_unavailable (sw_value true)
                         (Some (0, 5, 0)%float) 5 5) g)
  = Some (forward, 1%float).
Proof.
  intros g.
  apply (proj1 (proj2 (X20_switch_off_skips_accelerometer 5
           (mkInputs enc_unavailable (sw_value true) (Some (0, 5, 0)%float) 5 5)
           g eq_refl))).
Defined.

(** X21. An encoder position more than 100 steps away from the last
    one seen is treated differently by the two readers.  While playing
    it is ignored altogether: no action, and the last-seen position is
    not moved, so later positions are still measured from the old one.
    On the menu the difficulty is left alone but the last-seen position
    is moved to the new one. *)
Theorem X21_encoder_jump (now : float) (p : Z) (g : Game) :
  100 < Z.abs (p - last_encoder_position g) ->
  inputs_encoder_detect now (enc_position p) g = g
  /\ menu_encoder (enc_position p) g = set_last_encoder_position p g.
Proof.
  intros Hjump.
  assert (Hne : (p =? last_encoder_position g) = false)
    by (apply Z.eqb_neq; lia).
  assert (Hbig : (Z.abs (p - last_encoder_position g) <=? 100) = false)
    by (apply Z.leb_gt; lia).
  split.
  - unfold inputs_encoder_detect. rewrite Hne, Hbig.
    destruct (_ && _); reflexivity.
  - unfold menu_encoder. rewrite Hne, Hbig. reflexivity.
Qed.

Lemma X21_encoder_jump_witness :
  let g := state_of (start_level 0 0 (Game_init 0)) in
  inputs_encoder_detect 1 (enc_position 500) g = g
  /\ last_encoder_position (menu_encoder (enc_position 500) g) = 500.
Proof.
  intros g.
  destruct (X21_encoder_jump 1 500 g) as (H1 & H2); [cbn; lia|].
  rewrite H2. split; [exact H1 | reflexivity].
Defined.

Lemma menu_encoder_buttons (enc : EncoderRead) (g : Game) :
  let g' := menu_encoder enc g in
  _button_last_state g' = _button_last_state g
  /\ state g' = state g /\ current_level g' = current_level g
  /\ g_apples g' = g_apples g.
Proof.
  unfold menu_encoder. destruct enc as [| |p]; auto.
  destruct (negb _); auto.
  destruct (Z.abs _ <=? 100); [|cbn; auto].
  unfold _update_level_index_from_difficulty.
  destruct (_ >? 0); [|destruct (_ <? 0)];
    match goal with |- context [current_difficulty_index ?u <? ?v] =>
      destruct (current_difficulty_index u <? v) end;
    try match goal with |- context [py_index ?u ?v] => destruct (py_index u v) end;
    cbn; auto.
Qed.

(** X22. The tick that first sees the button down never acts on it.
    On the menu it records the press time and starts no level; in the
    game-over screen it records the press time and stays in game over.
    Both need a later tick with the button still down (1 s later on the
    menu, more than 0.2 s later in game over). *)
Theorem X22_press_edge_never_acts (now start_now : float) (enc : EncoderRead)
    (g : Game) :
  (_button_last_state g = false ->
   exists g',
     _update_menu now enc true start_now g = Done g'
     /\ state g' = state g /\ current_level g' = current_level g
     /\ g_apples g' = g_apples g
     /\ _button_press_start_time g' = now /\ _button_last_state g' = true)
  /\ (_game_over_button_last_state g <> Some true ->
      exists g',
        _update_game_over now true g = Done g'
        /\ state g' = state g /\ current_level g' = current_level g
        /\ _game_over_button_press_time g' = Some now
        /\ _game_over_button_last_state g' = Some true).
Proof.
  assert (Hhold : fge (now - now)%float 1 = false)
    by (destruct (fsub_diag now) as [-> | ->]; reflexivity).
  assert (Hheld : fgt (now - now)%float 0x1.999999999999ap-3 = false)
    by (destruct (fsub_diag now) as [-> | ->]; reflexivity).
  split.
  - intros Hlast. unfold _update_menu.
    destruct (menu_encoder_buttons enc g) as (Hb & Hs & Hl & Ha).
    set (g1 := menu_encoder enc g) in *.
    rewrite Hb, Hlast. cbn [andb negb].
    cbn [_button_press_start_time set_button_action_done
         set_button_press_start_time _button_action_done].
    destruct (fgt now 0); cbn [andb negb and_then]; rewrite ?Hhold;
      cbn [and_then]; eexists; (split; [reflexivity|]); cbn; auto 10.
  - intros Hlast. unfold _update_game_over.
    destruct (_game_over_button_last_state g) as [[|]|] eqn:El;
      [contradiction| |];
      destruct (_game_over_button_press_time g) as [p|] eqn:Ep;
      cbn [_game_over_button_last_state _game_over_button_press_time
           set_game_over_button_last_state set_game_over_button_press_time
           andb negb];
      rewrite ?El, ?Ep;
      cbn [_game_over_button_last_state _game_over_button_press_time
           set_game_over_button_last_state set_game_over_button_press_time
           andb negb];
      destruct (fgt now 0); cbn [andb negb and_then]; rewrite ?Hheld;
      cbn [and_then]; eexists; (split; [reflexivity|]); cbn; auto.
Qed.

Lemma X22_press_edge_never_acts_witness :
  exists g',
    _update_menu 5 enc_unavailable true 5 (Game_init 0) = Done g'
    /\ state g' = MENU /\ current_level g' = None.
Proof.
  destruct (proj1 (X22_press_edge_never_acts 5 5 enc_unavailable (Game_init 0))
              eq_refl) as (g' & E & Hs & Hl & _).
  exists g'. auto.
Defined.

(** X23. [start_level] refuses an index at or past the end of the
    table: it returns [False] and leaves the session untouched.  It
    does not refuse a negative index: from -1 down to minus the table
    length the index counts from the end of the table, and the level
    found there is started. *)
Theorem X23_start_level_index_edges (level_index : Z) (now : float) (g : Game) :
  (Z.of_nat (length LEVELS) <= level_index ->
   start_level level_index now g = Done g
   /\ start_level_returns level_index = false)
  /\ (- Z.of_nat (length LEVELS) <= level_index < 0 ->
      exists lvl g',
        nth_error LEVELS (Z.to_nat (level_index + Z.of_nat (length LEVELS)))
          = Some lvl
        /\ start_level level_index now g = Done g'
        /\ current_level g' = Some lvl /\ state g' = PLAYING
        /\ current_level_index g' = level_index
        /\ start_level_returns level_index = true).
Proof.
  split.
  - intros Hbig. unfold start_level, start_level_returns.
    destruct (Z.geb_spec level_index (Z.of_nat (length LEVELS))); [|lia].
    split; reflexivity.
  - intros Hneg. unfold start_level, start_level_returns, py_index.
    destruct (Z.geb_spec level_index (Z.of_nat (length LEVELS))); [lia|].
    destruct (Z.leb_spec 0 level_index); [lia|].
    destruct (Z.leb_spec 0 (level_index + Z.of_nat (length LEVELS))); [|lia].
    destruct (nth_error LEVELS (Z.to_nat (level_index + Z.of_nat (length LEVELS))))
      as [lvl|] eqn:En.
    + exists lvl. eexists. split; [reflexivity|]. split; [reflexivity|].
      cbn. auto.
    + apply nth_error_None in En. lia.
Qed.

Lemma X23_start_level_index_edges_witness :
  exists g',
    start_level (-1) 0 (Game_init 0) = Done g'
    /\ option_map name (current_level g') = Some "H3:HD 35A 20S"%string.
Proof.
  destruct (proj2 (X23_start_level_index_edges (-1) 0 (Game_init 0)))
    as (lvl & g' & Hn & E & Hl & _); [cbn; lia|].
  exists g'. split; [exact E|]. rewrite Hl.
  vm_compute in Hn. injection Hn as <-. reflexivity.
Defined.

(** X24. A [draw] that gets as far as drawing never leaves the session
    [PAUSED] and never leaves a state other than [MENU] without an
    active level: a paused session comes out in [MENU] with the level
    cleared, a session with an active level in [MENU], [PLAYING] or
    [GAME_OVER] is left alone, and a second draw changes nothing
    more. *)
Theorem X24_draw_resets_paused (g : Game) :
  let g' := draw_session true g in
  state g' <> PAUSED
  /\ (current_level g' = None -> state g' = MENU)
  /\ (state g = PAUSED -> state g' = MENU /\ current_level g' = None)
  /\ (state g <> PAUSED -> current_level g <> None -> g' = g)
  /\ draw_session true g' = g'.
Proof.
  unfold draw_session. cbn [negb].
  destruct (current_level g) as [lvl|] eqn:Hl, (state g) eqn:Hs;
    cbn [state set_state current_level set_current_level];
    rewrite ?Hl, ?Hs;
    cbn [state set_state current_level set_current_level];
    rewrite ?Hl, ?Hs;
    repeat split; try discriminate; try reflexivity; try congruence;
    try (intros H; try discriminate H; try contradiction; try (exfalso; apply H; reflexivity)).
  all: try (intros ? H; exfalso; apply H; reflexivity).
Qed.

(** X25. If every sensor read of the calibration raises, the adapter
    still comes up: the X and Y offsets are 0 and the Z offset is
    -9.81, because the sums are divided by the number of samples asked
    for and gravity is subtracted regardless; so the first calibrated Z
    value is the raw one plus 9.81. *)
Theorem X25_calibration_without_samples
    (reads : nat -> option (float * float * float)) :
  (forall k, (k < 100)%nat -> reads k = None) ->
  CalibratedAccel_init reads
  = mkAccel 0 0 (-0x1.39eb851eb851fp+3) 0x1.999999999999ap-3 0 0 0.
Proof.
  intros Hfail.
  assert (Hs : forall n from sums,
             (from + n <= 100)%nat -> calibrate_sums n reads from sums = sums).
  { induction n as [|n IH]; intros from sums Hb; cbn [calibrate_sums].
    - reflexivity.
    - rewrite (Hfail from) by lia. apply IH. lia. }
  unfold CalibratedAccel_init, calibrate.
  change (Z.to_nat 100) with 100%nat. rewrite Hs by lia.
  vm_compute. reflexivity.
Qed.

Lemma X25_calibration_without_samples_witness :
  z_offset (CalibratedAccel_init (fun _ => None)) = (-0x1.39eb851eb851fp+3)%float.
Proof.
  rewrite (X25_calibration_without_samples (fun _ => None)); [reflexivity|].
  intros k _. reflexivity.
Defined.

(** ** Indicator LED *)



(** X26. [_update_leds] changes the session only by ending a flash:
    from [success] or [error], once more than 0.3 s have passed since
    the match timestamp and the pixel could be set, the indicator state
    goes back to [playing]; in the first 0.2 s the state stays and the
    pixel shows the flash colour (blue for success, red for error) at
    brightness 0.5.  In every other case the session is left as it
    is. *)
Theorem X26_flash_ends_after_300ms (current_time : float) (pixels_ok : bool)
    (g : Game) (l : LedAttrs) :
  let since := (current_time - last_led_update g)%float in
  let '(g', _, shown) := _update_leds current_time pixels_ok g l in
  (g' = g
   \/ (g' = set_led_state playing g
       /\ (led_state g = success \/ led_state g = error)
       /\ fgt since 0x1.3333333333333p-2 = true))
  /\ (led_state g = success \/ led_state g = error ->
      pixels_ok = true ->
      flt since 0x1.999999999999ap-3 = false ->
      fgt since 0x1.3333333333333p-2 = true ->
      led_state g' = playing)
  /\ (led_state g = success \/ led_state g = error ->
      pixels_ok = true ->
      flt since 0x1.999999999999ap-3 = true ->
      g' = g
      /\ shown = Some (0x1p-1%float,
                       if match led_state g with success => true | _ => false end
                       then (0, 0, 255) else (255, 0, 0))).
Proof.
  cbv zeta. unfold _update_leds.
  destruct (led_state g) eqn:Hled.
  - (* idle *)
    destruct pixels_ok; cbn;
      (split; [left; reflexivity|]);
      (split; [intros [H|H]; discriminate H | intros [H|H]; discriminate H]).
  - (* playing *)
    cbn. split; [left; reflexivity|].
    split; [intros [H|H]; discriminate H | intros [H|H]; discriminate H].
  - (* success *)
    destruct (flt (current_time - last_led_update g) _) eqn:Hearly.
    + split; [left; reflexivity|]. split; [intros _ _ H; discriminate H|].
      intros _ -> _. split; reflexivity.
    + destruct pixels_ok.
      * destruct (fgt (current_time - last_led_update g) _) eqn:Hlate.
        -- split; [right; auto|]. split; [intros; reflexivity|].
           intros _ _ H. discriminate H.
        -- split; [left; reflexivity|]. split; [intros _ _ _ H; discriminate H|].
           intros _ _ H. discriminate H.
      * split; [left; reflexivity|]. split; [intros _ H; discriminate H|].
        intros _ H. discriminate H.
  - (* error *)
    destruct (flt (current_time - last_led_update g) _) eqn:Hearly.
    + split; [left; reflexivity|]. split; [intros _ _ H; discriminate H|].
      intros _ -> _. split; reflexivity.
    + destruct pixels_ok.
      * destruct (fgt (current_time - last_led_update g) _) eqn:Hlate.
        -- split; [right; auto|]. split; [intros; reflexivity|].
           intros _ _ H. discriminate H.
        -- split; [left; reflexivity|]. split; [intros _ _ _ H; discriminate H|].
           intros _ _ H. discriminate H.
      * split; [left; reflexivity|]. split; [intros _ H; discriminate H|].
        intros _ H. discriminate H.
  - (* warning *)
    destruct (int (current_time * 3)); cbn;
      (split; [left; reflexivity|]);
      (split; [intros [H|H]; discriminate H | intros [H|H]; discriminate H]).
  - (* game_over *)
    destruct pixels_ok; cbn;
      (split; [left; reflexivity|]);
      (split; [intros [H|H]; discriminate H | intros [H|H]; discriminate H]).
Qed.

Lemma X26_flash_ends_after_300ms_witness :
  led_state
    (fst (fst (_update_leds 2 true
                 (set_last_led_update 1 (set_led_state success (Game_init 0)))
                 LedAttrs_init))) = playing.
Proof.
  pose proof (X26_flash_ends_after_300ms 2 true
                (set_last_led_update 1 (set_led_state success (Game_init 0)))
                LedAttrs_init) as H.
  cbv zeta in H.
  destruct (_update_leds 2 true
              (set_last_led_update 1 (set_led_state success (Game_init 0)))
              LedAttrs_init) as [[g' l'] shown].
  destruct H as (_ & H & _). cbn [fst].
  apply H; [left; reflexivity | reflexivity
            | vm_compute; reflexivity | vm_compute; reflexivity].
Defined.


